(** * DynamoAutoScale: the capacity-adjustment script, embedded and verified

    The script [DynamoAutoScale.py] runs under Python 2.7.  Its decision
    arithmetic mixes Python integers (capacities, counters) with IEEE-754
    binary64 floats (metric sums, the three multipliers, the results of
    [math.ceil]).  The embedding keeps that typing: a Python number is either
    an unbounded integer or a binary64 float, the latter represented by
    [spec_float] with precision 53 and [emax] 1024, and every operator below
    follows the Python 2.7 rule for its operand types. *)

From Stdlib Require Import ZArith Lia List String Ascii Bool DecimalString.
From Stdlib Require Import SpecFloat.
Import ListNotations.

Local Open Scope Z_scope.

(** ** Binary64 arithmetic *)

Module B64.

Definition prec : Z := 53.
Definition emax : Z := 1024.

Definition valid (x : spec_float) : bool := valid_binary prec emax x.

Definition mul : spec_float -> spec_float -> spec_float := SFmul prec emax.
Definition div : spec_float -> spec_float -> spec_float := SFdiv prec emax.

(** Conversion of an integer, rounding to nearest-even; integers at or
    beyond [2^1024 - 2^970] come out as an infinity. *)
Definition of_Z (z : Z) : spec_float := binary_normalize prec emax z 0 false.

(** The integer [ceil (z / 2^k)] for [k > 0]. *)
Definition cdiv_pow2 (z k : Z) : Z := - ((- z) / 2 ^ k).

(** C's [ceil]: the least integral float not below [x].  A float with a
    non-negative exponent is already integral; otherwise its mantissa is
    divided by [2^(-e)] rounding up, and a zero result keeps the sign. *)
Definition ceil (x : spec_float) : spec_float :=
  match x with
  | S754_finite s m e =>
      if 0 <=? e then x
      else
        let q := cdiv_pow2 (cond_Zopp s (Zpos m)) (- e) in
        if q =? 0 then S754_zero s else binary_normalize prec emax q 0 s
  | _ => x
  end.

(** C's conversion of a finite float to an integer: truncation. *)
Definition trunc (s : bool) (m : positive) (e : Z) : Z :=
  cond_Zopp s (if 0 <=? e then Zpos m * 2 ^ e else Zpos m / 2 ^ (- e)).

(** Exact comparison of an integer with a float. *)
Definition Zcompare (z : Z) (f : spec_float) : option comparison :=
  match f with
  | S754_nan => None
  | S754_infinity s => Some (if s then Gt else Lt)
  | S754_zero _ => Some (z ?= 0)
  | S754_finite s m e =>
      Some (if 0 <=? e then z ?= cond_Zopp s (Zpos m * 2 ^ e)
            else z * 2 ^ (- e) ?= cond_Zopp s (Zpos m))
  end.

End B64.

(** ** Python numbers and the operators the script applies to them *)

Inductive pyexn : Type := OverflowError | ZeroDivisionError | ValueError.

Inductive pynum : Type :=
| PyInt (z : Z)
| PyFloat (f : spec_float).

Definition result (A : Type) : Type := (pyexn + A)%type.

Definition ok {A} (a : A) : result A := inr a.
Definition raise {A} (e : pyexn) : result A := inl e.

Definition rbind {A B} (r : result A) (k : A -> result B) : result B :=
  match r with
  | inl e => inl e
  | inr a => k a
  end.

Declare Scope py_scope.
Delimit Scope py_scope with py.
Notation "x <- c ;; k" := (rbind c (fun x => k))
  (at level 61, c at next level, right associativity) : py_scope.
Open Scope py_scope.

(** [float(x)] as the arithmetic operators apply it to an operand:
    an integer too large for a double raises [OverflowError]. *)
Definition as_double (x : pynum) : result spec_float :=
  match x with
  | PyFloat f => ok f
  | PyInt z =>
      match B64.of_Z z with
      | S754_infinity _ => raise OverflowError
      | f => ok f
      end
  end.

(** [a * b] *)
Definition py_mul (a b : pynum) : result pynum :=
  match a, b with
  | PyInt x, PyInt y => ok (PyInt (x * y))
  | _, _ =>
      x <- as_double a ;;
      y <- as_double b ;;
      ok (PyFloat (B64.mul x y))
  end.

Definition is_zero (f : spec_float) : bool :=
  match f with
  | S754_zero _ => true
  | _ => false
  end.

(** [a / b], Python 2 division: floor division on two integers, float
    division otherwise; a zero divisor raises. *)
Definition py_div (a b : pynum) : result pynum :=
  match a, b with
  | PyInt x, PyInt y =>
      if y =? 0 then raise ZeroDivisionError else ok (PyInt (x / y))
  | _, _ =>
      x <- as_double a ;;
      y <- as_double b ;;
      if is_zero y then raise ZeroDivisionError
      else ok (PyFloat (B64.div x y))
  end.

(** Rich comparison: exact on every pair of operand types, [None] when a
    NaN makes the operands unordered. *)
Definition py_compare (a b : pynum) : option comparison :=
  match a, b with
  | PyInt x, PyInt y => Some (x ?= y)
  | PyFloat x, PyFloat y => SFcompare x y
  | PyInt x, PyFloat y => B64.Zcompare x y
  | PyFloat x, PyInt y => option_map CompOpp (B64.Zcompare y x)
  end.

Definition py_lt (a b : pynum) : bool :=
  match py_compare a b with
  | Some Lt => true
  | _ => false
  end.

Definition py_gt (a b : pynum) : bool :=
  match py_compare a b with
  | Some Gt => true
  | _ => false
  end.

Definition py_le (a b : pynum) : bool :=
  match py_compare a b with
  | Some (Lt | Eq) => true
  | _ => false
  end.

Definition py_ne (a b : pynum) : bool :=
  match py_compare a b with
  | Some Eq => false
  | _ => true
  end.

(** [max(a, b)] and [min(a, b)]: the first argument is kept unless the
    second one is strictly better. *)
Definition py_max (a b : pynum) : pynum := if py_gt b a then b else a.
Definition py_min (a b : pynum) : pynum := if py_lt b a then b else a.

(** [math.ceil(x)]: Python 2.7 returns a float. *)
Definition math_ceil (x : pynum) : result pynum :=
  f <- as_double x ;;
  ok (PyFloat (B64.ceil f)).

(** [int(x)] *)
Definition py_int (x : pynum) : result Z :=
  match x with
  | PyInt z => ok z
  | PyFloat (S754_zero _) => ok 0
  | PyFloat (S754_finite s m e) => ok (B64.trunc s m e)
  | PyFloat (S754_infinity _) => raise OverflowError
  | PyFloat S754_nan => raise ValueError
  end.

(** ** Float literals of the script

    Each literal is the double nearest to the decimal written in the
    source. *)

Definition lit_0_90 : spec_float := S754_finite false 8106479329266893 (-53).
Definition lit_1_40 : spec_float := S754_finite false 6305039478318694 (-52).
Definition lit_1_15 : spec_float := S754_finite false 5179139571476070 (-52).

Local Open Scope string_scope.
Local Open Scope Z_scope.

(** ** Module-level configuration *)

Record Config : Type := {
  RAISE_CAPACITY_THRESHOLD : spec_float;
  RAISE_CAPACITY_MULTIPLE : spec_float;
  LOWER_CAPACITY_MULTIPLE : spec_float;
  MAXIMUM_TIMES_TO_LOWER_CAPACITY_PER_DAY : Z;
  MINIMUM_CAPACITY : Z;
  MAXIMUM_CAPACITY : Z;
  EMAIL_ADDRESS_OF_SENDER : string;
  EMAIL_ADDRESSES_OF_RECIPIENTS : list string;
  SECONDS_PER_DATA_POINT : Z
}.

(** The values written in the source file. *)
Definition source_config : Config := {|
  RAISE_CAPACITY_THRESHOLD := lit_0_90;
  RAISE_CAPACITY_MULTIPLE := lit_1_40;
  LOWER_CAPACITY_MULTIPLE := lit_1_15;
  MAXIMUM_TIMES_TO_LOWER_CAPACITY_PER_DAY := 1;
  MINIMUM_CAPACITY := 3;
  MAXIMUM_CAPACITY := 5000;
  EMAIL_ADDRESS_OF_SENDER := "";
  EMAIL_ADDRESSES_OF_RECIPIENTS := [];
  SECONDS_PER_DATA_POINT := 300
|}.

(** ** The services the script talks to *)

Record Throughput : Type := {
  NumberOfDecreasesToday : Z;
  WriteCapacityUnits : Z;
  ReadCapacityUnits : Z
}.

Record SecondaryIndex : Type := {
  IndexName : string;
  ProvisionedThroughput : Throughput
}.

Record TableResource : Type := {
  provisioned_throughput : Throughput;
  global_secondary_indexes : option (list SecondaryIndex)
}.

Inductive MetricName : Type :=
| ConsumedWriteCapacityUnits
| ConsumedReadCapacityUnits.

(** A CloudWatch datapoint; only its [Sum] statistic is read. *)
Record Datapoint : Type := { Sum : spec_float }.

(** What the services answer during one invocation.  The metric query is
    keyed by the period, the metric and the dimension list; the 24-hour
    window is part of the answer. *)
Record AWS : Type := {
  list_tables : list string;
  Table : string -> TableResource;
  get_metric_statistics :
    Z -> MetricName -> list (string * string) -> list Datapoint
}.

(** What the script does to the outside: capacity updates, e-mails, and
    lines on standard output. *)
Inductive event : Type :=
| UpdateTable (tableName : string) (read write : Z)
| UpdateIndex (tableName indexName : string) (read write : Z)
| SendEmail (source : string) (toAddresses : list string)
            (subject body : string)
| Print (line : string).

(** A run: the events performed so far, then a value or the exception
    that stopped it.  The service calls themselves are taken to return. *)
Definition io (A : Type) : Type := (list event * result A)%type.

Definition io_ret {A} (a : A) : io A := ([], ok a).
Definition io_lift {A} (r : result A) : io A := ([], r).
Definition emit (e : event) : io unit := ([e], ok tt).

Definition io_bind {A B} (c : io A) (k : A -> io B) : io B :=
  match c with
  | (evs, inl e) => (evs, inl e)
  | (evs, inr a) => let (evs', r) := k a in ((evs ++ evs')%list, r)
  end.

Notation "x <-- c ;; k" := (io_bind c (fun x => k))
  (at level 61, c at next level, right associativity) : py_scope.
Notation "c ;;; k" := (io_bind c (fun _ => k))
  (at level 61, right associativity) : py_scope.

Definition when (b : bool) (c : io unit) : io unit :=
  if b then c else io_ret tt.

Fixpoint for_each {A} (xs : list A) (body : A -> io unit) : io unit :=
  match xs with
  | [] => io_ret tt
  | x :: rest => body x ;;; for_each rest body
  end.

(** ** Text *)

Definition str_int (z : Z) : string := NilZero.string_of_int (Z.to_int z).

Definition str_bool (b : bool) : string := if b then "True" else "False".

(** The local variables of one evaluation, as the summary line reports
    them. *)
Record Summary : Type := {
  writeCapacity : Z;
  readCapacity : Z;
  decreasesSoFarToday : Z;
  peakReadThroughputLastDay : pynum;
  peakWriteThroughputLastDay : pynum;
  readWasUpdated : bool;
  adjustedReadCapacity : pynum;
  writeWasUpdated : bool;
  adjustedWriteCapacity : pynum
}.

Notation "' pat <- c ;; k" :=
  (rbind c (fun x => match x with pat => k end))
  (at level 61, pat pattern, c at next level, right associativity) : py_scope.

(** ** The script *)

Section Script.

Variable cfg : Config.
Variable aws : AWS.

(** [str] of a float: Python's float formatting is a parameter. *)
Variable float_str : spec_float -> string.

Definition str_num (x : pynum) : string :=
  match x with
  | PyInt z => str_int z
  | PyFloat f => float_str f
  end.

(** The loop
    [for datapoint in ...: peak = max(peak, datapoint["Sum"]/SECONDS_PER_DATA_POINT)]. *)
Fixpoint peak_loop (datapoints : list Datapoint) (peak : pynum)
  : result pynum :=
  match datapoints with
  | [] => ok peak
  | datapoint :: rest =>
      x <- py_div (PyFloat (Sum datapoint))
                  (PyInt (SECONDS_PER_DATA_POINT cfg)) ;;
      peak_loop rest (py_max peak x)
  end.

(** Lines 51-100 of [adjustTableCapacity]: the locals up to the two
    update flags. *)
Definition adjustTableCapacity_locals (tableName : string) : result Summary :=
  let dynamodb := Table aws tableName in
  let currentCapacity := provisioned_throughput dynamodb in
  let decreasesSoFarToday := NumberOfDecreasesToday currentCapacity in
  let writeCapacity := WriteCapacityUnits currentCapacity in
  let readCapacity := ReadCapacityUnits currentCapacity in
  let dimensions := [("TableName", tableName)] in
  let writeThroughput :=
    get_metric_statistics aws (SECONDS_PER_DATA_POINT cfg)
      ConsumedWriteCapacityUnits dimensions in
  let readThroughput :=
    get_metric_statistics aws (SECONDS_PER_DATA_POINT cfg)
      ConsumedReadCapacityUnits dimensions in
  let peakReadThroughputLastDay := PyInt 0 in
  let peakWriteThroughputLastDay := PyInt 0 in
  peakReadThroughputLastDay <-
    peak_loop readThroughput peakReadThroughputLastDay ;;
  peakWriteThroughputLastDay <-
    peak_loop writeThroughput peakWriteThroughputLastDay ;;
  let adjustedWriteCapacity := PyInt writeCapacity in
  let adjustedReadCapacity := PyInt readCapacity in
  '(adjustedWriteCapacity, adjustedReadCapacity) <-
    (if decreasesSoFarToday <? MAXIMUM_TIMES_TO_LOWER_CAPACITY_PER_DAY cfg
     then
       w <- py_mul peakWriteThroughputLastDay
                   (PyFloat (LOWER_CAPACITY_MULTIPLE cfg)) ;;
       adjustedWriteCapacity <- math_ceil w ;;
       r <- py_mul peakReadThroughputLastDay
                   (PyFloat (LOWER_CAPACITY_MULTIPLE cfg)) ;;
       adjustedReadCapacity <- math_ceil r ;;
       ok (adjustedWriteCapacity, adjustedReadCapacity)
     else ok (adjustedWriteCapacity, adjustedReadCapacity)) ;;
  writeLimit <- py_mul (PyInt writeCapacity)
                       (PyFloat (RAISE_CAPACITY_THRESHOLD cfg)) ;;
  adjustedWriteCapacity <-
    (if py_gt peakWriteThroughputLastDay writeLimit
     then
       w <- py_mul peakWriteThroughputLastDay
                   (PyFloat (RAISE_CAPACITY_MULTIPLE cfg)) ;;
       math_ceil w
     else ok adjustedWriteCapacity) ;;
  readLimit <- py_mul (PyInt readCapacity)
                      (PyFloat (RAISE_CAPACITY_THRESHOLD cfg)) ;;
  adjustedReadCapacity <-
    (if py_gt peakReadThroughputLastDay readLimit
     then
       r <- py_mul peakReadThroughputLastDay
                   (PyFloat (RAISE_CAPACITY_MULTIPLE cfg)) ;;
       math_ceil r
     else ok adjustedReadCapacity) ;;
  let adjustedWriteCapacity :=
    py_max adjustedWriteCapacity (PyInt (MINIMUM_CAPACITY cfg)) in
  let adjustedWriteCapacity :=
    py_min adjustedWriteCapacity (PyInt (MAXIMUM_CAPACITY cfg)) in
  let adjustedReadCapacity :=
    py_max adjustedReadCapacity (PyInt (MINIMUM_CAPACITY cfg)) in
  let adjustedReadCapacity :=
    py_min adjustedReadCapacity (PyInt (MAXIMUM_CAPACITY cfg)) in
  let readWasUpdated := py_ne adjustedReadCapacity (PyInt readCapacity) in
  let writeWasUpdated := py_ne adjustedWriteCapacity (PyInt writeCapacity) in
  ok {| writeCapacity := writeCapacity;
        readCapacity := readCapacity;
        decreasesSoFarToday := decreasesSoFarToday;
        peakReadThroughputLastDay := peakReadThroughputLastDay;
        peakWriteThroughputLastDay := peakWriteThroughputLastDay;
        readWasUpdated := readWasUpdated;
        adjustedReadCapacity := adjustedReadCapacity;
        writeWasUpdated := writeWasUpdated;
        adjustedWriteCapacity := adjustedWriteCapacity |}.

(** The tail shared by both summary lines, from [" | Write Capacity: "]
    on. *)
Definition returnString_tail (s : Summary) : string :=
  (" | Write Capacity: " ++ str_int (writeCapacity s)
   ++ " | Read Capacity: " ++ str_int (readCapacity s)
   ++ " | Decreases So Far Today: " ++ str_int (decreasesSoFarToday s)
   ++ "/" ++ str_int (MAXIMUM_TIMES_TO_LOWER_CAPACITY_PER_DAY cfg) ++ ""
   ++ " | Peak Read Capacity (24hrs): "
   ++ str_num (peakReadThroughputLastDay s)
   ++ " | Peak Write Capacity (24hrs): "
   ++ str_num (peakWriteThroughputLastDay s)
   ++ " | Updated Read: " ++ str_bool (readWasUpdated s)
   ++ " | New Read Capacity: " ++ str_num (adjustedReadCapacity s)
   ++ " | Updated Write: " ++ str_bool (writeWasUpdated s)
   ++ " | New Write Capacity: " ++ str_num (adjustedWriteCapacity s))%string.

Definition sendEmailNotification (subject body : string) : io unit :=
  emit (SendEmail (EMAIL_ADDRESS_OF_SENDER cfg)
                  (EMAIL_ADDRESSES_OF_RECIPIENTS cfg) subject body).

(** The condition of lines 119 and 209. *)
Definition notify_condition (s : Summary) : bool :=
  (readWasUpdated s || writeWasUpdated s)
  && (0 <? Z.of_nat (List.length (EMAIL_ADDRESSES_OF_RECIPIENTS cfg)))
  && negb (EMAIL_ADDRESS_OF_SENDER cfg =? "")%string.

Definition adjustTableCapacity (tableName : string) : io unit :=
  s <-- io_lift (adjustTableCapacity_locals tableName) ;;
  when (readWasUpdated s || writeWasUpdated s)
    (r <-- io_lift (py_int (adjustedReadCapacity s)) ;;
     w <-- io_lift (py_int (adjustedWriteCapacity s)) ;;
     emit (UpdateTable tableName r w)) ;;;
  let returnString :=
    ("Dynamo Table: " ++ tableName ++ returnString_tail s)%string in
  when (notify_condition s)
    (sendEmailNotification
       ("Dynamo Capacity Updated For Table " ++ tableName ++ "")%string
       ("Details: " ++ returnString)%string) ;;;
  emit (Print returnString).

(** Lines 132-183: the same evaluation for one secondary index, inside
    the loop of [adjustTableIndexCapacities]. *)
Definition adjustTableIndexCapacities_locals
    (tableName : string) (secondaryIndex : SecondaryIndex)
  : result Summary :=
  let secondaryIndexName := IndexName secondaryIndex in
  let currentCapacity := ProvisionedThroughput secondaryIndex in
  let decreasesSoFarToday := NumberOfDecreasesToday currentCapacity in
  let writeCapacity := WriteCapacityUnits currentCapacity in
  let readCapacity := ReadCapacityUnits currentCapacity in
  let dimensions :=
    [("TableName", tableName);
     ("GlobalSecondaryIndexName", secondaryIndexName)] in
  let writeThroughput :=
    get_metric_statistics aws (SECONDS_PER_DATA_POINT cfg)
      ConsumedWriteCapacityUnits dimensions in
  let readThroughput :=
    get_metric_statistics aws (SECONDS_PER_DATA_POINT cfg)
      ConsumedReadCapacityUnits dimensions in
  let peakReadThroughputLastDay := PyInt 0 in
  let peakWriteThroughputLastDay := PyInt 0 in
  peakReadThroughputLastDay <-
    peak_loop readThroughput peakReadThroughputLastDay ;;
  peakWriteThroughputLastDay <-
    peak_loop writeThroughput peakWriteThroughputLastDay ;;
  let adjustedWriteCapacity := PyInt writeCapacity in
  let adjustedReadCapacity := PyInt readCapacity in
  '(adjustedWriteCapacity, adjustedReadCapacity) <-
    (if decreasesSoFarToday <? MAXIMUM_TIMES_TO_LOWER_CAPACITY_PER_DAY cfg
     then
       w <- py_mul peakWriteThroughputLastDay
                   (PyFloat (LOWER_CAPACITY_MULTIPLE cfg)) ;;
       adjustedWriteCapacity <- math_ceil w ;;
       r <- py_mul peakReadThroughputLastDay
                   (PyFloat (LOWER_CAPACITY_MULTIPLE cfg)) ;;
       adjustedReadCapacity <- math_ceil r ;;
       ok (adjustedWriteCapacity, adjustedReadCapacity)
     else ok (adjustedWriteCapacity, adjustedReadCapacity)) ;;
  writeLimit <- py_mul (PyInt writeCapacity)
                       (PyFloat (RAISE_CAPACITY_THRESHOLD cfg)) ;;
  adjustedWriteCapacity <-
    (if py_gt peakWriteThroughputLastDay writeLimit
     then
       w <- py_mul peakWriteThroughputLastDay
                   (PyFloat (RAISE_CAPACITY_MULTIPLE cfg)) ;;
       math_ceil w
     else ok adjustedWriteCapacity) ;;
  readLimit <- py_mul (PyInt readCapacity)
                      (PyFloat (RAISE_CAPACITY_THRESHOLD cfg)) ;;
  adjustedReadCapacity <-
    (if py_gt peakReadThroughputLastDay readLimit
     then
       r <- py_mul peakReadThroughputLastDay
                   (PyFloat (RAISE_CAPACITY_MULTIPLE cfg)) ;;
       math_ceil r
     else ok adjustedReadCapacity) ;;
  let adjustedWriteCapacity :=
    py_max adjustedWriteCapacity (PyInt (MINIMUM_CAPACITY cfg)) in
  let adjustedWriteCapacity :=
    py_min adjustedWriteCapacity (PyInt (MAXIMUM_CAPACITY cfg)) in
  let adjustedReadCapacity :=
    py_max adjustedReadCapacity (PyInt (MINIMUM_CAPACITY cfg)) in
  let adjustedReadCapacity :=
    py_min adjustedReadCapacity (PyInt (MAXIMUM_CAPACITY cfg)) in
  let readWasUpdated := py_ne adjustedReadCapacity (PyInt readCapacity) in
  let writeWasUpdated := py_ne adjustedWriteCapacity (PyInt writeCapacity) in
  ok {| writeCapacity := writeCapacity;
        readCapacity := readCapacity;
        decreasesSoFarToday := decreasesSoFarToday;
        peakReadThroughputLastDay := peakReadThroughputLastDay;
        peakWriteThroughputLastDay := peakWriteThroughputLastDay;
        readWasUpdated := readWasUpdated;
        adjustedReadCapacity := adjustedReadCapacity;
        writeWasUpdated := writeWasUpdated;
        adjustedWriteCapacity := adjustedWriteCapacity |}.

(** The body of the loop over the secondary indexes. *)
Definition adjustTableIndexCapacities_body
    (tableName : string) (secondaryIndex : SecondaryIndex) : io unit :=
  let secondaryIndexName := IndexName secondaryIndex in
  s <-- io_lift (adjustTableIndexCapacities_locals tableName secondaryIndex) ;;
  when (readWasUpdated s || writeWasUpdated s)
    (r <-- io_lift (py_int (adjustedReadCapacity s)) ;;
     w <-- io_lift (py_int (adjustedWriteCapacity s)) ;;
     emit (UpdateIndex tableName secondaryIndexName r w)) ;;;
  let returnString :=
    ("Dynamo Table (" ++ tableName ++ ") Index: " ++ secondaryIndexName
     ++ returnString_tail s)%string in
  when (notify_condition s)
    (sendEmailNotification
       ("Dynamo Capacity Updated For Index " ++ secondaryIndexName
        ++ " on Table " ++ tableName ++ "")%string
       ("Details: " ++ returnString)%string) ;;;
  emit (Print returnString).

Definition adjustTableIndexCapacities (tableName : string) : io unit :=
  let dynamodb := Table aws tableName in
  match global_secondary_indexes dynamodb with
  | None => emit (Print ("No secondary indexes in table: " ++ tableName))
  | Some indexes =>
      for_each indexes (adjustTableIndexCapacities_body tableName) ;;;
      emit (Print ("Finished Secondary Indexes on Table: " ++ tableName))
  end.

Definition lambda_handler : io unit :=
  for_each (list_tables aws)
    (fun table =>
       adjustTableCapacity table ;;;
       adjustTableIndexCapacities table).

End Script.

(** ** The decision algorithm in the words of the specification

    Section 4.1, steps 2 to 5, for one direction of one unit: start from
    the current capacity, apply the lower pass, then the raise pass, whose
    condition reads the current capacity, then clamp. *)

Section Decision.

Variable cfg : Config.

Definition lower_pass_fires (decreaseCountToday : Z) : bool :=
  decreaseCountToday <? MAXIMUM_TIMES_TO_LOWER_CAPACITY_PER_DAY cfg.

(** [ceil(peak * LOWER_MULTIPLE)] *)
Definition lower_value (peak : pynum) : result pynum :=
  x <- py_mul peak (PyFloat (LOWER_CAPACITY_MULTIPLE cfg)) ;;
  math_ceil x.

(** [ceil(peak * RAISE_MULTIPLE)] *)
Definition raise_value (peak : pynum) : result pynum :=
  x <- py_mul peak (PyFloat (RAISE_CAPACITY_MULTIPLE cfg)) ;;
  math_ceil x.

(** [peak > currentCapacity * RAISE_THRESHOLD] *)
Definition raise_pass_fires (currentCapacity : Z) (peak : pynum)
  : result bool :=
  limit <- py_mul (PyInt currentCapacity)
                  (PyFloat (RAISE_CAPACITY_THRESHOLD cfg)) ;;
  ok (py_gt peak limit).

Definition clamp (x : pynum) : pynum :=
  py_min (py_max x (PyInt (MINIMUM_CAPACITY cfg)))
         (PyInt (MAXIMUM_CAPACITY cfg)).

Definition decision (decreaseCountToday currentCapacity : Z) (peak : pynum)
  : result pynum :=
  adjusted <- (if lower_pass_fires decreaseCountToday
               then lower_value peak
               else ok (PyInt currentCapacity)) ;;
  fires <- raise_pass_fires currentCapacity peak ;;
  adjusted <- (if fires then raise_value peak else ok adjusted) ;;
  ok (clamp adjusted).

(** The variant the specification rules out: the raise condition read
    against the value the lower pass left. *)
Definition decision_on_lowered
    (decreaseCountToday currentCapacity : Z) (peak : pynum)
  : result pynum :=
  adjusted <- (if lower_pass_fires decreaseCountToday
               then lower_value peak
               else ok (PyInt currentCapacity)) ;;
  limit <- py_mul adjusted (PyFloat (RAISE_CAPACITY_THRESHOLD cfg)) ;;
  adjusted <- (if py_gt peak limit then raise_value peak else ok adjusted) ;;
  ok (clamp adjusted).

(** What a summary must satisfy to be the outcome of the algorithm on
    the given throughput record and sample windows. *)
Definition decided (tp : Throughput) (readPts writePts : list Datapoint)
    (s : Summary) : Prop :=
  readCapacity s = ReadCapacityUnits tp
  /\ writeCapacity s = WriteCapacityUnits tp
  /\ decreasesSoFarToday s = NumberOfDecreasesToday tp
  /\ peak_loop cfg readPts (PyInt 0) = ok (peakReadThroughputLastDay s)
  /\ peak_loop cfg writePts (PyInt 0) = ok (peakWriteThroughputLastDay s)
  /\ decision (decreasesSoFarToday s) (readCapacity s)
       (peakReadThroughputLastDay s) = ok (adjustedReadCapacity s)
  /\ decision (decreasesSoFarToday s) (writeCapacity s)
       (peakWriteThroughputLastDay s) = ok (adjustedWriteCapacity s)
  /\ readWasUpdated s
     = py_ne (adjustedReadCapacity s) (PyInt (readCapacity s))
  /\ writeWasUpdated s
     = py_ne (adjustedWriteCapacity s) (PyInt (writeCapacity s)).

End Decision.

(** ** The two passes, read off one direction of a summary *)

(** The value the lower pass leaves: [ceil(peak * LOWER_MULTIPLE)] when
    the decrease budget allows it, the current capacity otherwise. *)
Definition after_lower_pass (cfg : Config)
    (decreaseCountToday currentCapacity : Z) (peak : pynum) : result pynum :=
  if lower_pass_fires cfg decreaseCountToday
  then lower_value cfg peak
  else ok (PyInt currentCapacity).

(** [raise_pass_outcome cfg currentCapacity peak lowered adjusted]: the
    final value [adjusted] is the clamped [ceil(peak * RAISE_MULTIPLE)]
    exactly when [peak > currentCapacity * RAISE_THRESHOLD], and the clamped
    [lowered] otherwise. *)
Definition raise_pass_outcome (cfg : Config) (currentCapacity : Z)
    (peak : pynum) (lowered : result pynum) (adjusted : pynum) : Prop :=
  exists limit,
    py_mul (PyInt currentCapacity) (PyFloat (RAISE_CAPACITY_THRESHOLD cfg))
    = ok limit
    /\ if py_gt peak limit
       then exists v, raise_value cfg peak = ok v /\ adjusted = clamp cfg v
       else exists v, lowered = ok v /\ adjusted = clamp cfg v.

(** Integer clamping. *)
Definition clampZ (cfg : Config) (z : Z) : Z :=
  Z.min (Z.max z (MINIMUM_CAPACITY cfg)) (MAXIMUM_CAPACITY cfg).

(** ** Directions

    Every unit is decided twice, once for reads and once for writes; the
    accessors below pick the fields of one direction. *)

Inductive direction : Type := Read | Write.

Definition current (d : direction) (tp : Throughput) : Z :=
  match d with
  | Read => ReadCapacityUnits tp
  | Write => WriteCapacityUnits tp
  end.

Definition peak (d : direction) (s : Summary) : pynum :=
  match d with
  | Read => peakReadThroughputLastDay s
  | Write => peakWriteThroughputLastDay s
  end.

Definition adjusted (d : direction) (s : Summary) : pynum :=
  match d with
  | Read => adjustedReadCapacity s
  | Write => adjustedWriteCapacity s
  end.

Definition wasUpdated (d : direction) (s : Summary) : bool :=
  match d with
  | Read => readWasUpdated s
  | Write => writeWasUpdated s
  end.

(** The capacity an update command carries for a direction. *)
Definition carried (d : direction) (rw : Z * Z) : Z :=
  match d with
  | Read => fst rw
  | Write => snd rw
  end.

Definition current_of (d : direction) (s : Summary) : Z :=
  match d with
  | Read => readCapacity s
  | Write => writeCapacity s
  end.

(** The sample window of a direction. *)
Definition window {A} (d : direction) (readPts writePts : A) : A :=
  match d with
  | Read => readPts
  | Write => writePts
  end.

(** ** Units and their runs *)

Definition table_dimensions (tableName : string) : list (string * string) :=
  [("TableName", tableName)].

Definition index_dimensions (tableName indexName : string)
  : list (string * string) :=
  [("TableName", tableName); ("GlobalSecondaryIndexName", indexName)].

Definition samples (cfg : Config) (aws : AWS) (metric : MetricName)
    (dimensions : list (string * string)) : list Datapoint :=
  get_metric_statistics aws (SECONDS_PER_DATA_POINT cfg) metric dimensions.

(** [unit_evaluation cfg aws tp readPts writePts s]: some unit, a table or
    one of its indexes, whose service record is [tp] and whose sample
    windows are [readPts] and [writePts], was evaluated to [s]. *)
Inductive unit_evaluation (cfg : Config) (aws : AWS)
  : Throughput -> list Datapoint -> list Datapoint -> Summary -> Prop :=
| evaluation_of_table tableName s :
    adjustTableCapacity_locals cfg aws tableName = ok s ->
    unit_evaluation cfg aws
      (provisioned_throughput (Table aws tableName))
      (samples cfg aws ConsumedReadCapacityUnits (table_dimensions tableName))
      (samples cfg aws ConsumedWriteCapacityUnits (table_dimensions tableName))
      s
| evaluation_of_index tableName secondaryIndex s :
    adjustTableIndexCapacities_locals cfg aws tableName secondaryIndex = ok s ->
    unit_evaluation cfg aws
      (ProvisionedThroughput secondaryIndex)
      (samples cfg aws ConsumedReadCapacityUnits
         (index_dimensions tableName (IndexName secondaryIndex)))
      (samples cfg aws ConsumedWriteCapacityUnits
         (index_dimensions tableName (IndexName secondaryIndex)))
      s.

(** [unit_run cfg aws float_str s evs]: processing some unit ran to its
    end, with locals [s] and events [evs]. *)
Inductive unit_run (cfg : Config) (aws : AWS) (float_str : spec_float -> string)
  : Summary -> list event -> Prop :=
| run_of_table tableName s evs :
    adjustTableCapacity_locals cfg aws tableName = ok s ->
    adjustTableCapacity cfg aws float_str tableName = (evs, ok tt) ->
    unit_run cfg aws float_str s evs
| run_of_index tableName secondaryIndex s evs :
    adjustTableIndexCapacities_locals cfg aws tableName secondaryIndex = ok s ->
    adjustTableIndexCapacities_body cfg aws float_str tableName secondaryIndex
    = (evs, ok tt) ->
    unit_run cfg aws float_str s evs.

Definition is_email (e : event) : bool :=
  match e with
  | SendEmail _ _ _ _ => true
  | _ => false
  end.

Definition emails (evs : list event) : list event := filter is_email evs.

(** The capacities an update command carries, read then write. *)
Definition update_of (e : event) : option (Z * Z) :=
  match e with
  | UpdateTable _ r w => Some (r, w)
  | UpdateIndex _ _ r w => Some (r, w)
  | _ => None
  end.

Definition is_update (e : event) : bool :=
  match update_of e with
  | Some _ => true
  | None => false
  end.

Definition updates (evs : list event) : list event := filter is_update evs.

Definition changed (s : Summary) : bool :=
  readWasUpdated s || writeWasUpdated s.

Definition notifications_configured (cfg : Config) : bool :=
  negb (EMAIL_ADDRESS_OF_SENDER cfg =? "")%string
  && negb (Nat.eqb (List.length (EMAIL_ADDRESSES_OF_RECIPIENTS cfg)) 0).

(** A configuration whose five decision constants are the source's. *)
Definition source_constants (cfg : Config) : Prop :=
  RAISE_CAPACITY_THRESHOLD cfg = lit_0_90
  /\ RAISE_CAPACITY_MULTIPLE cfg = lit_1_40
  /\ LOWER_CAPACITY_MULTIPLE cfg = lit_1_15
  /\ MINIMUM_CAPACITY cfg = 3
  /\ MAXIMUM_CAPACITY cfg = 5000.

(** ** Concrete worlds for the examples *)

Definition float_str_stub (f : spec_float) : string := "<float>".

Definition datapoints_of (sums : list Z) : list Datapoint :=
  map (fun z => {| Sum := B64.of_Z z |}) sums.

(** One table without indexes; the sums of its read and write samples are
    given as integers. *)
Definition single_table (decreases write read : Z) (readSums writeSums : list Z)
  : AWS := {|
  list_tables := ["T"];
  Table := fun _ =>
    {| provisioned_throughput :=
         {| NumberOfDecreasesToday := decreases;
            WriteCapacityUnits := write;
            ReadCapacityUnits := read |};
       global_secondary_indexes := None |};
  get_metric_statistics := fun _ metric _ =>
    datapoints_of
      match metric with
      | ConsumedReadCapacityUnits => readSums
      | ConsumedWriteCapacityUnits => writeSums
      end
|}.

(** One table with a single index ["I"]; the table and the index report
    the same record and samples. *)
Definition single_index (decreases write read : Z) (readSums writeSums : list Z)
  : AWS :=
  let tp := {| NumberOfDecreasesToday := decreases;
               WriteCapacityUnits := write;
               ReadCapacityUnits := read |} in
  {| list_tables := ["T"];
     Table := fun _ =>
       {| provisioned_throughput := tp;
          global_secondary_indexes :=
            Some [{| IndexName := "I"; ProvisionedThroughput := tp |}] |};
     get_metric_statistics := fun _ metric _ =>
       datapoints_of
         match metric with
         | ConsumedReadCapacityUnits => readSums
         | ConsumedWriteCapacityUnits => writeSums
         end |}.

Definition with_email (cfg : Config) (sender : string) (recipients : list string)
  : Config := {|
  RAISE_CAPACITY_THRESHOLD := RAISE_CAPACITY_THRESHOLD cfg;
  RAISE_CAPACITY_MULTIPLE := RAISE_CAPACITY_MULTIPLE cfg;
  LOWER_CAPACITY_MULTIPLE := LOWER_CAPACITY_MULTIPLE cfg;
  MAXIMUM_TIMES_TO_LOWER_CAPACITY_PER_DAY :=
    MAXIMUM_TIMES_TO_LOWER_CAPACITY_PER_DAY cfg;
  MINIMUM_CAPACITY := MINIMUM_CAPACITY cfg;
  MAXIMUM_CAPACITY := MAXIMUM_CAPACITY cfg;
  EMAIL_ADDRESS_OF_SENDER := sender;
  EMAIL_ADDRESSES_OF_RECIPIENTS := recipients;
  SECONDS_PER_DATA_POINT := SECONDS_PER_DATA_POINT cfg
|}.

(** ** Exact values

    A finite float [S754_finite s m e] is the rational [num / den] with
    [den] a power of two. *)

Definition float_den (e : Z) : Z := if 0 <=? e then 1 else 2 ^ (- e).

Definition float_num (s : bool) (m : positive) (e : Z) : Z :=
  cond_Zopp s (if 0 <=? e then Zpos m * 2 ^ e else Zpos m).

(** ** Binary64 values on a common scale

    Every finite double is an integer multiple of [2^-1074].  [sc f] is the
    value of [f] in that unit; the infinities sit at [2^2098] on either
    side, just beyond the largest finite double, which lets one order relate
    all non-NaN floats. *)

Definition sc (f : spec_float) : Z :=
  match f with
  | S754_zero _ => 0
  | S754_nan => 0
  | S754_infinity s => cond_Zopp s (2 ^ 2098)
  | S754_finite s m e => cond_Zopp s (Zpos m * 2 ^ (e + 1074))
  end.

(** A well-formed double: canonical mantissa and exponent, and not NaN. *)
Definition wf (f : spec_float) : Prop :=
  B64.valid f = true /\ f <> S754_nan.

(** Number of binary digits. *)
Definition bits (v : Z) : Z := Zdigits2 v.

(** [v / 2^n] rounded to the nearest integer, ties to even. *)
Definition rne (v n : Z) : Z :=
  match 2 * (v mod 2 ^ n) ?= 2 ^ n with
  | Lt => v / 2 ^ n
  | Eq => if Z.even (v / 2 ^ n) then v / 2 ^ n else v / 2 ^ n + 1
  | Gt => v / 2 ^ n + 1
  end.

(** Rounding of a non-negative real to binary64, on scaled integers: the
    argument is in units of [2^-2148] (the grain of a product of two
    doubles), the result in units of [2^-1074], with overflow mapped to the
    position of infinity. *)
Definition round_shift (v : Z) : Z := Z.max (bits v - 53) 1074.

Definition round_scaled (v : Z) : Z :=
  Z.min (rne v (round_shift v) * 2 ^ (round_shift v - 1074)) (2 ^ 2098).

(** A shift record that describes [v / 2^k] exactly: quotient, round bit
    and sticky bit. *)
Definition shr_describes (v k : Z) (mrs : shr_record) : Prop :=
  shr_m mrs = v / 2 ^ k
  /\ (shr_r mrs = true <-> 2 ^ k <= 2 * (v mod 2 ^ k))
  /\ (shr_s mrs = true <->
      if shr_r mrs then 2 ^ k < 2 * (v mod 2 ^ k) else 0 < v mod 2 ^ k).

(** The rounding of [m * 2^e] on the scale of [sc], computed at the
    exponent the format assigns to that magnitude. *)
Definition round_at (m e : Z) : Z :=
  Z.min (rne m (fexp 53 1024 (bits m + e) - e)
         * 2 ^ (fexp 53 1024 (bits m + e) + 1074))
        (2 ^ 2098).

(** Multiplication on scaled values: an infinite first operand stays
    infinite, otherwise the exact product is rounded. *)
Definition mul_scaled (a c : Z) : Z :=
  if 2 ^ 2098 <=? a then 2 ^ 2098 else round_scaled (a * c).

(** [ceil] on non-negative scaled values. *)
Definition ceil_scaled (a : Z) : Z :=
  if 2 ^ 2098 <=? a then 2 ^ 2098
  else - ((- a) / 2 ^ 1074) * 2 ^ 1074.

(** A positive finite double. *)
Definition positive_finite (f : spec_float) : Prop :=
  match f with
  | S754_finite false _ _ => True
  | _ => False
  end.

(** Python numbers on the same scale. *)
Definition nsc (x : pynum) : Z :=
  match x with
  | PyInt z => z * 2 ^ 1074
  | PyFloat f => sc f
  end.

(** Well-formed Python numbers: a well-formed double, or an integer that
    converts to a finite double. *)
Definition wfn (x : pynum) : Prop :=
  match x with
  | PyInt z => Z.abs z < 2 ^ 1024
  | PyFloat f => wf f
  end.

(** Sign and magnitude. *)
Definition nonneg (f : spec_float) : Prop :=
  match f with
  | S754_zero _ => True
  | S754_infinity s => s = false
  | S754_finite s _ _ => s = false
  | S754_nan => False
  end.



(** ** What the decision computes, on scaled values *)

(** A peak as the peak loop produces it: the initial integer zero, or a
    well-formed double that is not negative. *)
Definition peak_ok (p : pynum) : Prop :=
  match p with
  | PyInt z => z = 0
  | PyFloat f => wf f /\ nonneg f
  end.

(** Sample sums that are binary64 values: [spec_float] also holds pairs
    of mantissa and exponent that are not the representation of any
    double.  NaN is a binary64 value. *)
Definition doubles (datapoints : list Datapoint) : Prop :=
  Forall (fun p => B64.valid (Sum p) = true) datapoints.

(** A service all of whose sample windows hold binary64 values. *)
Definition service_doubles (cfg : Config) (aws : AWS) : Prop :=
  forall metric dimensions, doubles (samples cfg aws metric dimensions).

(** [ceil(peak * multiple)] on the scale, for a peak at [a]. *)
Definition pass_value (multiple : spec_float) (a : Z) : Z :=
  ceil_scaled (mul_scaled a (sc multiple)).

(** The value handed to the clamp for a peak at [a], a raise limit at [t]
    and a current capacity [cur], with the source's multipliers. *)
Definition unclamped (lower : bool) (cur t a : Z) : Z :=
  if t <? a then pass_value lit_1_40 a
  else if lower then pass_value lit_1_15 a
  else cur * 2 ^ 1074.

(** The least value the raise pass can produce for a capacity [cur]: the
    raise value of a peak sitting exactly on the limit. *)
Definition raise_floor (cur : Z) : spec_float :=
  B64.ceil (B64.mul (B64.mul (B64.of_Z cur) lit_0_90) lit_1_40).

Definition raise_covers (cur : Z) : bool :=
  cur * 2 ^ 1074 <=? sc (raise_floor cur).

Definition capacities_up_to (n : nat) : list Z := map Z.of_nat (seq 0 (S n)).

(** ** Observations on the events of an invocation *)

(** An update whose two capacities lie within the configured bounds. *)
Definition update_in_range (cfg : Config) (e : event) : Prop :=
  match update_of e with
  | Some (r, w) =>
      MINIMUM_CAPACITY cfg <= r <= MAXIMUM_CAPACITY cfg
      /\ MINIMUM_CAPACITY cfg <= w <= MAXIMUM_CAPACITY cfg
  | None => True
  end.

(** An update that addresses a table of the listing, or an index that such
    a table reports. *)
Definition targets_listed (aws : AWS) (e : event) : Prop :=
  match e with
  | UpdateTable t _ _ => In t (list_tables aws)
  | UpdateIndex t i _ _ =>
      In t (list_tables aws)
      /\ exists indexes ix,
           global_secondary_indexes (Table aws t) = Some indexes
           /\ In ix indexes /\ IndexName ix = i
  | _ => True
  end.

Definition is_print (e : event) : bool :=
  match e with
  | Print _ => true
  | _ => false
  end.

Definition prints (evs : list event) : list event := filter is_print evs.

(** The lines a table accounts for in a complete invocation: its own
    summary line, one per index, and the line that closes the index pass. *)
Definition lines_of (aws : AWS) (table : string) : nat :=
  match global_secondary_indexes (Table aws table) with
  | None => 2
  | Some indexes => 2 + List.length indexes
  end.

(** The summary line printed for a table, and for one of its indexes: the
    text of [returnString] for the locals the evaluation returns. *)
Definition table_summary_line (cfg : Config) (aws : AWS)
    (float_str : spec_float -> string) (table : string) : list event :=
  match adjustTableCapacity_locals cfg aws table with
  | inr s =>
      [Print ("Dynamo Table: " ++ table
              ++ returnString_tail cfg float_str s)%string]
  | inl _ => []
  end.

Definition index_summary_line (cfg : Config) (aws : AWS)
    (float_str : spec_float -> string) (table : string)
    (secondaryIndex : SecondaryIndex) : list event :=
  match adjustTableIndexCapacities_locals cfg aws table secondaryIndex with
  | inr s =>
      [Print ("Dynamo Table (" ++ table ++ ") Index: "
              ++ IndexName secondaryIndex
              ++ returnString_tail cfg float_str s)%string]
  | inl _ => []
  end.

(** The lines of one table, in order: its summary line, then either the
    line that reports the absence of indexes, or the summary line of every
    index followed by the closing line. *)
Definition printed_for_table (cfg : Config) (aws : AWS)
    (float_str : spec_float -> string) (table : string) : list event :=
  (table_summary_line cfg aws float_str table
   ++ match global_secondary_indexes (Table aws table) with
      | None => [Print ("No secondary indexes in table: " ++ table)%string]
      | Some indexes =>
          flat_map (index_summary_line cfg aws float_str table) indexes
          ++ [Print ("Finished Secondary Indexes on Table: " ++ table)%string]
      end)%list.

(** What the handler does for one table of the listing. *)
Definition handle_table (cfg : Config) (aws : AWS)
    (float_str : spec_float -> string) (table : string) : io unit :=
  adjustTableCapacity cfg aws float_str table ;;;
  adjustTableIndexCapacities cfg aws float_str table.

(** The sample rate of a datapoint: [datapoint["Sum"]/SECONDS_PER_DATA_POINT]
    once the bucket length is converted. *)
Definition rate (cfg : Config) (datapoint : Datapoint) : pynum :=
  PyFloat (B64.div (Sum datapoint) (B64.of_Z (SECONDS_PER_DATA_POINT cfg))).

(** The capacity below which the least value of the raise pass is known to
    lie strictly above the capacity, found by walking up from [cur]: the
    raise pass being monotone, the integer part of [raise_floor cur] is
    exceeded by the raise of every capacity from [cur] on, and the walk
    resumes there. *)
Fixpoint raise_checked (fuel : nat) (cur : Z) : Z :=
  match fuel with
  | O => cur
  | S fuel =>
      let next := sc (raise_floor cur) / 2 ^ 1074 in
      if cur <? next then raise_checked fuel next else cur
  end.

(** A configuration with another bucket length. *)
Definition with_bucket (cfg : Config) (seconds : Z) : Config := {|
  RAISE_CAPACITY_THRESHOLD := RAISE_CAPACITY_THRESHOLD cfg;
  RAISE_CAPACITY_MULTIPLE := RAISE_CAPACITY_MULTIPLE cfg;
  LOWER_CAPACITY_MULTIPLE := LOWER_CAPACITY_MULTIPLE cfg;
  MAXIMUM_TIMES_TO_LOWER_CAPACITY_PER_DAY :=
    MAXIMUM_TIMES_TO_LOWER_CAPACITY_PER_DAY cfg;
  MINIMUM_CAPACITY := MINIMUM_CAPACITY cfg;
  MAXIMUM_CAPACITY := MAXIMUM_CAPACITY cfg;
  EMAIL_ADDRESS_OF_SENDER := EMAIL_ADDRESS_OF_SENDER cfg;
  EMAIL_ADDRESSES_OF_RECIPIENTS := EMAIL_ADDRESSES_OF_RECIPIENTS cfg;
  SECONDS_PER_DATA_POINT := seconds
|}.

(** Three tables without indexes, all at 10 units: ["A"] has no samples,
    ["B"] and ["C"] have one sample per direction. *)
Definition three_tables : AWS := {|
  list_tables := ["A"; "B"; "C"];
  Table := fun _ =>
    {| provisioned_throughput :=
         {| NumberOfDecreasesToday := 0;
            WriteCapacityUnits := 10;
            ReadCapacityUnits := 10 |};
       global_secondary_indexes := None |};
  get_metric_statistics := fun _ _ dimensions =>
    match dimensions with
    | (_, table) :: _ =>
        if (table =? "A")%string then [] else datapoints_of [2700]
    | [] => []
    end
|}.

(** * Properties *)

(** ** The result monad *)

Lemma rbind_ok {A B} (c : result A) (k : A -> result B) (b : B) :
  rbind c k = ok b -> exists a, c = ok a /\ k a = ok b.
Proof.
  destruct c as [e | a]; simpl; intros H; [discriminate | eauto].
Qed.

Ltac rstep :=
  match goal with
  | H : inl _ = inr _ |- _ => discriminate H
  | H : inr _ = inr _ |- _ => injection H as H; try subst
  | H : rbind (if ?b then _ else _) _ = _ |- _ =>
      let E := fresh "Eb" in destruct b eqn:E
  | H : rbind ?c _ = _ |- _ =>
      let E := fresh "Ec" in
      destruct c eqn:E; [discriminate H | cbn [rbind] in H]
  | H : (let (_, _) := ?p in _) = _ |- _ => destruct p
  | H : (if ?b then _ else _) = inr _ |- _ =>
      let E := fresh "Eb" in destruct b eqn:E
  end.

Ltac rsteps := unfold ok, raise in *; repeat rstep.

Ltac rrewrite :=
  unfold ok, raise; cbn [rbind];
  repeat match goal with
    | E : ?c = inr _ |- context [?c] => rewrite E; cbn [rbind]
    | E : ?c = true |- context [?c] => rewrite E; cbn [rbind]
    | E : ?c = false |- context [?c] => rewrite E; cbn [rbind]
    end.

(** Concrete evaluations: the first summary of an existential statement
    is obtained by running the embedded function. *)
Ltac evaluated := vm_compute; reflexivity.

Ltac exists_evaluated :=
  match goal with
  | |- exists s : Summary, _ =>
      let x := fresh "s" in
      evar (x : Summary);
      exists x; subst x
  end.

(** ** Both evaluation functions run the decision algorithm, once per
       direction *)

Lemma table_locals_decided cfg aws tableName s :
  adjustTableCapacity_locals cfg aws tableName = ok s ->
  decided cfg (provisioned_throughput (Table aws tableName))
    (samples cfg aws ConsumedReadCapacityUnits (table_dimensions tableName))
    (samples cfg aws ConsumedWriteCapacityUnits (table_dimensions tableName))
    s.
Proof.
  unfold adjustTableCapacity_locals, samples, table_dimensions.
  cbv zeta. intros H.
  rsteps.
  all: unfold decided, decision, lower_pass_fires, raise_pass_fires,
         lower_value, raise_value, clamp, ok;
       cbn [readCapacity writeCapacity decreasesSoFarToday
            peakReadThroughputLastDay peakWriteThroughputLastDay
            readWasUpdated adjustedReadCapacity
            writeWasUpdated adjustedWriteCapacity].
  all: rrewrite.
  all: repeat split; reflexivity.
Qed.

Lemma index_locals_decided cfg aws tableName secondaryIndex s :
  adjustTableIndexCapacities_locals cfg aws tableName secondaryIndex = ok s ->
  decided cfg (ProvisionedThroughput secondaryIndex)
    (samples cfg aws ConsumedReadCapacityUnits
       (index_dimensions tableName (IndexName secondaryIndex)))
    (samples cfg aws ConsumedWriteCapacityUnits
       (index_dimensions tableName (IndexName secondaryIndex)))
    s.
Proof.
  unfold adjustTableIndexCapacities_locals, samples, index_dimensions.
  cbv zeta. intros H.
  rsteps.
  all: unfold decided, decision, lower_pass_fires, raise_pass_fires,
         lower_value, raise_value, clamp, ok;
       cbn [readCapacity writeCapacity decreasesSoFarToday
            peakReadThroughputLastDay peakWriteThroughputLastDay
            readWasUpdated adjustedReadCapacity
            writeWasUpdated adjustedWriteCapacity].
  all: rrewrite.
  all: repeat split; reflexivity.
Qed.

Lemma unit_evaluation_decided cfg aws tp readPts writePts s :
  unit_evaluation cfg aws tp readPts writePts s ->
  decided cfg tp readPts writePts s.
Proof.
  intros [tableName s' H | tableName secondaryIndex s' H].
  - now apply table_locals_decided.
  - now apply index_locals_decided.
Qed.

(** Conversely the evaluation returns as soon as the two peak loops and
    the two decisions do. *)
Lemma table_locals_returns cfg aws tableName peakRead peakWrite newRead newWrite :
  let tp := provisioned_throughput (Table aws tableName) in
  peak_loop cfg
    (samples cfg aws ConsumedReadCapacityUnits (table_dimensions tableName))
    (PyInt 0) = ok peakRead ->
  peak_loop cfg
    (samples cfg aws ConsumedWriteCapacityUnits (table_dimensions tableName))
    (PyInt 0) = ok peakWrite ->
  decision cfg (NumberOfDecreasesToday tp) (ReadCapacityUnits tp) peakRead
  = ok newRead ->
  decision cfg (NumberOfDecreasesToday tp) (WriteCapacityUnits tp) peakWrite
  = ok newWrite ->
  exists s, adjustTableCapacity_locals cfg aws tableName = ok s
            /\ adjustedReadCapacity s = newRead
            /\ adjustedWriteCapacity s = newWrite.
Proof.
  unfold adjustTableCapacity_locals, samples, table_dimensions, decision,
    lower_pass_fires, raise_pass_fires, lower_value, raise_value, clamp.
  cbv zeta. intros Hr Hw Dr Dw.
  rewrite Hr, Hw. cbn [rbind].
  rsteps.
  all: eexists; split; [rrewrite; reflexivity | split; reflexivity].
Qed.

Lemma index_locals_returns cfg aws tableName secondaryIndex
    peakRead peakWrite newRead newWrite :
  let tp := ProvisionedThroughput secondaryIndex in
  let dims := index_dimensions tableName (IndexName secondaryIndex) in
  peak_loop cfg (samples cfg aws ConsumedReadCapacityUnits dims) (PyInt 0)
  = ok peakRead ->
  peak_loop cfg (samples cfg aws ConsumedWriteCapacityUnits dims) (PyInt 0)
  = ok peakWrite ->
  decision cfg (NumberOfDecreasesToday tp) (ReadCapacityUnits tp) peakRead
  = ok newRead ->
  decision cfg (NumberOfDecreasesToday tp) (WriteCapacityUnits tp) peakWrite
  = ok newWrite ->
  exists s, adjustTableIndexCapacities_locals cfg aws tableName secondaryIndex
            = ok s
            /\ adjustedReadCapacity s = newRead
            /\ adjustedWriteCapacity s = newWrite.
Proof.
  unfold adjustTableIndexCapacities_locals, samples, index_dimensions, decision,
    lower_pass_fires, raise_pass_fires, lower_value, raise_value, clamp.
  cbv zeta. intros Hr Hw Dr Dw.
  rewrite Hr, Hw. cbn [rbind].
  rsteps.
  all: eexists; split; [rrewrite; reflexivity | split; reflexivity].
Qed.

(** ** What a completed run emits *)

Lemma unit_run_events cfg aws float_str s evs :
  unit_run cfg aws float_str s evs ->
  (exists subject body,
      emails evs
      = if notify_condition cfg s
        then [SendEmail (EMAIL_ADDRESS_OF_SENDER cfg)
                (EMAIL_ADDRESSES_OF_RECIPIENTS cfg) subject body]
        else [])
  /\ (if changed s
      then exists e r w,
          updates evs = [e] /\ update_of e = Some (r, w)
          /\ py_int (adjustedReadCapacity s) = ok r
          /\ py_int (adjustedWriteCapacity s) = ok w
      else updates evs = []).
Proof.
  intros [tableName s' evs' Hs Hrun | tableName ix s' evs' Hs Hrun].
  - unfold adjustTableCapacity in Hrun. rewrite Hs in Hrun.
    unfold sendEmailNotification, when, emit, io_lift, io_ret, io_bind, ok
      in Hrun.
    unfold changed. revert Hrun.
    destruct (readWasUpdated s' || writeWasUpdated s');
      destruct (notify_condition cfg s');
      destruct (py_int (adjustedReadCapacity s')) as [x|r];
      destruct (py_int (adjustedWriteCapacity s')) as [y|w];
      cbn [app]; intros Hrun; try discriminate Hrun;
      injection Hrun as <-; cbn [emails updates filter is_email is_update
                                  update_of];
      (split;
       [first [ now (exists "", "") | do 2 eexists; reflexivity ] | ]);
      try reflexivity;
      (do 3 eexists; repeat split; reflexivity).
  - unfold adjustTableIndexCapacities_body in Hrun. cbv zeta in Hrun.
    rewrite Hs in Hrun.
    unfold sendEmailNotification, when, emit, io_lift, io_ret, io_bind, ok
      in Hrun.
    unfold changed. revert Hrun.
    destruct (readWasUpdated s' || writeWasUpdated s');
      destruct (notify_condition cfg s');
      destruct (py_int (adjustedReadCapacity s')) as [x|r];
      destruct (py_int (adjustedWriteCapacity s')) as [y|w];
      cbn [app]; intros Hrun; try discriminate Hrun;
      injection Hrun as <-; cbn [emails updates filter is_email is_update
                                  update_of];
      (split;
       [first [ now (exists "", "") | do 2 eexists; reflexivity ] | ]);
      try reflexivity;
      (do 3 eexists; repeat split; reflexivity).
Qed.

(** ** Comparison of Python numbers *)

Lemma py_le_not_gt a b : py_le a b = true -> py_gt a b = false.
Proof.
  unfold py_le, py_gt.
  destruct (py_compare a b) as [[ | | ] | ]; intros H; try reflexivity;
    discriminate H.
Qed.

Lemma py_max_int a b : py_max (PyInt a) (PyInt b) = PyInt (Z.max a b).
Proof.
  unfold py_max, py_gt, py_compare.
  destruct (b ?= a) eqn:E.
  - apply Z.compare_eq in E. subst. now rewrite Z.max_id.
  - rewrite Z.compare_lt_iff in E. f_equal. lia.
  - rewrite Z.compare_gt_iff in E. f_equal. lia.
Qed.

Lemma py_min_int a b : py_min (PyInt a) (PyInt b) = PyInt (Z.min a b).
Proof.
  unfold py_min, py_lt, py_compare.
  destruct (b ?= a) eqn:E.
  - apply Z.compare_eq in E. subst. now rewrite Z.min_id.
  - rewrite Z.compare_lt_iff in E. f_equal. lia.
  - rewrite Z.compare_gt_iff in E. f_equal. lia.
Qed.

Lemma clamp_int cfg z : clamp cfg (PyInt z) = PyInt (clampZ cfg z).
Proof.
  unfold clamp, clampZ. now rewrite py_max_int, py_min_int.
Qed.

(** The integer-against-float comparison, as a comparison of two
    integers. *)

Lemma float_den_pos e : 0 < float_den e.
Proof.
  unfold float_den. destruct (0 <=? e) eqn:E; [lia | ].
  apply Z.leb_gt in E. apply Z.pow_pos_nonneg; lia.
Qed.

Lemma Zcompare_finite z s m e :
  B64.Zcompare z (S754_finite s m e)
  = Some (z * float_den e ?= float_num s m e).
Proof.
  unfold B64.Zcompare, float_den, float_num.
  destruct (0 <=? e); [now rewrite Z.mul_1_r | reflexivity].
Qed.

Lemma trunc_quot s m e :
  B64.trunc s m e = Z.quot (float_num s m e) (float_den e).
Proof.
  unfold B64.trunc, float_den, float_num.
  destruct (0 <=? e) eqn:E.
  - now rewrite Z.quot_1_r.
  - apply Z.leb_gt in E.
    assert (Hpow : 0 < 2 ^ (- e)) by (apply Z.pow_pos_nonneg; lia).
    destruct s; cbn [cond_Zopp].
    + rewrite Z.quot_opp_l by lia. f_equal.
      symmetry. apply Z.quot_div_nonneg; lia.
    + symmetry. apply Z.quot_div_nonneg; lia.
Qed.

Lemma quot_lower a num den :
  0 < den -> a * den <= num -> a <= Z.quot num den.
Proof.
  intros Hden H.
  destruct (Z.le_gt_cases 0 num) as [Hn | Hn].
  - rewrite Z.quot_div_nonneg by lia.
    apply Z.div_le_lower_bound; lia.
  - assert (Hq : Z.quot num den = - ((- num) / den)).
    { rewrite <- (Z.opp_involutive num) at 1.
      rewrite Z.quot_opp_l by lia.
      rewrite Z.quot_div_nonneg by lia. reflexivity. }
    rewrite Hq.
    assert ((- num) / den <= - a); [ | lia].
    assert (- num < (- a + 1) * den) by nia.
    apply Z.lt_succ_r. apply Z.div_lt_upper_bound; lia.
Qed.

Lemma quot_upper a num den :
  0 < den -> num <= a * den -> Z.quot num den <= a.
Proof.
  intros Hden H.
  assert (Hq : Z.quot num den = - Z.quot (- num) den)
    by (rewrite Z.quot_opp_l by lia; lia).
  rewrite Hq.
  assert (- a <= Z.quot (- num) den); [ | lia].
  apply quot_lower; lia.
Qed.

Ltac compare_facts :=
  repeat match goal with
    | H : (?a ?= ?b) = Eq |- _ => apply Z.compare_eq in H
    | H : (?a ?= ?b) = Lt |- _ => rewrite Z.compare_lt_iff in H
    | H : (?a ?= ?b) = Gt |- _ => rewrite Z.compare_gt_iff in H
    end.

(** Bounds read off a comparison carry over to [int(x)]. *)
Lemma py_int_lower x z lo :
  py_int x = ok z -> py_gt (PyInt lo) x = false -> lo <= z.
Proof.
  unfold py_gt, py_compare.
  destruct x as [y | [s | s | | s m e]]; cbn [py_int];
    intros Hz Hc; try discriminate Hz; injection Hz as <-.
  - destruct (lo ?= y) eqn:E; try discriminate Hc; compare_facts; lia.
  - cbn in Hc. destruct (lo ?= 0) eqn:E; try discriminate Hc;
      compare_facts; lia.
  - rewrite Zcompare_finite in Hc. rewrite trunc_quot.
    apply quot_lower; [apply float_den_pos | ].
    destruct (lo * float_den e ?= float_num s m e) eqn:E;
      try discriminate Hc; compare_facts; lia.
Qed.

Lemma py_int_upper x z hi :
  py_int x = ok z -> py_lt (PyInt hi) x = false -> z <= hi.
Proof.
  unfold py_lt, py_compare.
  destruct x as [y | [s | s | | s m e]]; cbn [py_int];
    intros Hz Hc; try discriminate Hz; injection Hz as <-.
  - destruct (hi ?= y) eqn:E; try discriminate Hc; compare_facts; lia.
  - cbn in Hc. destruct (hi ?= 0) eqn:E; try discriminate Hc;
      compare_facts; lia.
  - rewrite Zcompare_finite in Hc. rewrite trunc_quot.
    apply quot_upper; [apply float_den_pos | ].
    destruct (hi * float_den e ?= float_num s m e) eqn:E;
      try discriminate Hc; compare_facts; lia.
Qed.

(** A number equal to the integer [c] lies within any bounds it was
    compared against. *)
Lemma py_eq_int_bounds x c lo hi :
  py_ne x (PyInt c) = false ->
  py_gt (PyInt lo) x = false ->
  py_lt (PyInt hi) x = false ->
  lo <= c <= hi.
Proof.
  unfold py_ne, py_gt, py_lt, py_compare.
  destruct x as [y | [s | s | | s m e]].
  - destruct (y ?= c) eqn:E1; try discriminate;
      destruct (lo ?= y) eqn:E2; try discriminate;
      destruct (hi ?= y) eqn:E3; try discriminate;
      intros _ _ _; compare_facts; lia.
  - cbn.
    destruct (c ?= 0) eqn:E1; try discriminate;
      destruct (lo ?= 0) eqn:E2; try discriminate;
      destruct (hi ?= 0) eqn:E3; try discriminate;
      intros _ _ _; compare_facts; lia.
  - destruct s; discriminate.
  - discriminate.
  - rewrite !Zcompare_finite. cbn [option_map].
    pose proof (float_den_pos e) as Hden.
    destruct (c * float_den e ?= float_num s m e) eqn:E1; try discriminate;
      destruct (lo * float_den e ?= float_num s m e) eqn:E2;
      try discriminate;
      destruct (hi * float_den e ?= float_num s m e) eqn:E3;
      try discriminate;
      intros _ _ _; compare_facts; nia.
Qed.

Lemma clamp_cases cfg v :
  let lo := MINIMUM_CAPACITY cfg in
  let hi := MAXIMUM_CAPACITY cfg in
  clamp cfg v = PyInt hi
  \/ (clamp cfg v = PyInt lo /\ lo <= hi /\ py_gt (PyInt lo) v = true)
  \/ (clamp cfg v = v
      /\ py_gt (PyInt lo) v = false /\ py_lt (PyInt hi) v = false).
Proof.
  cbv zeta. unfold clamp, py_max, py_min.
  destruct (py_gt (PyInt (MINIMUM_CAPACITY cfg)) v) eqn:E1.
  - unfold py_lt, py_compare.
    destruct (MAXIMUM_CAPACITY cfg ?= MINIMUM_CAPACITY cfg) eqn:E2;
      compare_facts; [right; left | now left | right; left];
      repeat split; try reflexivity; lia.
  - destruct (py_lt (PyInt (MAXIMUM_CAPACITY cfg)) v) eqn:E2;
      [now left | right; right; auto].
Qed.

(** Whatever came out of the two passes, the clamped value is within the
    configured bounds. *)
Lemma clamp_range cfg v z :
  MINIMUM_CAPACITY cfg <= MAXIMUM_CAPACITY cfg ->
  py_int (clamp cfg v) = ok z ->
  MINIMUM_CAPACITY cfg <= z <= MAXIMUM_CAPACITY cfg.
Proof.
  intros Hb Hz.
  destruct (clamp_cases cfg v) as [E | [(E & _) | (E & Hlo & Hhi)]];
    rewrite E in Hz.
  - injection Hz as <-. lia.
  - injection Hz as <-. lia.
  - split; [eapply py_int_lower | eapply py_int_upper]; eassumption.
Qed.

Lemma clamp_ne_outside cfg v c :
  MINIMUM_CAPACITY cfg <= MAXIMUM_CAPACITY cfg ->
  c < MINIMUM_CAPACITY cfg \/ MAXIMUM_CAPACITY cfg < c ->
  py_ne (clamp cfg v) (PyInt c) = true.
Proof.
  intros Hb Hc.
  destruct (py_ne (clamp cfg v) (PyInt c)) eqn:Hne; [reflexivity | exfalso].
  destruct (clamp_cases cfg v) as [E | [(E & _) | (E & Hlo & Hhi)]];
    rewrite E in Hne.
  - unfold py_ne, py_compare in Hne.
    destruct (MAXIMUM_CAPACITY cfg ?= c) eqn:E1; try discriminate;
      compare_facts; lia.
  - unfold py_ne, py_compare in Hne.
    destruct (MINIMUM_CAPACITY cfg ?= c) eqn:E1; try discriminate;
      compare_facts; lia.
  - pose proof (py_eq_int_bounds _ _ _ _ Hne Hlo Hhi). lia.
Qed.

Lemma decision_outcome cfg dec cur peak adjusted :
  decision cfg dec cur peak = ok adjusted ->
  raise_pass_outcome cfg cur peak (after_lower_pass cfg dec cur peak) adjusted.
Proof.
  unfold decision, raise_pass_fires, raise_pass_outcome, after_lower_pass.
  intros H. rsteps.
  all: eexists; split; [reflexivity | ].
  all: rrewrite.
  all: eexists; split; reflexivity.
Qed.

Lemma decision_clamped cfg dec cur peak adjusted :
  decision cfg dec cur peak = ok adjusted ->
  exists v, adjusted = clamp cfg v.
Proof.
  unfold decision. intros H. rsteps; eexists; reflexivity.
Qed.

Lemma unit_evaluation_direction cfg aws tp readPts writePts s d :
  unit_evaluation cfg aws tp readPts writePts s ->
  decision cfg (NumberOfDecreasesToday tp) (current d tp) (peak d s)
  = ok (adjusted d s)
  /\ wasUpdated d s = py_ne (adjusted d s) (PyInt (current d tp)).
Proof.
  intros Hu. apply unit_evaluation_decided in Hu.
  destruct Hu as (Hr & Hw & Hd & _ & _ & Dr & Dw & Ur & Uw).
  destruct d; cbn [current peak adjusted wasUpdated];
    rewrite <- ?Hr, <- ?Hw, <- Hd; now split.
Qed.

(** ** The raise pass *)

(** C1.  For every unit, table or index, and for the read and the write
    direction alike: the raise test compares the peak with the capacity
    reported by the service times the threshold; when the test holds the
    result is the clamped [ceil(peak * RAISE_MULTIPLE)] whatever the lower
    pass computed, and when it fails the result is the clamped value the
    lower pass left. *)
Theorem raise_pass_reads_reported_capacity
    cfg aws tp readPts writePts s d :
  unit_evaluation cfg aws tp readPts writePts s ->
  raise_pass_outcome cfg (current d tp) (peak d s)
    (after_lower_pass cfg (NumberOfDecreasesToday tp) (current d tp)
       (peak d s))
    (adjusted d s).
Proof.
  intros Hu.
  apply decision_outcome.
  now apply (unit_evaluation_direction cfg aws tp readPts writePts s d).
Qed.

(** ** The no-op path *)

(** C2.  With the decrease budget used up and the peak not above the
    raise limit, the new capacity is the current one clamped to
    [MINIMUM_CAPACITY, MAXIMUM_CAPACITY]; for tables and indexes, read and
    write. *)
Theorem no_op_path cfg aws tp readPts writePts s d limit :
  unit_evaluation cfg aws tp readPts writePts s ->
  MAXIMUM_TIMES_TO_LOWER_CAPACITY_PER_DAY cfg <= NumberOfDecreasesToday tp ->
  py_mul (PyInt (current d tp)) (PyFloat (RAISE_CAPACITY_THRESHOLD cfg))
  = ok limit ->
  py_le (peak d s) limit = true ->
  adjusted d s = PyInt (clampZ cfg (current d tp)).
Proof.
  intros Hu Hdec Hlimit Hle.
  destruct (unit_evaluation_direction _ _ _ _ _ _ d Hu) as [D _].
  apply decision_outcome in D.
  assert (Hlow : lower_pass_fires cfg (NumberOfDecreasesToday tp) = false)
    by (unfold lower_pass_fires; apply Z.ltb_ge; assumption).
  unfold raise_pass_outcome, after_lower_pass in D.
  rewrite Hlow in D.
  destruct D as (limit' & Hl' & Hout).
  rewrite Hlimit in Hl'. injection Hl' as <-.
  rewrite (py_le_not_gt _ _ Hle) in Hout.
  destruct Hout as (v & Hv & ->).
  injection Hv as <-. apply clamp_int.
Qed.

Lemma no_op_path_witness :
  let aws := single_table 1 10 10 [2700] [2700] in
  exists s limit,
    adjustTableCapacity_locals source_config aws "T" = ok s
    /\ py_mul (PyInt 10) (PyFloat lit_0_90) = ok limit
    /\ py_le (peak Read s) limit = true
    /\ adjusted Read s = PyInt 10.
Proof.
  cbv zeta. exists_evaluated. exists (PyFloat (B64.of_Z 9)).
  split; [evaluated | ].
  split; [evaluated | ].
  split; [evaluated | ].
  refine (no_op_path source_config (single_table 1 10 10 [2700] [2700])
            _ _ _ _ Read (PyFloat (B64.of_Z 9))
            (evaluation_of_table _ _ "T" _ _) _ _ _).
  - evaluated.
  - cbn. lia.
  - evaluated.
  - evaluated.
Defined.

Lemma raise_pass_reads_reported_capacity_witness :
  let tp := {| NumberOfDecreasesToday := 0;
               WriteCapacityUnits := 10;
               ReadCapacityUnits := 10 |} in
  let ix := {| IndexName := "I"; ProvisionedThroughput := tp |} in
  let aws := single_index 0 10 10 [2850] [2700] in
  exists s1 s2,
    adjustTableCapacity_locals source_config aws "T" = ok s1
    /\ adjustTableIndexCapacities_locals source_config aws "T" ix = ok s2
    /\ after_lower_pass source_config 0 10 (peak Read s1)
       = ok (PyFloat (B64.of_Z 11))
    /\ decision_on_lowered source_config 0 10 (peak Read s1)
       = ok (PyFloat (B64.of_Z 11))
    /\ adjusted Read s1 = PyFloat (B64.of_Z 14)
    /\ adjusted Read s2 = PyFloat (B64.of_Z 14)
    /\ adjusted Write s1 = PyFloat (B64.of_Z 11)
    /\ adjusted Write s2 = PyFloat (B64.of_Z 11)
    /\ raise_pass_outcome source_config 10 (peak Read s1)
         (after_lower_pass source_config 0 10 (peak Read s1))
         (adjusted Read s1)
    /\ raise_pass_outcome source_config 10 (peak Read s2)
         (after_lower_pass source_config 0 10 (peak Read s2))
         (adjusted Read s2)
    /\ raise_pass_outcome source_config 10 (peak Write s1)
         (after_lower_pass source_config 0 10 (peak Write s1))
         (adjusted Write s1)
    /\ raise_pass_outcome source_config 10 (peak Write s2)
         (after_lower_pass source_config 0 10 (peak Write s2))
         (adjusted Write s2).
Proof.
  cbv zeta. exists_evaluated. exists_evaluated.
  split; [evaluated | ].
  split; [evaluated | ].
  split; [evaluated | ].
  split; [evaluated | ].
  split; [evaluated | ].
  split; [evaluated | ].
  split; [evaluated | ].
  split; [evaluated | ].
  split; [ | split; [ | split]].
  - refine (raise_pass_reads_reported_capacity source_config
              (single_index 0 10 10 [2850] [2700]) _ _ _ _ Read
              (evaluation_of_table _ _ "T" _ _)).
    evaluated.
  - refine (raise_pass_reads_reported_capacity source_config
              (single_index 0 10 10 [2850] [2700]) _ _ _ _ Read
              (evaluation_of_index _ _ "T"
                 {| IndexName := "I";
                    ProvisionedThroughput :=
                      {| NumberOfDecreasesToday := 0;
                         WriteCapacityUnits := 10;
                         ReadCapacityUnits := 10 |} |} _ _)).
    evaluated.
  - refine (raise_pass_reads_reported_capacity source_config
              (single_index 0 10 10 [2850] [2700]) _ _ _ _ Write
              (evaluation_of_table _ _ "T" _ _)).
    evaluated.
  - refine (raise_pass_reads_reported_capacity source_config
              (single_index 0 10 10 [2850] [2700]) _ _ _ _ Write
              (evaluation_of_index _ _ "T"
                 {| IndexName := "I";
                    ProvisionedThroughput :=
                      {| NumberOfDecreasesToday := 0;
                         WriteCapacityUnits := 10;
                         ReadCapacityUnits := 10 |} |} _ _)).
    evaluated.
Defined.

(** ** Order facts on mixed comparisons *)

Lemma py_gt_int_swap v b : py_gt v (PyInt b) = true -> py_lt (PyInt b) v = true.
Proof.
  unfold py_gt, py_lt, py_compare.
  destruct v as [z | f].
  - rewrite (Z.compare_antisym z b).
    destruct (z ?= b); cbn; congruence.
  - destruct (B64.Zcompare b f) as [[ | | ] | ]; cbn; congruence.
Qed.

Lemma py_int_between a b v :
  py_gt (PyInt a) v = true -> py_gt v (PyInt b) = true -> b < a.
Proof.
  unfold py_gt, py_compare.
  destruct v as [z | [s | s | | s m e]].
  - destruct (a ?= z) eqn:E1; try discriminate;
      destruct (z ?= b) eqn:E2; try discriminate.
    intros _ _. compare_facts. lia.
  - cbn.
    destruct (a ?= 0) eqn:E1; try discriminate;
      destruct (b ?= 0) eqn:E2; try discriminate.
    intros _ _. compare_facts. lia.
  - destruct s; cbn; discriminate.
  - discriminate.
  - rewrite !Zcompare_finite. cbn [option_map].
    pose proof (float_den_pos e) as Hden.
    destruct (a * float_den e ?= float_num s m e) eqn:E1; try discriminate;
      destruct (b * float_den e ?= float_num s m e) eqn:E2;
      try discriminate.
    intros _ _. compare_facts. nia.
Qed.

Lemma clamp_above cfg v :
  py_gt v (PyInt (MAXIMUM_CAPACITY cfg)) = true ->
  clamp cfg v = PyInt (MAXIMUM_CAPACITY cfg).
Proof.
  intros Hgt.
  destruct (clamp_cases cfg v) as [E | [(E & Hb & Hlo) | (E & Hlo & Hhi)]].
  - exact E.
  - pose proof (py_int_between _ _ _ Hlo Hgt). lia.
  - apply py_gt_int_swap in Hgt. congruence.
Qed.

(** ** The ceiling *)

(** C4, as the code has it.  When the raise pass fires and
    [ceil(peak * RAISE_MULTIPLE)] exceeds [MAXIMUM_CAPACITY], the new
    capacity is [MAXIMUM_CAPACITY]. *)
Theorem ceiling_when_raise_fires cfg aws tp readPts writePts s d limit v :
  unit_evaluation cfg aws tp readPts writePts s ->
  py_mul (PyInt (current d tp)) (PyFloat (RAISE_CAPACITY_THRESHOLD cfg))
  = ok limit ->
  py_gt (peak d s) limit = true ->
  raise_value cfg (peak d s) = ok v ->
  py_gt v (PyInt (MAXIMUM_CAPACITY cfg)) = true ->
  adjusted d s = PyInt (MAXIMUM_CAPACITY cfg).
Proof.
  intros Hu Hlimit Hfires Hv Hgt.
  destruct (unit_evaluation_direction _ _ _ _ _ _ d Hu) as [D _].
  apply decision_outcome in D.
  destruct D as (limit' & Hl' & Hout).
  rewrite Hlimit in Hl'. injection Hl' as <-.
  rewrite Hfires in Hout.
  destruct Hout as (v' & Hv' & ->).
  rewrite Hv in Hv'. injection Hv' as <-.
  now apply clamp_above.
Qed.

Lemma ceiling_when_raise_fires_witness :
  let aws := single_table 0 3900 3900 [1080000] [1080000] in
  exists s limit v,
    adjustTableCapacity_locals source_config aws "T" = ok s
    /\ py_mul (PyInt 3900) (PyFloat lit_0_90) = ok limit
    /\ py_gt (peak Read s) limit = true
    /\ raise_value source_config (peak Read s) = ok v
    /\ py_gt v (PyInt 5000) = true
    /\ adjusted Read s = PyInt 5000.
Proof.
  cbv zeta. exists_evaluated.
  exists (PyFloat (B64.mul (B64.of_Z 3900) lit_0_90)),
    (PyFloat (B64.of_Z 5040)).
  split; [evaluated | ].
  split; [evaluated | ].
  split; [evaluated | ].
  split; [evaluated | ].
  split; [evaluated | ].
  refine (ceiling_when_raise_fires source_config
            (single_table 0 3900 3900 [1080000] [1080000]) _ _ _ _ Read
            (PyFloat (B64.mul (B64.of_Z 3900) lit_0_90))
            (PyFloat (B64.of_Z 5040))
            (evaluation_of_table _ _ "T" _ _) _ _ _ _);
    evaluated.
Defined.

(** C4, as the specification words it, fails: a table at 5000 units with
    a peak of 3600 and an unused decrease budget has
    [ceil(3600 * 1.40) = 5040 > 5000], yet the raise pass does not fire
    ([3600 > 4500] is false) and the lower pass leaves
    [ceil(3600 * 1.15) = 4140]. *)
Lemma ceiling_missed_when_raise_does_not_fire :
  let aws := single_table 0 5000 5000 [1080000] [1080000] in
  exists s v,
    unit_evaluation source_config aws
      (provisioned_throughput (Table aws "T"))
      (samples source_config aws ConsumedReadCapacityUnits
         (table_dimensions "T"))
      (samples source_config aws ConsumedWriteCapacityUnits
         (table_dimensions "T")) s
    /\ peak Read s = PyFloat (B64.of_Z 3600)
    /\ raise_value source_config (peak Read s) = ok v
    /\ py_gt v (PyInt (MAXIMUM_CAPACITY source_config)) = true
    /\ py_int (adjusted Read s) = ok 4140
    /\ py_int (adjusted Read s) <> ok (MAXIMUM_CAPACITY source_config).
Proof.
  cbv zeta. exists_evaluated. exists (PyFloat (B64.of_Z 5040)).
  split; [apply (evaluation_of_table _ _ "T"); evaluated | ].
  split; [evaluated | ].
  split; [evaluated | ].
  split; [evaluated | ].
  split; [evaluated | ].
  vm_compute. discriminate.
Qed.

(** ** The scenario of the specification *)

(** C5.  Source constants, capacity 10, no decrease yet, one sample of
    2700 units over 300 seconds, that is a peak of 9: the lower pass gives
    [ceil(9 * 1.15) = 11]; the raise limit [10 * 0.90] is exactly 9, so the
    strict test [9 > 9] fails; the result is 11 and the direction is
    flagged as updated.  The table and the index evaluation agree. *)
Theorem scenario_peak_at_ninety_percent :
  let aws := single_index 0 10 10 [2700] [2700] in
  let ix := {| IndexName := "I";
               ProvisionedThroughput :=
                 provisioned_throughput (Table aws "T") |} in
  exists s,
    adjustTableCapacity_locals source_config aws "T" = ok s
    /\ adjustTableIndexCapacities_locals source_config aws "T" ix = ok s
    /\ forall d,
        peak d s = PyFloat (B64.of_Z 9)
        /\ after_lower_pass source_config 0 10 (peak d s)
           = ok (PyFloat (B64.of_Z 11))
        /\ py_mul (PyInt 10) (PyFloat lit_0_90) = ok (PyFloat (B64.of_Z 9))
        /\ py_compare (peak d s) (PyFloat (B64.of_Z 9)) = Some Eq
        /\ py_gt (peak d s) (PyFloat (B64.of_Z 9)) = false
        /\ adjusted d s = PyFloat (B64.of_Z 11)
        /\ py_int (adjusted d s) = ok 11
        /\ wasUpdated d s = true.
Proof.
  cbv zeta. eexists.
  split; [vm_compute; reflexivity | ].
  split; [vm_compute; reflexivity | ].
  intros []; vm_compute; repeat split; reflexivity.
Qed.

(** ** Notifications *)

Lemma notify_condition_eq cfg s :
  notify_condition cfg s = changed s && notifications_configured cfg.
Proof.
  unfold notify_condition, changed, notifications_configured.
  destruct (readWasUpdated s || writeWasUpdated s); cbn [andb];
    [ | reflexivity].
  destruct (EMAIL_ADDRESSES_OF_RECIPIENTS cfg) as [ | r rs];
    cbn [List.length Nat.eqb negb andb].
  - cbn. now rewrite andb_false_r.
  - replace (0 <? Z.of_nat (S (List.length rs))) with true
      by (symmetry; apply Z.ltb_lt; lia).
    now rewrite andb_true_r.
Qed.



(** ** Capacities outside the configured range *)

Lemma unit_run_direction cfg aws float_str s evs d :
  unit_run cfg aws float_str s evs ->
  decision cfg (decreasesSoFarToday s) (current_of d s) (peak d s)
  = ok (adjusted d s)
  /\ wasUpdated d s = py_ne (adjusted d s) (PyInt (current_of d s)).
Proof.
  intros [tableName s' evs' Hs _ | tableName ix s' evs' Hs _];
    [apply table_locals_decided in Hs | apply index_locals_decided in Hs];
    destruct Hs as (_ & _ & _ & _ & _ & Dr & Dw & Ur & Uw);
    destruct d; cbn [current_of peak adjusted wasUpdated]; now split.
Qed.

Lemma unit_run_carried cfg aws float_str s evs d :
  unit_run cfg aws float_str s evs ->
  wasUpdated d s = true ->
  exists e rw,
    updates evs = [e] /\ update_of e = Some rw
    /\ py_int (adjusted d s) = ok (carried d rw).
Proof.
  intros Hrun Hup.
  destruct (unit_run_events _ _ _ _ _ Hrun) as [_ Hu].
  assert (Hch : changed s = true).
  { unfold changed. destruct d; cbn [wasUpdated] in Hup; rewrite Hup;
      [reflexivity | apply orb_true_r]. }
  rewrite Hch in Hu.
  destruct Hu as (e & r & w & He & Hrw & Hr & Hw).
  exists e, (r, w). repeat split; try assumption.
  destruct d; assumption.
Qed.

(** C9.  A direction whose current capacity lies outside
    [MINIMUM_CAPACITY, MAXIMUM_CAPACITY] is always flagged as updated, and
    the run sends one update whose value for that direction is within the
    range, whichever passes fired and whatever the decrease count. *)
Theorem out_of_range_capacity_is_clamped cfg aws float_str s evs d :
  unit_run cfg aws float_str s evs ->
  MINIMUM_CAPACITY cfg <= MAXIMUM_CAPACITY cfg ->
  current_of d s < MINIMUM_CAPACITY cfg
  \/ MAXIMUM_CAPACITY cfg < current_of d s ->
  wasUpdated d s = true
  /\ exists e rw,
      updates evs = [e] /\ update_of e = Some rw
      /\ MINIMUM_CAPACITY cfg <= carried d rw <= MAXIMUM_CAPACITY cfg.
Proof.
  intros Hrun Hb Hout.
  destruct (unit_run_direction _ _ _ _ _ d Hrun) as [D U].
  apply decision_clamped in D. destruct D as [v Hv].
  assert (Hup : wasUpdated d s = true)
    by (rewrite U, Hv; now apply clamp_ne_outside).
  split; [exact Hup | ].
  destruct (unit_run_carried _ _ _ _ _ d Hrun Hup) as (e & rw & He & Hrw & Hi).
  exists e, rw. repeat split; try assumption;
    rewrite Hv in Hi; now apply (clamp_range cfg v).
Qed.

Lemma out_of_range_capacity_is_clamped_witness :
  let aws := single_table 1 6000 10 [] [] in
  exists s evs,
    unit_run source_config aws float_str_stub s evs
    /\ decreasesSoFarToday s = 1
    /\ current_of Write s = 6000
    /\ updates evs = [UpdateTable "T" 10 5000]
    /\ wasUpdated Write s = true
    /\ exists e rw,
        updates evs = [e] /\ update_of e = Some rw
        /\ 3 <= carried Write rw <= 5000.
Proof.
  cbv zeta. exists_evaluated. eexists.
  assert (U : forall A B : Prop, A -> (A -> B) -> A /\ B) by tauto.
  apply U; clear U.
  - apply (run_of_table _ _ _ "T"); evaluated.
  - intros Hrun.
    split; [evaluated | ].
    split; [evaluated | ].
    split; [evaluated | ].
    refine (out_of_range_capacity_is_clamped source_config _ _ _ _ Write
              Hrun _ _).
    + cbn. lia.
    + right. cbn. lia.
Defined.

(** ** Read and write do not interfere *)

Lemma unit_evaluation_peak cfg aws tp readPts writePts s d :
  unit_evaluation cfg aws tp readPts writePts s ->
  peak_loop cfg (window d readPts writePts) (PyInt 0) = ok (peak d s).
Proof.
  intros Hu. apply unit_evaluation_decided in Hu.
  destruct Hu as (_ & _ & _ & Pr & Pw & _).
  destruct d; assumption.
Qed.

(** C10.  Two evaluations that agree on the decrease count and, for one
    direction, on the current capacity and the sample window, compute the
    same new capacity and the same update flag for that direction, whatever
    the other direction holds. *)
Theorem directions_do_not_interfere
    cfg aws1 aws2 tp1 tp2 readPts1 writePts1 readPts2 writePts2 s1 s2 d :
  unit_evaluation cfg aws1 tp1 readPts1 writePts1 s1 ->
  unit_evaluation cfg aws2 tp2 readPts2 writePts2 s2 ->
  NumberOfDecreasesToday tp1 = NumberOfDecreasesToday tp2 ->
  current d tp1 = current d tp2 ->
  window d readPts1 writePts1 = window d readPts2 writePts2 ->
  peak d s1 = peak d s2
  /\ adjusted d s1 = adjusted d s2
  /\ wasUpdated d s1 = wasUpdated d s2.
Proof.
  intros H1 H2 Hdec Hcur Hwin.
  pose proof (unit_evaluation_peak _ _ _ _ _ _ d H1) as P1.
  pose proof (unit_evaluation_peak _ _ _ _ _ _ d H2) as P2.
  destruct (unit_evaluation_direction _ _ _ _ _ _ d H1) as [D1 U1].
  destruct (unit_evaluation_direction _ _ _ _ _ _ d H2) as [D2 U2].
  rewrite Hwin, P2 in P1. injection P1 as P.
  rewrite Hdec, Hcur, <- P, D2 in D1. injection D1 as A.
  rewrite U1, U2, Hcur, A. auto.
Qed.

Lemma directions_do_not_interfere_witness :
  let aws1 := single_table 0 10 10 [2700] [2700] in
  let aws2 := single_table 0 77 10 [2700] [5; 600000] in
  exists s1 s2,
    adjustTableCapacity_locals source_config aws1 "T" = ok s1
    /\ adjustTableCapacity_locals source_config aws2 "T" = ok s2
    /\ adjusted Write s1 <> adjusted Write s2
    /\ adjusted Read s1 = adjusted Read s2
    /\ wasUpdated Read s1 = wasUpdated Read s2.
Proof.
  cbv zeta. exists_evaluated. exists_evaluated.
  split; [evaluated | ].
  split; [evaluated | ].
  split; [vm_compute; discriminate | ].
  refine (proj2 (directions_do_not_interfere source_config
                   (single_table 0 10 10 [2700] [2700])
                   (single_table 0 77 10 [2700] [5; 600000])
                   _ _ _ _ _ _ _ _ Read
                   (evaluation_of_table _ _ "T" _ _)
                   (evaluation_of_table _ _ "T" _ _) _ _ _));
    evaluated.
Defined.

(** ** The floor and the decrease budget: what fails as written *)

(** C3, as the specification words it, fails: with the decrease budget
    used up and no sample at all, [ceil(0 * 1.15) = 0] is below the
    minimum of 3, yet neither pass fires and a capacity of 10 stays 10. *)
Lemma floor_missed_when_budget_spent :
  let aws := single_table 1 10 10 [] [] in
  exists s v,
    unit_evaluation source_config aws
      (provisioned_throughput (Table aws "T"))
      (samples source_config aws ConsumedReadCapacityUnits
         (table_dimensions "T"))
      (samples source_config aws ConsumedWriteCapacityUnits
         (table_dimensions "T")) s
    /\ peak Read s = PyInt 0
    /\ lower_value source_config (peak Read s) = ok v
    /\ py_lt v (PyInt (MINIMUM_CAPACITY source_config)) = true
    /\ py_int (adjusted Read s) = ok 10
    /\ py_int (adjusted Read s) <> ok (MINIMUM_CAPACITY source_config).
Proof.
  cbv zeta. exists_evaluated. exists (PyFloat (S754_zero false)).
  split; [apply (evaluation_of_table _ _ "T"); evaluated | ].
  split; [evaluated | ].
  split; [evaluated | ].
  split; [evaluated | ].
  split; [evaluated | ].
  vm_compute. discriminate.
Qed.

(** C6.  The code lowers a capacity with the decrease budget spent: a
    table whose write capacity of 6000 exceeds the maximum of 5000, and
    whose one daily decrease is already used, is sent an update that lowers
    the write capacity to 5000.  The guard of line 84 keeps the lower pass
    from running, but the clamp of lines 95 and 97 lowers all the same,
    against the limit the comment of line 20 states. *)
Lemma lowered_by_clamp_when_budget_spent :
  let aws := single_table 1 6000 10 [] [] in
  exists s evs,
    unit_run source_config aws float_str_stub s evs
    /\ MAXIMUM_TIMES_TO_LOWER_CAPACITY_PER_DAY source_config
       <= decreasesSoFarToday s
    /\ current_of Write s = 6000
    /\ updates evs = [UpdateTable "T" 10 5000]
    /\ carried Write (10, 5000) < current_of Write s.
Proof.
  cbv zeta. exists_evaluated. eexists.
  split; [apply (run_of_table _ _ _ "T"); evaluated | ].
  split; [vm_compute; discriminate | ].
  split; [evaluated | ].
  split; [evaluated | ].
  vm_compute. reflexivity.
Qed.

(** * Binary64 rounding *)

Lemma digits2_size m : digits2_pos m = Pos.size m.
Proof. induction m; cbn; congruence. Qed.

Lemma bits_log2 v : 0 < v -> bits v = Z.log2 v + 1.
Proof.
  destruct v as [ | p | p]; try lia. intros _.
  unfold bits, Zdigits2. rewrite digits2_size.
  destruct p; cbn; lia.
Qed.

Lemma bits_spec v : 0 < v -> 2 ^ (bits v - 1) <= v < 2 ^ bits v.
Proof.
  intros Hv. rewrite bits_log2 by assumption.
  replace (Z.log2 v + 1 - 1) with (Z.log2 v) by lia.
  replace (Z.log2 v + 1) with (Z.succ (Z.log2 v)) by lia.
  now apply Z.log2_spec.
Qed.

Lemma bits_unique v k : 0 < v -> 2 ^ (k - 1) <= v < 2 ^ k -> bits v = k.
Proof.
  intros Hv Hk. rewrite bits_log2 by assumption.
  assert (0 <= k - 1).
  { destruct (Z.le_gt_cases 0 (k - 1)) as [ | Hneg]; [assumption | ].
    assert (k <= 0) by lia.
    destruct (Z.eq_dec k 0) as [-> | ]; [cbn in Hk; lia | ].
    rewrite (Z.pow_neg_r 2 k) in Hk by lia. lia. }
  assert (Z.log2 v = k - 1); [ | lia].
  apply Z.log2_unique; [assumption | ].
  now replace (Z.succ (k - 1)) with k by lia.
Qed.

Lemma bits_pos v : 0 < v -> 0 < bits v.
Proof.
  intros Hv. rewrite bits_log2 by assumption.
  pose proof (Z.log2_nonneg v). lia.
Qed.

Lemma bits_0 : bits 0 = 0.
Proof. reflexivity. Qed.

Lemma bits_mono a b : 0 <= a <= b -> bits a <= bits b.
Proof.
  intros [Ha Hab].
  destruct (Z.eq_dec a 0) as [-> | Hna].
  - destruct (Z.eq_dec b 0) as [-> | Hnb]; [lia | ].
    pose proof (bits_pos b). rewrite bits_0. lia.
  - rewrite !bits_log2 by lia.
    pose proof (Z.log2_le_mono a b Hab). lia.
Qed.

Lemma bits_shift v k : 0 < v -> 0 <= k -> bits (v * 2 ^ k) = bits v + k.
Proof.
  intros Hv Hk.
  assert (0 < 2 ^ k) by (apply Z.pow_pos_nonneg; lia).
  rewrite !bits_log2 by nia.
  rewrite Z.log2_mul_pow2 by lia. lia.
Qed.

(** *** Shifting right with a round and a sticky bit *)

Lemma iter_pos_nat {A} (f : A -> A) p x :
  iter_pos f p x = Nat.iter (Pos.to_nat p) f x.
Proof.
  revert x. induction p as [p IH | p IH | ]; intros x; cbn [iter_pos].
  - rewrite !IH, Pos2Nat.inj_xI.
    replace (S (2 * Pos.to_nat p))%nat
      with (Pos.to_nat p + S (Pos.to_nat p))%nat by lia.
    rewrite Nat.iter_add, Nat.iter_succ_r. reflexivity.
  - rewrite !IH, Pos2Nat.inj_xO.
    replace (2 * Pos.to_nat p)%nat
      with (Pos.to_nat p + Pos.to_nat p)%nat by lia.
    now rewrite Nat.iter_add.
  - reflexivity.
Qed.

Lemma shr_describes_start v : 0 <= v ->
  shr_describes v 0 {| shr_m := v; shr_r := false; shr_s := false |}.
Proof.
  intros Hv. unfold shr_describes. cbn [shr_m shr_r shr_s].
  change (2 ^ 0) with 1. rewrite Z.div_1_r, Z.mod_1_r.
  repeat split; intros; try discriminate; lia.
Qed.

Lemma shr_1_describes v k mrs :
  0 <= v -> 0 <= k ->
  shr_describes v k mrs -> shr_describes v (k + 1) (shr_1 mrs).
Proof.
  intros Hv Hk. destruct mrs as [m r s].
  unfold shr_describes. cbn [shr_m shr_r shr_s].
  assert (HP : 0 < 2 ^ k) by (apply Z.pow_pos_nonneg; lia).
  rewrite Z.pow_add_r by lia. change (2 ^ 1) with 2.
  rewrite <- Z.div_div by lia.
  rewrite Z.rem_mul_r by lia.
  pose proof (Z.mod_pos_bound v (2 ^ k) HP) as Hrem.
  pose proof (Z.div_pos v (2 ^ k) Hv HP) as Hq.
  set (P := 2 ^ k) in *. set (q := v / P) in *. set (rem := v mod P) in *.
  intros (Hm & Hr & Hs). subst m.
  assert (Hsticky : r || s = true <-> 0 < rem).
  { destruct r, s; cbv beta iota in Hs; cbn [orb]; split; intros H;
      try reflexivity; try discriminate.
    - assert (P <= 2 * rem) by (now apply Hr). lia.
    - assert (P <= 2 * rem) by (now apply Hr). lia.
    - now apply Hs.
    - now apply Hs. }
  assert (Hcase : forall b : Z, (b = 0 \/ b = 1) ->
            forall m', 
            shr_m {| shr_m := m'; shr_r := (b =? 1); shr_s := r || s |} = m'
            /\ ((b =? 1) = true <-> P * 2 <= 2 * (rem + P * b))
            /\ (r || s = true <->
                if b =? 1 then P * 2 < 2 * (rem + P * b)
                else 0 < rem + P * b)).
  { intros b [-> | ->] m'; cbn [Z.eqb Pos.eqb shr_m];
      rewrite ?Z.mul_0_r, ?Z.mul_1_r, ?Z.add_0_r;
      (split; [reflexivity | split]); split; intros H;
      try reflexivity; try discriminate; try lia;
      try (apply Hsticky; lia); try (apply Hsticky in H; lia). }
  destruct q as [ | p | p] eqn:Eq; [ | | lia].
  - cbn [shr_1]. change (0 / 2) with 0. change (0 mod 2) with 0.
    exact (Hcase 0 (or_introl eq_refl) 0).
  - destruct p as [p' | p' | ]; cbn [shr_1].
    + assert (Zpos p'~1 / 2 = Zpos p' /\ Zpos p'~1 mod 2 = 1) as [-> ->].
      { rewrite Pos2Z.inj_xI. split.
        - symmetry. apply (Z.div_unique _ 2 _ 1); lia.
        - symmetry. apply (Z.mod_unique _ 2 (Zpos p') 1); lia. }
      exact (Hcase 1 (or_intror eq_refl) (Zpos p')).
    + assert (Zpos p'~0 / 2 = Zpos p' /\ Zpos p'~0 mod 2 = 0) as [-> ->].
      { rewrite Pos2Z.inj_xO. split.
        - symmetry. apply (Z.div_unique _ 2 _ 0); lia.
        - symmetry. apply (Z.mod_unique _ 2 (Zpos p') 0); lia. }
      exact (Hcase 0 (or_introl eq_refl) (Zpos p')).
    + change (1 / 2) with 0. change (1 mod 2) with 1.
      exact (Hcase 1 (or_intror eq_refl) 0).
Qed.

Lemma shr_iter_describes v k n mrs :
  0 <= v -> 0 <= k ->
  shr_describes v k mrs ->
  shr_describes v (k + Z.of_nat n) (Nat.iter n shr_1 mrs).
Proof.
  intros Hv Hk H. induction n as [ | n IH].
  - cbn [Nat.iter Z.of_nat]. now rewrite Z.add_0_r.
  - cbn [Nat.iter]. rewrite Nat2Z.inj_succ.
    replace (k + Z.succ (Z.of_nat n)) with (k + Z.of_nat n + 1) by lia.
    apply shr_1_describes; [assumption | lia | assumption].
Qed.

Lemma shr_describes_shr v e n :
  0 <= v -> 0 <= n ->
  shr_describes v n
    (fst (shr {| shr_m := v; shr_r := false; shr_s := false |} e n))
  /\ snd (shr {| shr_m := v; shr_r := false; shr_s := false |} e n) = e + n.
Proof.
  intros Hv Hn. destruct n as [ | p | p]; [ | | lia]; cbn [shr fst snd].
  - split; [now apply shr_describes_start | lia].
  - split; [ | reflexivity].
    rewrite iter_pos_nat.
    replace (Zpos p) with (0 + Z.of_nat (Pos.to_nat p))
      by (rewrite positive_nat_Z; lia).
    apply shr_iter_describes; [assumption | lia | ].
    now apply shr_describes_start.
Qed.

(** *** Rounding to nearest, ties to even *)

Lemma round_nearest_even_rne v k mrs :
  0 <= k ->
  shr_describes v k mrs ->
  round_nearest_even (shr_m mrs) (loc_of_shr_record mrs) = rne v k.
Proof.
  intros Hk. destruct mrs as [m r s].
  unfold shr_describes, rne. cbn [shr_m shr_r shr_s].
  intros (-> & Hr & Hs).
  assert (HP : 0 < 2 ^ k) by (apply Z.pow_pos_nonneg; lia).
  pose proof (Z.mod_pos_bound v (2 ^ k) HP) as Hrem.
  destruct (2 * (v mod 2 ^ k) ?= 2 ^ k) eqn:E; compare_facts;
    destruct r, s; cbv beta iota in Hs; cbn [loc_of_shr_record round_nearest_even];
    try reflexivity; exfalso.
  all: try (assert (2 ^ k <= 2 * (v mod 2 ^ k)) by (now apply Hr); lia).
  all: try (assert (2 ^ k < 2 * (v mod 2 ^ k)) by (now apply Hs); lia).
  all: try (assert (0 < v mod 2 ^ k) by (now apply Hs); lia).
  all: try (assert (true = true) as _ by reflexivity;
            assert (Hc : false = true) by (apply Hr; lia); discriminate Hc).
  all: try (assert (Hc : false = true) by (apply Hs; lia); discriminate Hc).
Qed.

Lemma rne_bounds v n : 0 <= n -> v / 2 ^ n <= rne v n <= v / 2 ^ n + 1.
Proof.
  intros Hn. unfold rne.
  destruct (2 * (v mod 2 ^ n) ?= 2 ^ n); [ | lia | lia].
  destruct (Z.even (v / 2 ^ n)); lia.
Qed.

Lemma rne_exact k n : 0 <= n -> rne (k * 2 ^ n) n = k.
Proof.
  intros Hn. unfold rne.
  assert (HP : 0 < 2 ^ n) by (apply Z.pow_pos_nonneg; lia).
  rewrite Z.div_mul, Z.mod_mul by lia.
  rewrite Z.mul_0_r.
  destruct (0 ?= 2 ^ n) eqn:E; compare_facts; try lia; reflexivity.
Qed.

Lemma rne_scale v n k : 0 <= n -> 0 <= k -> rne (v * 2 ^ k) (n + k) = rne v n.
Proof.
  intros Hn Hk. unfold rne.
  assert (HP : 0 < 2 ^ n) by (apply Z.pow_pos_nonneg; lia).
  assert (HK : 0 < 2 ^ k) by (apply Z.pow_pos_nonneg; lia).
  rewrite Z.pow_add_r by lia.
  rewrite Z.div_mul_cancel_r by lia.
  rewrite Z.mul_mod_distr_r by lia.
  replace (2 * (v mod 2 ^ n * 2 ^ k)) with (2 * (v mod 2 ^ n) * 2 ^ k) by lia.
  assert (Hc : (2 * (v mod 2 ^ n) * 2 ^ k ?= 2 ^ n * 2 ^ k)
               = (2 * (v mod 2 ^ n) ?= 2 ^ n)).
  { destruct (2 * (v mod 2 ^ n) ?= 2 ^ n) eqn:E; compare_facts;
      [apply Z.compare_eq_iff | apply Z.compare_lt_iff
       | apply Z.compare_gt_iff]; nia. }
  now rewrite Hc.
Qed.

Lemma rne_mono v1 v2 n : 0 <= n -> v1 <= v2 -> rne v1 n <= rne v2 n.
Proof.
  intros Hn Hv. unfold rne.
  assert (HP : 0 < 2 ^ n) by (apply Z.pow_pos_nonneg; lia).
  pose proof (Z.mod_pos_bound v1 (2 ^ n) HP) as H1.
  pose proof (Z.mod_pos_bound v2 (2 ^ n) HP) as H2.
  pose proof (Z.div_mod v1 (2 ^ n) ltac:(lia)) as D1.
  pose proof (Z.div_mod v2 (2 ^ n) ltac:(lia)) as D2.
  set (P := 2 ^ n) in *.
  set (q1 := v1 / P) in *. set (r1 := v1 mod P) in *.
  set (q2 := v2 / P) in *. set (r2 := v2 mod P) in *.
  assert (Hq : q1 < q2 \/ (q1 = q2 /\ r1 <= r2)) by nia.
  destruct Hq as [Hq | [Hq Hr]].
  - destruct (2 * r1 ?= P), (2 * r2 ?= P);
      try destruct (Z.even q1); try destruct (Z.even q2); lia.
  - rewrite <- Hq.
    destruct (2 * r1 ?= P) eqn:E1, (2 * r2 ?= P) eqn:E2; compare_facts;
      try destruct (Z.even q1); lia.
Qed.

(** *** The rounding step of the arithmetic operations *)

Lemma fexp_eq x : fexp 53 1024 x = Z.max (x - 53) (-1074).
Proof. reflexivity. Qed.

Lemma pow2_pos k : 0 <= k -> 0 < 2 ^ k.
Proof. intros. apply Z.pow_pos_nonneg; lia. Qed.

Lemma pow2_le a b : 0 <= a <= b -> 2 ^ a <= 2 ^ b.
Proof. intros. apply Z.pow_le_mono_r; lia. Qed.

Lemma pow2_lt a b : 0 <= a < b -> 2 ^ a < 2 ^ b.
Proof. intros. apply Z.pow_lt_mono_r; lia. Qed.

Lemma pow2_split a b : 0 <= a <= b -> 2 ^ b = 2 ^ a * 2 ^ (b - a).
Proof.
  intros. rewrite <- Z.pow_add_r by lia. f_equal. lia.
Qed.

(** The quotient left by the first shift has at most 53 digits, and
    exactly 53 in the normal range. *)
Lemma first_shift_quotient m e :
  let d := bits (Zpos m) in
  let E := fexp 53 1024 (d + e) in
  e <= E ->
  0 <= Zpos m / 2 ^ (E - e) < 2 ^ 53
  /\ (-1074 < E -> 2 ^ 52 <= Zpos m / 2 ^ (E - e)).
Proof.
  cbv zeta. rewrite fexp_eq. intros He.
  pose proof (bits_spec (Zpos m) ltac:(lia)) as Hb.
  pose proof (bits_pos (Zpos m) ltac:(lia)) as Hd.
  set (d := bits (Zpos m)) in *.
  set (E := Z.max (d + e - 53) (-1074)) in *.
  assert (Hn : d - 53 <= E - e) by lia.
  pose proof (pow2_pos (E - e) ltac:(lia)) as HP.
  split; [split | ].
  - apply Z.div_pos; lia.
  - apply Z.div_lt_upper_bound; [lia | ].
    assert (2 ^ d <= 2 ^ (E - e) * 2 ^ 53).
    { rewrite <- Z.pow_add_r by lia. apply pow2_le. lia. }
    lia.
  - intros Hnorm.
    assert (HE : E - e = d - 53) by lia.
    rewrite HE.
    apply Z.div_le_lower_bound; [apply pow2_pos; lia | ].
    rewrite <- Z.pow_add_r by lia.
    replace (d - 53 + 52) with (d - 1) by lia. lia.
Qed.

Lemma shr_nonpos mrs e n : n <= 0 -> shr mrs e n = (mrs, e).
Proof. destruct n; intros; [reflexivity | lia | reflexivity]. Qed.

Lemma bits_le v k : 0 < v -> 0 <= k -> v < 2 ^ k -> bits v <= k.
Proof.
  intros Hv Hk Hlt.
  pose proof (bits_spec v Hv) as [Hlo _].
  pose proof (bits_pos v Hv).
  destruct (Z.le_gt_cases (bits v) k) as [ | Hgt]; [assumption | exfalso].
  assert (2 ^ k <= 2 ^ (bits v - 1)) by (apply pow2_le; lia).
  lia.
Qed.

(** The second shift only renormalises a mantissa that rounding carried
    to [2^53]; it never loses a bit. *)
Lemma second_shift q E :
  -1074 <= E ->
  0 <= q <= 2 ^ 53 ->
  (-1074 < E -> 2 ^ 52 <= q) ->
  let r := shr_fexp 53 1024 q E loc_Exact in
  let m2 := shr_m (fst r) in
  let e2 := snd r in
  m2 * 2 ^ (e2 + 1074) = q * 2 ^ (E + 1074)
  /\ 0 <= m2 < 2 ^ 53
  /\ -1074 <= e2
  /\ (0 < m2 -> fexp 53 1024 (bits m2 + e2) = e2).
Proof.
  intros HE Hq Hnorm. cbv zeta.
  unfold shr_fexp. cbn [shr_record_of_loc].
  change (Zdigits2 q) with (bits q). rewrite fexp_eq.
  destruct (Z.eq_dec q (2 ^ 53)) as [-> | Hne].
  - change (bits (2 ^ 53)) with 54.
    replace (Z.max (54 + E - 53) (-1074) - E) with 1 by lia.
    destruct (shr_describes_shr (2 ^ 53) E 1 ltac:(lia) ltac:(lia))
      as [(Hm & _) He].
    rewrite Hm, He. change (2 ^ 53 / 2 ^ 1) with (2 ^ 52).
    change (bits (2 ^ 52)) with 53. rewrite fexp_eq.
    repeat split; try lia.
    replace (E + 1 + 1074) with (1 + (E + 1074)) by lia.
    rewrite Z.pow_add_r by lia. change (2 ^ 53) with (2 ^ 52 * 2 ^ 1). lia.
  - assert (Hn2 : Z.max (bits q + E - 53) (-1074) - E <= 0).
    { destruct (Z.eq_dec q 0) as [-> | Hq0]; [rewrite bits_0; lia | ].
      pose proof (bits_le q 53 ltac:(lia) ltac:(lia) ltac:(lia)). lia. }
    rewrite shr_nonpos by assumption. cbn [fst snd shr_m].
    repeat split; try lia.
    intros Hpos. rewrite fexp_eq.
    pose proof (bits_le q 53 ltac:(lia) ltac:(lia) ltac:(lia)) as Hb.
    destruct (Z.eq_dec E (-1074)) as [-> | HEn]; [lia | ].
    assert (bits q = 53); [ | lia].
    apply bits_unique; [lia | ].
    change (53 - 1) with 52. split; [apply Hnorm | ]; lia.
Qed.

Lemma binary_round_aux_eq s m e :
  let E := fexp 53 1024 (bits (Zpos m) + e) in
  e <= E ->
  exists m2 e2,
    binary_round_aux 53 1024 s (Zpos m) e loc_Exact
    = match m2 with
      | 0 => S754_zero s
      | Zpos p => if e2 <=? 1024 - 53 then S754_finite s p e2
                  else S754_infinity s
      | Zneg _ => S754_nan
      end
    /\ m2 * 2 ^ (e2 + 1074) = rne (Zpos m) (E - e) * 2 ^ (E + 1074)
    /\ 0 <= m2 < 2 ^ 53
    /\ -1074 <= e2
    /\ (0 < m2 -> fexp 53 1024 (bits m2 + e2) = e2).
Proof.
  cbv zeta. intros He.
  unfold binary_round_aux.
  set (E := fexp 53 1024 (bits (Zpos m) + e)) in *.
  assert (HE : -1074 <= E) by (unfold E; rewrite fexp_eq; lia).
  unfold shr_fexp at 1. cbn [shr_record_of_loc].
  change (Zdigits2 (Zpos m)) with (bits (Zpos m)). fold E.
  destruct (shr_describes_shr (Zpos m) e (E - e) ltac:(lia) ltac:(lia))
    as [Hd He'].
  destruct (shr {| shr_m := Zpos m; shr_r := false; shr_s := false |} e (E - e))
    as [mrs' e'].
  cbn [fst snd] in Hd, He'.
  replace e' with E by lia. clear e' He'.
  rewrite (round_nearest_even_rne (Zpos m) (E - e) mrs' ltac:(lia) Hd).
  pose proof (rne_bounds (Zpos m) (E - e) ltac:(lia)) as Hq.
  pose proof (first_shift_quotient m e He) as [Hq0 Hnorm].
  fold E in Hq0, Hnorm.
  set (q := rne (Zpos m) (E - e)) in *.
  assert (Hnorm' : -1074 < E -> 2 ^ 52 <= q)
    by (intros H; specialize (Hnorm H); lia).
  destruct (second_shift q E HE ltac:(lia) Hnorm')
    as (Hval & Hm2 & He2 & Hcan).
  destruct (shr_fexp 53 1024 q E loc_Exact) as [mrs'' e''].
  cbn [fst snd] in Hval, Hm2, He2, Hcan.
  exists (shr_m mrs''), e''. repeat split; assumption || lia.
Qed.

Lemma binary_round_aux_spec s m e :
  e <= fexp 53 1024 (bits (Zpos m) + e) ->
  let r := binary_round_aux 53 1024 s (Zpos m) e loc_Exact in
  wf r
  /\ sc r = cond_Zopp s (round_at (Zpos m) e)
  /\ (s = false -> nonneg r).
Proof.
  intros He. cbv zeta.
  destruct (binary_round_aux_eq s m e He)
    as (m2' & e'' & -> & Hval & Hm2 & He2 & Hcan).
  unfold round_at. rewrite <- Hval.
  destruct m2' as [ | m2 | m2]; [ | | lia].
  - repeat split; try discriminate; try reflexivity.
    cbn [sc]. rewrite Z.mul_0_l.
    rewrite Z.min_l by (apply Z.lt_le_incl, pow2_pos; lia).
    now destruct s.
  - specialize (Hcan ltac:(lia)).
    assert (Hpow : 2 ^ 2098 = 2 ^ 53 * 2 ^ 2045) by reflexivity.
    destruct (e'' <=? 1024 - 53) eqn:Ee.
    + apply Z.leb_le in Ee.
      assert (Hlt : Zpos m2 * 2 ^ (e'' + 1074) < 2 ^ 2098).
      { rewrite Hpow.
        assert (2 ^ (e'' + 1074) <= 2 ^ 2045) by (apply pow2_le; lia).
        pose proof (pow2_pos (e'' + 1074) ltac:(lia)).
        apply Z.le_lt_trans with (Zpos m2 * 2 ^ 2045).
        - apply Z.mul_le_mono_nonneg_l; lia.
        - apply Z.mul_lt_mono_pos_r; [reflexivity | lia]. }
      repeat split; try discriminate.
      * unfold B64.valid, valid_binary, bounded, canonical_mantissa.
        change (Zpos (digits2_pos m2)) with (bits (Zpos m2)).
        apply andb_true_intro. split; [apply Z.eqb_eq | apply Z.leb_le];
          assumption.
      * cbn [sc]. rewrite Z.min_l by lia. reflexivity.
      * intros ->. reflexivity.
    + apply Z.leb_gt in Ee.
      assert (Hge : 2 ^ 2098 <= Zpos m2 * 2 ^ (e'' + 1074)).
      { rewrite fexp_eq in Hcan.
        assert (Hb : bits (Zpos m2) = 53) by lia.
        pose proof (bits_spec (Zpos m2) ltac:(lia)) as [Hlo _].
        rewrite Hb in Hlo. change (53 - 1) with 52 in Hlo.
        change (2 ^ 2098) with (2 ^ 52 * 2 ^ 2046).
        assert (2 ^ 2046 <= 2 ^ (e'' + 1074)) by (apply pow2_le; lia).
        apply Z.le_trans with (2 ^ 52 * 2 ^ (e'' + 1074)).
        - apply Z.mul_le_mono_nonneg_l; [lia | assumption].
        - apply Z.mul_le_mono_nonneg_r; [lia | assumption]. }
      repeat split; try discriminate.
      * cbn [sc]. rewrite Z.min_r by lia. reflexivity.
      * intros ->. reflexivity.
Qed.

Lemma round_at_scaled m e :
  0 < m -> -2148 <= e ->
  e <= fexp 53 1024 (bits m + e) ->
  round_at m e = round_scaled (m * 2 ^ (e + 2148)).
Proof.
  intros Hm He. unfold round_at, round_scaled, round_shift.
  rewrite fexp_eq.
  rewrite bits_shift by lia.
  pose proof (bits_pos m Hm) as Hb.
  set (E := Z.max (bits m + e - 53) (-1074)).
  intros HeE.
  replace (Z.max (bits m + (e + 2148) - 53) 1074) with (E + 2148) by lia.
  replace (E + 2148) with ((E - e) + (e + 2148)) at 1 by lia.
  rewrite rne_scale by lia.
  replace (E + 2148 - 1074) with (E + 1074) by lia. reflexivity.
Qed.

Lemma round_scaled_mono v1 v2 :
  0 <= v1 <= v2 -> round_scaled v1 <= round_scaled v2.
Proof.
  intros [H1 H12]. unfold round_scaled.
  apply Z.min_le_compat_r.
  pose proof (bits_mono v1 v2 ltac:(lia)) as Hb.
  unfold round_shift.
  set (N1 := Z.max (bits v1 - 53) 1074).
  set (N2 := Z.max (bits v2 - 53) 1074).
  assert (HN : N1 <= N2) by lia.
  destruct (Z.eq_dec N1 N2) as [<- | Hne].
  - apply Z.mul_le_mono_nonneg_r; [apply Z.lt_le_incl, pow2_pos; lia | ].
    apply rne_mono; lia.
  - assert (HN2 : N2 = bits v2 - 53) by lia.
    assert (Hv2 : 0 < v2).
    { destruct (Z.eq_dec v2 0) as [-> | ]; [rewrite bits_0 in HN2 | ]; lia. }
    pose proof (bits_spec v2 Hv2) as [Hlo2 _].
    set (M := Z.max (bits v1) N1).
    apply Z.le_trans with (2 ^ (M - 1074)).
    + apply Z.le_trans with (rne (2 ^ (M - N1) * 2 ^ N1) N1 * 2 ^ (N1 - 1074)).
      * apply Z.mul_le_mono_nonneg_r;
          [apply Z.lt_le_incl, pow2_pos; lia | ].
        apply rne_mono; [lia | ].
        rewrite <- Z.pow_add_r by lia.
        replace (M - N1 + N1) with M by lia.
        destruct (Z.eq_dec v1 0) as [-> | ];
          [apply Z.lt_le_incl, pow2_pos; lia | ].
        pose proof (bits_spec v1 ltac:(lia)) as [_ Hhi1].
        pose proof (bits_pos v1 ltac:(lia)).
        assert (2 ^ bits v1 <= 2 ^ M) by (apply pow2_le; lia).
        lia.
      * rewrite rne_exact by lia.
        rewrite <- Z.pow_add_r by lia.
        replace (M - N1 + (N1 - 1074)) with (M - 1074) by lia. lia.
    + apply Z.le_trans with (2 ^ (bits v2 - 1 - 1074)).
      * apply pow2_le. lia.
      * apply Z.le_trans
          with (rne (2 ^ (bits v2 - 1 - N2) * 2 ^ N2) N2 * 2 ^ (N2 - 1074)).
        -- rewrite rne_exact by lia.
           rewrite <- Z.pow_add_r by lia.
           replace (bits v2 - 1 - N2 + (N2 - 1074))
             with (bits v2 - 1 - 1074) by lia. lia.
        -- apply Z.mul_le_mono_nonneg_r;
             [apply Z.lt_le_incl, pow2_pos; lia | ].
           apply rne_mono; [lia | ].
           rewrite <- Z.pow_add_r by lia.
           replace (bits v2 - 1 - N2 + N2) with (bits v2 - 1) by lia. lia.
Qed.

(** *** Well-formed doubles and their order *)

Lemma wf_finite s m e :
  wf (S754_finite s m e) ->
  -1074 <= e <= 971
  /\ Zpos m < 2 ^ 53
  /\ (-1074 < e -> 2 ^ 52 <= Zpos m)
  /\ fexp 53 1024 (bits (Zpos m) + e) = e.
Proof.
  intros [Hv _]. unfold B64.valid, valid_binary, bounded, canonical_mantissa in Hv.
  apply andb_prop in Hv. destruct Hv as [Hc Hb].
  apply Z.eqb_eq in Hc. apply Z.leb_le in Hb.
  change (Zpos (digits2_pos m)) with (bits (Zpos m)) in Hc.
  change (B64.emax - B64.prec) with 971 in Hb.
  change (fexp B64.prec B64.emax) with (fexp 53 1024) in Hc.
  pose proof Hc as Hc'. rewrite fexp_eq in Hc'.
  pose proof (bits_spec (Zpos m) ltac:(lia)) as [Hlo Hhi].
  pose proof (bits_pos (Zpos m) ltac:(lia)) as Hd.
  repeat split; try lia; try assumption.
  - assert (2 ^ bits (Zpos m) <= 2 ^ 53) by (apply pow2_le; lia). lia.
  - intros Hn. assert (Hb53 : bits (Zpos m) = 53) by lia.
    rewrite Hb53 in Hlo. exact Hlo.
Qed.

Lemma finite_below_top s m e :
  wf (S754_finite s m e) ->
  0 < Zpos m * 2 ^ (e + 1074) < 2 ^ 2098.
Proof.
  intros Hwf. destruct (wf_finite _ _ _ Hwf) as (He & Hm & _ & _).
  pose proof (pow2_pos (e + 1074) ltac:(lia)) as HP.
  split; [lia | ].
  change (2 ^ 2098) with (2 ^ 53 * 2 ^ 2045).
  assert (2 ^ (e + 1074) <= 2 ^ 2045) by (apply pow2_le; lia).
  apply Z.le_lt_trans with (Zpos m * 2 ^ 2045).
  - apply Z.mul_le_mono_nonneg_l; lia.
  - apply Z.mul_lt_mono_pos_r; [reflexivity | lia].
Qed.

Lemma finite_order s1 m1 e1 s2 m2 e2 :
  wf (S754_finite s1 m1 e1) -> wf (S754_finite s2 m2 e2) ->
  e1 < e2 ->
  Zpos m1 * 2 ^ (e1 + 1074) < Zpos m2 * 2 ^ (e2 + 1074).
Proof.
  intros H1 H2 He.
  destruct (wf_finite _ _ _ H1) as (He1 & Hm1 & _ & _).
  destruct (wf_finite _ _ _ H2) as (He2 & _ & Hm2 & _).
  specialize (Hm2 ltac:(lia)).
  pose proof (pow2_pos (e1 + 1074) ltac:(lia)) as HP1.
  apply Z.lt_le_trans with (2 ^ 53 * 2 ^ (e1 + 1074)).
  - apply Z.mul_lt_mono_pos_r; lia.
  - apply Z.le_trans with (2 ^ 52 * 2 ^ (e2 + 1074)).
    + rewrite <- !Z.pow_add_r by lia. apply pow2_le. lia.
    + apply Z.mul_le_mono_nonneg_r; [ | assumption].
      apply Z.lt_le_incl, pow2_pos. lia.
Qed.

Lemma compare_scaled a b p : 0 < p -> (a * p ?= b * p) = (a ?= b).
Proof.
  intros Hp.
  destruct (a ?= b) eqn:E; compare_facts;
    [apply Z.compare_eq_iff | apply Z.compare_lt_iff | apply Z.compare_gt_iff];
    nia.
Qed.

Lemma SFcompare_finite_pos m1 e1 m2 e2 :
  wf (S754_finite false m1 e1) -> wf (S754_finite false m2 e2) ->
  match e1 ?= e2 with
  | Lt => Lt
  | Gt => Gt
  | Eq => Pos.compare_cont Eq m1 m2
  end
  = (Zpos m1 * 2 ^ (e1 + 1074) ?= Zpos m2 * 2 ^ (e2 + 1074)).
Proof.
  intros H1 H2.
  destruct (e1 ?= e2) eqn:E; compare_facts; symmetry.
  - subst e2. destruct (wf_finite _ _ _ H1) as (He1 & _).
    rewrite compare_scaled by (apply pow2_pos; lia). reflexivity.
  - apply Z.compare_lt_iff. eapply finite_order; eassumption.
  - apply Z.compare_gt_iff. eapply finite_order; eassumption || lia.
Qed.

Lemma wf_sign_irrelevant s s' m e :
  wf (S754_finite s m e) -> wf (S754_finite s' m e).
Proof. intros [Hv _]. split; [exact Hv | discriminate]. Qed.

Lemma compare_opp a b : (- a ?= - b) = CompOpp (a ?= b).
Proof.
  rewrite Z.compare_opp. apply Z.compare_antisym.
Qed.

Ltac compare_goal :=
  try (f_equal; []);
  first [ reflexivity
        | symmetry;
          first [ apply Z.compare_eq_iff; lia
                | apply Z.compare_lt_iff; lia
                | apply Z.compare_gt_iff; lia ] ].

(** On well-formed doubles the IEEE comparison is the order of the
    scaled values. *)
Lemma SFcompare_sc f g :
  wf f -> wf g -> SFcompare f g = Some (sc f ?= sc g).
Proof.
  intros Hf Hg.
  assert (Htop : 0 < 2 ^ 2098) by reflexivity.
  destruct f as [sf | sf | | sf mf ef]; [ | | now destruct Hf | ];
    (destruct g as [sg | sg | | sg mg eg]; [ | | now destruct Hg | ]);
    cbn [SFcompare sc].
  - reflexivity.
  - destruct sg; cbn [cond_Zopp]; compare_goal.
  - pose proof (finite_below_top _ _ _ Hg).
    destruct sg; cbn [cond_Zopp]; compare_goal.
  - destruct sf; cbn [cond_Zopp]; compare_goal.
  - destruct sf, sg; cbn [cond_Zopp]; compare_goal.
  - pose proof (finite_below_top _ _ _ Hg).
    destruct sf, sg; cbn [cond_Zopp]; compare_goal.
  - pose proof (finite_below_top _ _ _ Hf).
    destruct sf; cbn [cond_Zopp]; compare_goal.
  - pose proof (finite_below_top _ _ _ Hf).
    destruct sf, sg; cbn [cond_Zopp]; compare_goal.
  - pose proof (finite_below_top _ _ _ Hf).
    pose proof (finite_below_top _ _ _ Hg).
    destruct sf, sg; cbn [cond_Zopp]; f_equal.
    + rewrite compare_opp. 
      rewrite <- (SFcompare_finite_pos mf ef mg eg)
        by (eapply wf_sign_irrelevant; eassumption).
      destruct (ef ?= eg); reflexivity.
    + symmetry. apply Z.compare_lt_iff. lia.
    + symmetry. apply Z.compare_gt_iff. lia.
    + apply SFcompare_finite_pos; assumption.
Qed.

(** *** Multiplication *)

Lemma bits_mul_lower a b :
  0 < a -> 0 < b -> bits a + bits b - 1 <= bits (a * b).
Proof.
  intros Ha Hb.
  pose proof (bits_spec a Ha) as [Hla _].
  pose proof (bits_spec b Hb) as [Hlb _].
  pose proof (bits_spec (a * b) ltac:(nia)) as [_ Hh].
  pose proof (bits_pos a Ha). pose proof (bits_pos b Hb).
  pose proof (bits_pos (a * b) ltac:(nia)).
  destruct (Z.le_gt_cases (bits a + bits b - 1) (bits (a * b)))
    as [ | Hgt]; [assumption | exfalso].
  assert (Hp : 2 ^ bits (a * b) <= 2 ^ (bits a - 1 + (bits b - 1)))
    by (apply pow2_le; lia).
  rewrite Z.pow_add_r in Hp by lia.
  assert (2 ^ (bits a - 1) * 2 ^ (bits b - 1) <= a * b)
    by (apply Z.mul_le_mono_nonneg; try assumption;
        apply Z.lt_le_incl, pow2_pos; lia).
  lia.
Qed.

Lemma product_is_fine mx ex my ey sx sy :
  wf (S754_finite sx mx ex) -> wf (S754_finite sy my ey) ->
  ex + ey <= fexp 53 1024 (bits (Zpos (mx * my)) + (ex + ey)).
Proof.
  intros Hx Hy. rewrite fexp_eq.
  destruct (wf_finite _ _ _ Hx) as (Hex & Hmx & Hnx & _).
  destruct (wf_finite _ _ _ Hy) as (Hey & Hmy & Hny & _).
  destruct (Z.le_gt_cases (ex + ey) (-1074)) as [ | Hbig]; [lia | ].
  pose proof (bits_mul_lower (Zpos mx) (Zpos my) ltac:(lia) ltac:(lia)) as Hb.
  rewrite Pos2Z.inj_mul.
  pose proof (bits_pos (Zpos mx) ltac:(lia)).
  pose proof (bits_pos (Zpos my) ltac:(lia)).
  assert (53 <= bits (Zpos mx) \/ 53 <= bits (Zpos my)); [ | lia].
  destruct (Z.eq_dec ex (-1074)) as [Hxs | Hxn].
  - right. specialize (Hny ltac:(lia)).
    pose proof (bits_spec (Zpos my) ltac:(lia)) as [_ Hh].
    destruct (Z.le_gt_cases 53 (bits (Zpos my))) as [ | Hlt];
      [assumption | exfalso].
    assert (2 ^ bits (Zpos my) <= 2 ^ 52) by (apply pow2_le; lia). lia.
  - left. specialize (Hnx ltac:(lia)).
    pose proof (bits_spec (Zpos mx) ltac:(lia)) as [_ Hh].
    destruct (Z.le_gt_cases 53 (bits (Zpos mx))) as [ | Hlt];
      [assumption | exfalso].
    assert (2 ^ bits (Zpos mx) <= 2 ^ 52) by (apply pow2_le; lia). lia.
Qed.

Lemma mul_finite sx mx ex sy my ey :
  wf (S754_finite sx mx ex) -> wf (S754_finite sy my ey) ->
  let r := B64.mul (S754_finite sx mx ex) (S754_finite sy my ey) in
  wf r
  /\ sc r = cond_Zopp (xorb sx sy)
              (round_scaled (Zpos mx * 2 ^ (ex + 1074)
                             * (Zpos my * 2 ^ (ey + 1074))))
  /\ (xorb sx sy = false -> nonneg r).
Proof.
  intros Hx Hy. cbv zeta.
  pose proof (product_is_fine _ _ _ _ _ _ Hx Hy) as Hfine.
  destruct (wf_finite _ _ _ Hx) as (Hex & _).
  destruct (wf_finite _ _ _ Hy) as (Hey & _).
  unfold B64.mul. cbn [SFmul].
  change B64.prec with 53. change B64.emax with 1024.
  destruct (binary_round_aux_spec (xorb sx sy) (mx * my) (ex + ey) Hfine)
    as (Hwf & Hsc & Hnn).
  split; [exact Hwf | split; [ | exact Hnn]].
  rewrite Hsc. f_equal.
  rewrite round_at_scaled by (lia || assumption).
  f_equal. rewrite Pos2Z.inj_mul.
  replace (ex + ey + 2148) with ((ex + 1074) + (ey + 1074)) by lia.
  rewrite Z.pow_add_r by lia. ring.
Qed.

Lemma round_scaled_0 : round_scaled 0 = 0.
Proof. reflexivity. Qed.

Lemma round_scaled_range v : 0 <= v -> 0 <= round_scaled v <= 2 ^ 2098.
Proof.
  intros Hv. unfold round_scaled. split; [ | apply Z.le_min_r].
  apply Z.min_glb; [ | apply Z.lt_le_incl; reflexivity].
  unfold round_shift.
  set (N := Z.max (bits v - 53) 1074).
  pose proof (rne_bounds v N ltac:(lia)) as [Hlo _].
  pose proof (Z.div_pos v (2 ^ N) Hv (pow2_pos N ltac:(lia))).
  apply Z.mul_nonneg_nonneg; [lia | ].
  apply Z.lt_le_incl, pow2_pos. lia.
Qed.

Lemma nonneg_sc f : wf f -> nonneg f -> 0 <= sc f <= 2 ^ 2098.
Proof.
  intros Hwf Hn.
  destruct f as [s | s | | s m e]; cbn [nonneg] in Hn; cbn [sc];
    try subst s; cbn [cond_Zopp].
  - split; [lia | apply Z.lt_le_incl; reflexivity].
  - split; [apply Z.lt_le_incl; reflexivity | lia].
  - contradiction.
  - pose proof (finite_below_top _ _ _ Hwf). lia.
Qed.

(** Multiplying a non-negative double by a positive finite constant. *)
Lemma mul_sc x c :
  wf x -> nonneg x -> wf c -> positive_finite c ->
  wf (B64.mul x c) /\ nonneg (B64.mul x c)
  /\ sc (B64.mul x c) = mul_scaled (sc x) (sc c).
Proof.
  intros Hx Hnx Hc Hpc.
  destruct c as [ | | | [ | ] mc ec]; try contradiction.
  pose proof (finite_below_top _ _ _ Hc) as Hcb.
  unfold mul_scaled.
  destruct x as [s | s | | s mx ex]; cbn [nonneg] in Hnx; try contradiction.
  - unfold B64.mul. cbn [SFmul sc].
    replace (2 ^ 2098 <=? 0) with false by reflexivity.
    rewrite Z.mul_0_l, round_scaled_0.
    repeat split; try discriminate; reflexivity.
  - subst s. unfold B64.mul. cbn [SFmul sc xorb cond_Zopp].
    rewrite Z.leb_refl.
    repeat split; try discriminate; reflexivity.
  - subst s.
    destruct (mul_finite false mx ex false mc ec Hx Hc) as (Hwf & Hsc & Hnn).
    pose proof (finite_below_top _ _ _ Hx) as Hxb.
    split; [exact Hwf | split; [now apply Hnn | ]].
    rewrite Hsc. cbn [xorb cond_Zopp sc].
    replace (2 ^ 2098 <=? Zpos mx * 2 ^ (ex + 1074)) with false
      by (symmetry; apply Z.leb_gt; lia).
    reflexivity.
Qed.

Lemma mul_scaled_mono a1 a2 c1 c2 :
  0 <= a1 <= a2 -> 0 <= c1 <= c2 ->
  mul_scaled a1 c1 <= mul_scaled a2 c2.
Proof.
  intros Ha Hc. unfold mul_scaled.
  destruct (2 ^ 2098 <=? a2) eqn:E2.
  - destruct (2 ^ 2098 <=? a1); [lia | ].
    apply round_scaled_range. nia.
  - apply Z.leb_gt in E2.
    replace (2 ^ 2098 <=? a1) with false by (symmetry; apply Z.leb_gt; lia).
    apply round_scaled_mono. nia.
Qed.

(** *** Conversion of integers *)

Lemma iter_xO m d : Zpos (Pos.iter xO m d) = Zpos m * 2 ^ Zpos d.
Proof.
  induction d as [ | d IH] using Pos.peano_ind.
  - cbn [Pos.iter]. rewrite Pos2Z.inj_xO. change (2 ^ 1) with 2. lia.
  - rewrite Pos.iter_succ, Pos2Z.inj_xO, IH, Pos2Z.inj_succ.
    rewrite Z.pow_succ_r by lia. lia.
Qed.

Lemma shl_align_spec m e e' :
  let r := shl_align m e e' in
  Zpos (fst r) * 2 ^ (snd r - Z.min e e') = Zpos m * 2 ^ (e - Z.min e e')
  /\ snd r = Z.min e e'.
Proof.
  cbv zeta. unfold shl_align.
  destruct (e' - e) as [ | d | d] eqn:Ed; cbn [fst snd].
  - split; [ | lia]. reflexivity.
  - split; [ | lia]. reflexivity.
  - assert (He : e = e' + Zpos d) by lia.
    split; [ | lia].
    rewrite iter_xO. replace (Z.min e e') with e' by lia.
    rewrite Z.sub_diag. change (2 ^ 0) with 1. rewrite Z.mul_1_r.
    f_equal. f_equal. lia.
Qed.

Lemma binary_round_spec s m e :
  -2148 <= e ->
  let r := binary_round 53 1024 s m e in
  wf r
  /\ sc r = cond_Zopp s (round_scaled (Zpos m * 2 ^ (e + 2148)))
  /\ (s = false -> nonneg r).
Proof.
  intros He. cbv zeta. unfold binary_round.
  change (Zpos (digits2_pos m)) with (bits (Zpos m)).
  set (E := fexp 53 1024 (bits (Zpos m) + e)).
  assert (HE : -1074 <= E) by (unfold E; rewrite fexp_eq; lia).
  destruct (shl_align_spec m e E) as [Hval He'].
  destruct (shl_align m e E) as [mz ez]. cbn [fst snd] in Hval, He'.
  subst ez.
  assert (Hk : 0 <= e - Z.min e E) by lia.
  assert (Hmz : Zpos mz = Zpos m * 2 ^ (e - Z.min e E)).
  { rewrite Z.sub_diag in Hval. change (2 ^ 0) with 1 in Hval. lia. }
  assert (Hbits : bits (Zpos mz) + Z.min e E = bits (Zpos m) + e).
  { rewrite Hmz, bits_shift by lia. lia. }
  assert (Hfine : Z.min e E <= fexp 53 1024 (bits (Zpos mz) + Z.min e E)).
  { rewrite Hbits. fold E. lia. }
  destruct (binary_round_aux_spec s mz (Z.min e E) Hfine) as (Hwf & Hsc & Hnn).
  split; [exact Hwf | split; [ | exact Hnn]].
  rewrite Hsc. f_equal.
  rewrite round_at_scaled by (lia || assumption).
  f_equal. rewrite Hmz, <- Z.mul_assoc, <- Z.pow_add_r by lia.
  f_equal. f_equal. lia.
Qed.

Lemma of_Z_spec z :
  wf (B64.of_Z z)
  /\ sc (B64.of_Z z)
     = Z.sgn z * round_scaled (Z.abs z * 2 ^ 2148)
  /\ (0 <= z -> nonneg (B64.of_Z z)).
Proof.
  unfold B64.of_Z, binary_normalize.
  change B64.prec with 53. change B64.emax with 1024.
  destruct z as [ | m | m].
  - repeat split; try discriminate; reflexivity.
  - destruct (binary_round_spec false m 0 ltac:(lia)) as (Hwf & Hsc & Hnn).
    split; [exact Hwf | split; [ | intros _; now apply Hnn]].
    rewrite Hsc. cbn [cond_Zopp Z.sgn Z.abs]. change (0 + 2148) with 2148.
    lia.
  - destruct (binary_round_spec true m 0 ltac:(lia)) as (Hwf & Hsc & Hnn).
    split; [exact Hwf | split; [ | lia]].
    rewrite Hsc. cbn [cond_Zopp Z.sgn Z.abs]. change (0 + 2148) with 2148.
    lia.
Qed.

(** Integers below [2^53] convert exactly. *)
Lemma round_scaled_exact z :
  0 <= z < 2 ^ 53 -> round_scaled (z * 2 ^ 2148) = z * 2 ^ 1074.
Proof.
  intros Hz.
  destruct (Z.eq_dec z 0) as [-> | Hnz]; [reflexivity | ].
  unfold round_scaled, round_shift.
  rewrite bits_shift by lia.
  pose proof (bits_pos z ltac:(lia)) as Hb.
  pose proof (bits_le z 53 ltac:(lia) ltac:(lia) ltac:(lia)) as Hb53.
  set (N := Z.max (bits z + 2148 - 53) 1074).
  assert (HN : 1074 <= N <= 2148) by lia.
  replace (z * 2 ^ 2148) with (z * 2 ^ (2148 - N) * 2 ^ N)
    by (rewrite <- Z.mul_assoc, <- Z.pow_add_r by lia; do 2 f_equal; lia).
  rewrite rne_exact by lia.
  rewrite <- Z.mul_assoc, <- Z.pow_add_r by lia.
  replace (2148 - N + (N - 1074)) with 1074 by lia.
  apply Z.min_l.
  apply Z.le_trans with (2 ^ 53 * 2 ^ 1074).
  - apply Z.mul_le_mono_nonneg_r; [apply Z.lt_le_incl, pow2_pos | ]; lia.
  - rewrite <- Z.pow_add_r by lia. apply pow2_le. lia.
Qed.

Lemma of_Z_exact z :
  0 <= z < 2 ^ 53 -> sc (B64.of_Z z) = z * 2 ^ 1074.
Proof.
  intros Hz. destruct (of_Z_spec z) as (_ & Hsc & _).
  rewrite Hsc, Z.abs_eq, round_scaled_exact by lia.
  destruct (Z.eq_dec z 0) as [-> | ]; [reflexivity | ].
  rewrite Z.sgn_pos by lia. lia.
Qed.

(** *** Ceiling *)

Lemma ceil_sc f :
  wf f -> nonneg f ->
  wf (B64.ceil f) /\ nonneg (B64.ceil f)
  /\ sc (B64.ceil f) = ceil_scaled (sc f).
Proof.
  intros Hwf Hn. unfold ceil_scaled.
  destruct f as [s | s | | s m e]; cbn [nonneg] in Hn; try contradiction.
  - cbn [B64.ceil sc].
    repeat split; try discriminate; reflexivity.
  - subst s. cbn [B64.ceil sc cond_Zopp]. rewrite Z.leb_refl.
    repeat split; try discriminate; reflexivity.
  - subst s.
    pose proof (finite_below_top _ _ _ Hwf) as Hb.
    destruct (wf_finite _ _ _ Hwf) as (He & Hm & _ & _).
    cbn [sc cond_Zopp].
    replace (2 ^ 2098 <=? Zpos m * 2 ^ (e + 1074)) with false
      by (symmetry; apply Z.leb_gt; lia).
    unfold B64.ceil.
    destruct (0 <=? e) eqn:Ee.
    + apply Z.leb_le in Ee.
      split; [exact Hwf | split; [reflexivity | ]].
      cbn [sc cond_Zopp].
      rewrite Z.pow_add_r by lia.
      replace (- (Zpos m * (2 ^ e * 2 ^ 1074)))
        with (- (Zpos m * 2 ^ e) * 2 ^ 1074) by lia.
      rewrite Z.div_mul by (apply Z.neq_sym, Z.lt_neq; reflexivity).
      lia.
    + apply Z.leb_gt in Ee. cbn [cond_Zopp]. unfold B64.cdiv_pow2.
      pose proof (pow2_pos (- e) ltac:(lia)) as HK.
      assert (HK2 : 2 <= 2 ^ (- e)).
      { change 2 with (2 ^ 1) at 1. apply pow2_le. lia. }
      set (q := - (- Zpos m / 2 ^ (- e))).
      assert (Hq : 1 <= q <= Zpos m).
      { unfold q. split.
        - assert (- Zpos m / 2 ^ (- e) < 0); [ | lia].
          apply Z.div_lt_upper_bound; lia.
        - assert (- Zpos m <= - Zpos m / 2 ^ (- e)); [ | lia].
          apply Z.div_le_lower_bound; [lia | nia]. }
      replace (q =? 0) with false by (symmetry; apply Z.eqb_neq; lia).
      change (binary_normalize B64.prec B64.emax q 0 false) with (B64.of_Z q).
      destruct (of_Z_spec q) as (Hwfq & _ & Hnq).
      split; [exact Hwfq | split; [apply Hnq; lia | ]].
      rewrite of_Z_exact by lia.
      f_equal. unfold q. f_equal.
      replace (2 ^ 1074) with (2 ^ (- e) * 2 ^ (e + 1074))
        by (rewrite <- Z.pow_add_r by lia; f_equal; lia).
      replace (- (Zpos m * 2 ^ (e + 1074)))
        with (- Zpos m * 2 ^ (e + 1074)) by lia.
      rewrite Z.div_mul_cancel_r;
        [reflexivity | lia | apply Z.neq_sym, Z.lt_neq, pow2_pos; lia].
Qed.

Lemma ceil_scaled_mono a1 a2 : a1 <= a2 -> ceil_scaled a1 <= ceil_scaled a2.
Proof.
  intros Ha. unfold ceil_scaled.
  assert (HP : 0 < 2 ^ 1074) by reflexivity.
  destruct (2 ^ 2098 <=? a2) eqn:E2.
  - destruct (2 ^ 2098 <=? a1) eqn:E1; [lia | ].
    apply Z.leb_gt in E1.
    (* the ceiling of a value below the top is at most the top, a multiple
       of the unit *)
    assert (- (2 ^ 1024) <= - a1 / 2 ^ 1074).
    { apply Z.div_le_lower_bound; [assumption | ].
      change (2 ^ 1074 * - 2 ^ 1024) with (- 2 ^ 2098). lia. }
    change (2 ^ 2098) with (2 ^ 1024 * 2 ^ 1074).
    apply Z.mul_le_mono_nonneg_r; lia.
  - apply Z.leb_gt in E2.
    replace (2 ^ 2098 <=? a1) with false by (symmetry; apply Z.leb_gt; lia).
    apply Z.mul_le_mono_nonneg_r; [lia | ].
    pose proof (Z.div_le_mono (- a2) (- a1) (2 ^ 1074) HP ltac:(lia)). lia.
Qed.

(** *** Integers against doubles *)

Lemma Zcompare_sc z f :
  Z.abs z < 2 ^ 1024 -> wf f ->
  B64.Zcompare z f = Some (z * 2 ^ 1074 ?= sc f).
Proof.
  intros Hz Hwf.
  assert (HP : 0 < 2 ^ 1074) by reflexivity.
  assert (Htop : Z.abs (z * 2 ^ 1074) < 2 ^ 2098).
  { change (2 ^ 2098) with (2 ^ 1024 * 2 ^ 1074).
    rewrite Z.abs_mul, (Z.abs_eq (2 ^ 1074)) by lia.
    apply Z.mul_lt_mono_pos_r; assumption. }
  destruct f as [s | s | | s m e]; [ | | now destruct Hwf | ];
    cbn [B64.Zcompare sc].
  - f_equal. change 0 with (0 * 2 ^ 1074) at 2.
    now rewrite compare_scaled.
  - destruct s; cbn [cond_Zopp]; compare_goal.
  - destruct (wf_finite _ _ _ Hwf) as (He & _).
    f_equal. destruct (0 <=? e) eqn:Ee.
    + apply Z.leb_le in Ee.
      replace (cond_Zopp s (Zpos m * 2 ^ (e + 1074)))
        with (cond_Zopp s (Zpos m * 2 ^ e) * 2 ^ 1074)
        by (rewrite Z.pow_add_r by lia; destruct s; cbn [cond_Zopp]; lia).
      now rewrite compare_scaled.
    + apply Z.leb_gt in Ee.
      replace (z * 2 ^ 1074) with (z * 2 ^ (- e) * 2 ^ (e + 1074))
        by (rewrite <- Z.mul_assoc, <- Z.pow_add_r by lia;
            do 2 f_equal; lia).
      replace (cond_Zopp s (Zpos m * 2 ^ (e + 1074)))
        with (cond_Zopp s (Zpos m) * 2 ^ (e + 1074))
        by (destruct s; cbn [cond_Zopp]; lia).
      rewrite compare_scaled by (apply pow2_pos; lia). reflexivity.
Qed.

Lemma py_compare_nsc a b :
  wfn a -> wfn b -> py_compare a b = Some (nsc a ?= nsc b).
Proof.
  assert (HP : 0 < 2 ^ 1074) by reflexivity.
  destruct a as [x | f], b as [y | g]; cbn [wfn nsc py_compare];
    intros Ha Hb.
  - now rewrite compare_scaled.
  - now apply Zcompare_sc.
  - rewrite (Zcompare_sc y f Hb Ha). cbn [option_map].
    now rewrite <- Z.compare_antisym.
  - now apply SFcompare_sc.
Qed.

(** * The decision on well-formed numbers *)

Lemma wf_lit_0_90 : wf lit_0_90 /\ positive_finite lit_0_90.
Proof. repeat split. discriminate. Qed.

Lemma wf_lit_1_40 : wf lit_1_40 /\ positive_finite lit_1_40.
Proof. repeat split. discriminate. Qed.

Lemma wf_lit_1_15 : wf lit_1_15 /\ positive_finite lit_1_15.
Proof. repeat split. discriminate. Qed.

Lemma peak_as_double p :
  peak_ok p ->
  exists f, as_double p = ok f /\ wf f /\ nonneg f /\ sc f = nsc p.
Proof.
  destruct p as [z | f]; cbn [peak_ok].
  - intros ->. exists (S754_zero false).
    repeat split. discriminate.
  - intros [Hwf Hn]. exists f. repeat split; try assumption; apply Hwf.
Qed.

Lemma peak_nsc p : peak_ok p -> wfn p /\ 0 <= nsc p <= 2 ^ 2098.
Proof.
  destruct p as [z | f]; cbn [peak_ok wfn nsc].
  - intros ->. repeat split; try reflexivity. discriminate.
  - intros [Hwf Hn]. split; [exact Hwf | now apply nonneg_sc].
Qed.

(** [ceil(peak * multiple)] for a positive finite multiple. *)
Lemma pass_value_sc p c :
  peak_ok p -> wf c -> positive_finite c ->
  exists v,
    (x <- py_mul p (PyFloat c) ;; math_ceil x) = ok (PyFloat v)
    /\ wf v /\ nonneg v
    /\ sc v = pass_value c (nsc p).
Proof.
  intros Hp Hc Hpc.
  destruct (peak_as_double p Hp) as (f & Hf & Hwf & Hn & Hsc).
  destruct (mul_sc f c Hwf Hn Hc Hpc) as (Hwm & Hnm & Hsm).
  destruct (ceil_sc _ Hwm Hnm) as (Hwc & Hnc & Hscc).
  exists (B64.ceil (B64.mul f c)).
  split; [ | split; [exact Hwc | split; [exact Hnc | ]]].
  - unfold py_mul. destruct p as [z | g].
    + rewrite Hf. reflexivity.
    + cbn in Hf. injection Hf as ->. reflexivity.
  - unfold pass_value. now rewrite Hscc, Hsm, Hsc.
Qed.

Lemma mul_wf x c :
  wf x -> (forall s, x <> S754_infinity s) ->
  wf c -> positive_finite c ->
  wf (B64.mul x c).
Proof.
  intros Hx Hfin Hc Hpc.
  destruct c as [ | | | [ | ] mc ec]; try contradiction.
  destruct x as [s | s | | s mx ex].
  - split; [reflexivity | discriminate].
  - now destruct (Hfin s).
  - now destruct Hx.
  - now destruct (mul_finite s mx ex false mc ec Hx Hc).
Qed.

Lemma round_scaled_overflow : round_scaled (2 ^ 1024 * 2 ^ 2148) = 2 ^ 2098.
Proof. vm_compute. reflexivity. Qed.

Lemma top_is_infinite f :
  wf f -> 2 ^ 2098 <= Z.abs (sc f) -> exists s, f = S754_infinity s.
Proof.
  intros Hwf Habs.
  destruct f as [s | s | | s m e].
  - cbn in Habs. exfalso.
    assert (0 < 2 ^ 2098) by reflexivity. lia.
  - now exists s.
  - now destruct Hwf.
  - exfalso. pose proof (finite_below_top _ _ _ Hwf).
    cbn [sc] in Habs. destruct s; cbn [cond_Zopp] in Habs; lia.
Qed.

Lemma of_Z_finite_bound z :
  (forall s, B64.of_Z z <> S754_infinity s) -> Z.abs z < 2 ^ 1024.
Proof.
  intros Hfin.
  destruct (Z.lt_ge_cases (Z.abs z) (2 ^ 1024)) as [ | Hbig];
    [assumption | exfalso].
  destruct (of_Z_spec z) as (Hwf & Hsc & _).
  assert (HP : 0 < 2 ^ 2148) by reflexivity.
  pose proof (round_scaled_mono (2 ^ 1024 * 2 ^ 2148) (Z.abs z * 2 ^ 2148)
                ltac:(nia)) as Hm.
  rewrite round_scaled_overflow in Hm.
  destruct (top_is_infinite _ Hwf) as [s Hs]; [ | now apply (Hfin s)].
  rewrite Hsc, Z.abs_mul.
  assert (Z.abs (Z.sgn z) = 1).
  { assert (0 < 2 ^ 1024) by reflexivity. lia. }
  pose proof (round_scaled_range (Z.abs z * 2 ^ 2148) ltac:(nia)).
  rewrite (Z.abs_eq (round_scaled _)) by lia. lia.
Qed.

Lemma as_double_int z f :
  as_double (PyInt z) = ok f ->
  f = B64.of_Z z /\ (forall s, f <> S754_infinity s).
Proof.
  unfold as_double.
  destruct (B64.of_Z z) eqn:E; intros H; try discriminate H;
    injection H as <-; split; try reflexivity; discriminate.
Qed.

(** The raise limit [currentCapacity * c]. *)
Lemma limit_wf cur c limit :
  wf c -> positive_finite c ->
  py_mul (PyInt cur) (PyFloat c) = ok limit ->
  wfn limit /\ Z.abs cur < 2 ^ 1024
  /\ limit = PyFloat (B64.mul (B64.of_Z cur) c)
  /\ (0 <= cur ->
      nsc limit = mul_scaled (round_scaled (cur * 2 ^ 2148)) (sc c)).
Proof.
  intros Hc Hpc. unfold py_mul.
  destruct (as_double (PyInt cur)) as [e | f] eqn:Ef; [discriminate | ].
  apply as_double_int in Ef. destruct Ef as [-> Hfin].
  cbn [rbind as_double]. unfold ok. intros H. injection H as <-.
  destruct (of_Z_spec cur) as (Hwf & Hsc & Hnn).
  split; [now apply mul_wf | ].
  split; [now apply of_Z_finite_bound | ].
  split; [reflexivity | ].
  intros Hcur. cbn [nsc].
  destruct (mul_sc _ c Hwf (Hnn Hcur) Hc Hpc) as (_ & _ & ->).
  rewrite Hsc. f_equal.
  destruct (Z.eq_dec cur 0) as [-> | ]; [reflexivity | ].
  rewrite Z.sgn_pos, Z.abs_eq by lia. lia.
Qed.

Lemma trunc_scaled m e :
  -1074 <= e ->
  B64.trunc false m e = Zpos m * 2 ^ (e + 1074) / 2 ^ 1074.
Proof.
  intros He. unfold B64.trunc. cbn [cond_Zopp].
  destruct (0 <=? e) eqn:Ee.
  - apply Z.leb_le in Ee.
    rewrite Z.pow_add_r, Z.mul_assoc by lia.
    now rewrite Z.div_mul by (apply Z.neq_sym, Z.lt_neq; reflexivity).
  - apply Z.leb_gt in Ee.
    replace (2 ^ 1074) with (2 ^ (- e) * 2 ^ (e + 1074))
      by (rewrite <- Z.pow_add_r by lia; f_equal; lia).
    rewrite Z.div_mul_cancel_r;
      [reflexivity | | ]; apply Z.neq_sym, Z.lt_neq, pow2_pos; lia.
Qed.

Lemma py_int_scaled v :
  wfn v -> 0 < nsc v < 2 ^ 2098 ->
  py_int v = ok (nsc v / 2 ^ 1074).
Proof.
  intros Hv Ha.
  destruct v as [z | f]; cbn [nsc wfn py_int] in *.
  - now rewrite Z.div_mul by (apply Z.neq_sym, Z.lt_neq; reflexivity).
  - destruct f as [s | s | | s m e]; cbn [sc] in Ha.
    + lia.
    + destruct s; cbn [cond_Zopp] in Ha; lia.
    + now destruct Hv.
    + destruct (wf_finite _ _ _ Hv) as (He & _).
      pose proof (finite_below_top _ _ _ Hv).
      destruct s; cbn [cond_Zopp] in Ha; [lia | ].
      f_equal. now apply trunc_scaled.
Qed.

(** With the source's bounds the clamped value, read as an integer, is
    the clamped integer part. *)
Lemma clamp_value cfg v :
  MINIMUM_CAPACITY cfg = 3 -> MAXIMUM_CAPACITY cfg = 5000 ->
  wfn v ->
  py_int (clamp cfg v) = ok (clampZ cfg (nsc v / 2 ^ 1074)).
Proof.
  intros Hmin Hmax Hv.
  assert (HP : 0 < 2 ^ 1074) by reflexivity.
  assert (Htop : 5000 * 2 ^ 1074 < 2 ^ 2098) by reflexivity.
  unfold clamp, clampZ, py_max, py_min, py_gt, py_lt.
  rewrite Hmin, Hmax.
  assert (H3 : wfn (PyInt 3)) by reflexivity.
  assert (H5 : wfn (PyInt 5000)) by reflexivity.
  rewrite (py_compare_nsc (PyInt 3) v H3 Hv).
  cbn [nsc].
  destruct (Z.lt_ge_cases (nsc v) (3 * 2 ^ 1074)) as [Hlow | Hlow].
  - replace (3 * 2 ^ 1074 ?= nsc v) with Gt
      by (symmetry; apply Z.compare_gt_iff; lia).
    cbn [py_compare Z.compare Pos.compare Pos.compare_cont py_int].
    f_equal.
    assert (nsc v / 2 ^ 1074 < 3) by (apply Z.div_lt_upper_bound; lia).
    lia.
  - assert (Hq3 : 3 <= nsc v / 2 ^ 1074)
      by (apply Z.div_le_lower_bound; lia).
    replace (match 3 * 2 ^ 1074 ?= nsc v with Gt => true | _ => false end)
      with false
      by (destruct (3 * 2 ^ 1074 ?= nsc v) eqn:E; compare_facts;
          try reflexivity; lia).
    rewrite (py_compare_nsc (PyInt 5000) v H5 Hv). cbn [nsc].
    destruct (Z.lt_ge_cases (5000 * 2 ^ 1074) (nsc v)) as [Hhigh | Hhigh].
    + replace (5000 * 2 ^ 1074 ?= nsc v) with Lt
        by (symmetry; apply Z.compare_lt_iff; lia).
      cbn [py_int]. f_equal.
      assert (5000 <= nsc v / 2 ^ 1074)
        by (apply Z.div_le_lower_bound; lia).
      lia.
    + replace (match 5000 * 2 ^ 1074 ?= nsc v with
               | Lt => true
               | _ => false
               end) with false
        by (destruct (5000 * 2 ^ 1074 ?= nsc v) eqn:E; compare_facts;
            try reflexivity; lia).
      rewrite py_int_scaled by (assumption || lia).
      f_equal.
      assert (nsc v / 2 ^ 1074 <= 5000).
      { apply Z.lt_succ_r. apply Z.div_lt_upper_bound; lia. }
      lia.
Qed.

(** Arithmetic goals are handed to [lia] and [nia] with the large powers
    of two replaced by positive unknowns. *)
Ltac hide_power k :=
  let P := fresh "P" in
  let HP := fresh "HP" in
  assert (HP : 0 < 2 ^ k) by (apply pow2_pos, Pos2Z.is_nonneg);
  set (P := 2 ^ k) in *; clearbody P.

Ltac hide_powers :=
  repeat match goal with
    | |- context [2 ^ Zpos ?k] => hide_power (Zpos k)
    | H : context [2 ^ Zpos ?k] |- _ => hide_power (Zpos k)
    end.

(** * Division and the peak loop

    The quotient of two well-formed doubles is a well-formed double, so the
    peak loop yields a peak that satisfies [peak_ok]. *)

Lemma shr_1_m mrs : 0 <= shr_m mrs -> shr_m (shr_1 mrs) = shr_m mrs / 2.
Proof.
  destruct mrs as [m r s]. cbn [shr_m]. intros Hm.
  destruct m as [ | p | p]; [reflexivity | | lia].
  destruct p as [p | p | ]; cbn [shr_1 shr_m].
  - rewrite Pos2Z.inj_xI. apply (Z.div_unique _ 2 _ 1); lia.
  - rewrite Pos2Z.inj_xO. apply (Z.div_unique _ 2 _ 0); lia.
  - reflexivity.
Qed.

Lemma shr_iter_m n mrs :
  0 <= shr_m mrs ->
  shr_m (Nat.iter n shr_1 mrs) = shr_m mrs / 2 ^ Z.of_nat n.
Proof.
  intros Hm. induction n as [ | n IH].
  - cbn [Nat.iter Z.of_nat]. change (2 ^ 0) with 1. now rewrite Z.div_1_r.
  - change (Nat.iter (S n) shr_1 mrs) with (shr_1 (Nat.iter n shr_1 mrs)).
    rewrite shr_1_m.
    + rewrite IH, Nat2Z.inj_succ, Z.pow_succ_r by lia.
      rewrite Z.div_div by (try apply pow2_pos; lia).
      f_equal. lia.
    + rewrite IH. apply Z.div_pos; [assumption | apply pow2_pos; lia].
Qed.

Lemma shr_m_shr mrs e n :
  0 <= shr_m mrs -> 0 <= n ->
  shr_m (fst (shr mrs e n)) = shr_m mrs / 2 ^ n
  /\ snd (shr mrs e n) = e + n.
Proof.
  intros Hm Hn. destruct n as [ | p | p]; [ | | lia]; cbn [shr fst snd].
  - change (2 ^ 0) with 1. rewrite Z.div_1_r. split; [reflexivity | lia].
  - split; [ | reflexivity].
    rewrite iter_pos_nat, shr_iter_m by assumption.
    now rewrite positive_nat_Z.
Qed.

Lemma round_nearest_even_bounds m l :
  m <= round_nearest_even m l <= m + 1.
Proof.
  destruct l as [ | [ | | ]]; cbn [round_nearest_even];
    try destruct (Z.even m); lia.
Qed.

Lemma shift_quotient m e :
  0 <= m ->
  let E := fexp 53 1024 (bits m + e) in
  e <= E ->
  0 <= m / 2 ^ (E - e) < 2 ^ 53
  /\ (-1074 < E -> 2 ^ 52 <= m / 2 ^ (E - e)).
Proof.
  intros Hm. destruct m as [ | p | p]; [ | | lia].
  - cbv zeta. rewrite bits_0, fexp_eq. intros He.
    rewrite Z.div_0_l by (apply Z.pow_nonzero; lia).
    split; [split; [lia | reflexivity] | lia].
  - exact (first_shift_quotient p e).
Qed.

(** Rounding from any location gives a well-formed double. *)
Lemma binary_round_aux_wf s m e l :
  0 <= m ->
  e <= fexp 53 1024 (bits m + e) ->
  wf (binary_round_aux 53 1024 s m e l)
  /\ (s = false -> nonneg (binary_round_aux 53 1024 s m e l)).
Proof.
  intros Hm He.
  remember (binary_round_aux 53 1024 s m e l) as r eqn:Er.
  unfold binary_round_aux in Er.
  set (E := fexp 53 1024 (bits m + e)) in *.
  assert (HE : -1074 <= E) by (unfold E; rewrite fexp_eq; lia).
  unfold shr_fexp at 1 in Er.
  change (Zdigits2 m) with (bits m) in Er. fold E in Er.
  assert (Hsm : shr_m (shr_record_of_loc m l) = m)
    by (destruct l as [ | [ | | ]]; reflexivity).
  destruct (shr_m_shr (shr_record_of_loc m l) e (E - e)
              ltac:(rewrite Hsm; exact Hm) ltac:(lia)) as [Hq He'].
  rewrite Hsm in Hq.
  destruct (shr (shr_record_of_loc m l) e (E - e)) as [mrs' e'].
  cbn [fst snd] in Hq, He'.
  replace e' with E in Er by lia. clear e' He'.
  pose proof (round_nearest_even_bounds (shr_m mrs') (loc_of_shr_record mrs'))
    as Hr.
  pose proof (shift_quotient m e Hm He) as [Hq0 Hnorm].
  fold E in Hq0, Hnorm.
  set (q := round_nearest_even (shr_m mrs') (loc_of_shr_record mrs')) in *.
  set (Q := m / 2 ^ (E - e)) in *.
  assert (Hnorm' : -1074 < E -> 2 ^ 52 <= q)
    by (intros H; specialize (Hnorm H); lia).
  destruct (second_shift q E HE ltac:(lia) Hnorm')
    as (_ & Hm2 & He2 & Hcan).
  destruct (shr_fexp 53 1024 q E loc_Exact) as [mrs'' e''].
  cbn [fst snd] in Hm2, He2, Hcan.
  destruct (shr_m mrs'') as [ | m2 | m2]; [ | | lia]; subst r.
  - repeat split; try discriminate.
  - specialize (Hcan ltac:(lia)).
    destruct (e'' <=? 1024 - 53) eqn:Ee.
    + apply Z.leb_le in Ee.
      repeat split; try discriminate.
      * unfold B64.valid, valid_binary, bounded, canonical_mantissa.
        change (Zpos (digits2_pos m2)) with (bits (Zpos m2)).
        apply andb_true_intro. split; [apply Z.eqb_eq | apply Z.leb_le];
          assumption.
      * intros ->. reflexivity.
    + repeat split; try discriminate. intros ->. reflexivity.
Qed.

(** The mantissa and exponent the division hands to the rounding. *)
Lemma div_core_is_fine m1 e1 m2 e2 :
  let r := SFdiv_core_binary 53 1024 (Zpos m1) e1 (Zpos m2) e2 in
  let q := fst (fst r) in
  let e := snd (fst r) in
  0 <= q /\ e <= fexp 53 1024 (bits q + e).
Proof.
  cbv zeta. unfold SFdiv_core_binary.
  change (Zdigits2 (Zpos m1)) with (bits (Zpos m1)).
  change (Zdigits2 (Zpos m2)) with (bits (Zpos m2)).
  pose proof (bits_spec (Zpos m1) ltac:(lia)) as H1.
  pose proof (bits_spec (Zpos m2) ltac:(lia)) as H2.
  pose proof (bits_pos (Zpos m1) ltac:(lia)) as Hd1.
  pose proof (bits_pos (Zpos m2) ltac:(lia)) as Hd2.
  set (d1 := bits (Zpos m1)) in *. set (d2 := bits (Zpos m2)) in *.
  set (e' := Z.min (fexp 53 1024 (d1 + e1 - (d2 + e2))) (e1 - e2)).
  set (s := e1 - e2 - e').
  assert (Hs : 0 <= s) by (unfold s, e'; lia).
  assert (Hm' : match s with
                | Zpos _ => Z.shiftl (Zpos m1) s
                | 0 => Zpos m1
                | Zneg _ => 0
                end = Zpos m1 * 2 ^ s).
  { destruct s as [ | p | p] eqn:Es; [ | | lia].
    - change (2 ^ 0) with 1. lia.
    - rewrite Z.shiftl_mul_pow2 by lia. reflexivity. }
  rewrite Hm'. clear Hm'.
  pose proof (Z_div_mod (Zpos m1 * 2 ^ s) (Zpos m2) ltac:(lia)) as Hdm.
  destruct (Z.div_eucl (Zpos m1 * 2 ^ s) (Zpos m2)) as [q r].
  destruct Hdm as [Hdm Hr]. cbn [fst snd].
  pose proof (pow2_pos s Hs) as HP.
  assert (Hq : 0 <= q) by nia.
  split; [exact Hq | ].
  rewrite fexp_eq.
  assert (He' : e' <= Z.max (d1 + e1 - (d2 + e2) - 53) (-1074))
    by (unfold e'; rewrite fexp_eq; lia).
  destruct (Z.eq_dec q 0) as [-> | Hq0].
  - rewrite bits_0.
    (* the quotient vanished: the dividend is below the divisor *)
    assert (Hlt : Zpos m1 * 2 ^ s < Zpos m2) by lia.
    assert (Hpow : 2 ^ (d1 - 1 + s) < 2 ^ d2).
    { rewrite Z.pow_add_r by lia. nia. }
    assert (d1 - 1 + s < d2).
    { destruct (Z.lt_ge_cases (d1 - 1 + s) d2) as [ | Hge]; [assumption | ].
      pose proof (pow2_le d2 (d1 - 1 + s) ltac:(lia)). lia. }
    unfold s in *. lia.
  - assert (Hb : d1 + s - d2 <= bits q).
    { destruct (Z.le_gt_cases (d1 + s - d2) 1) as [ | Hk].
      - pose proof (bits_pos q ltac:(lia)). lia.
      - (* 2^(d1+s-d2-1) <= q *)
        assert (Hlow : 2 ^ (d1 + s - d2 - 1) <= q).
        { assert (Hsplit : 2 ^ (d1 - 1 + s)
                           = 2 ^ (d1 + s - d2 - 1) * 2 ^ d2).
          { rewrite <- Z.pow_add_r by lia. f_equal. lia. }
          assert (Hnum : 2 ^ (d1 - 1 + s) <= Zpos m1 * 2 ^ s).
          { rewrite Z.pow_add_r by lia. nia. }
          pose proof (pow2_pos (d1 + s - d2 - 1) ltac:(lia)) as HK.
          set (K := 2 ^ (d1 + s - d2 - 1)) in *.
          destruct (Z.lt_ge_cases q K) as [Hlt | ]; [exfalso | assumption].
          assert (Zpos m2 * q + r < Zpos m2 * K) by nia.
          nia. }
        destruct (Z.lt_ge_cases (bits q) (d1 + s - d2)) as [Hlt | ];
          [exfalso | lia].
        pose proof (bits_spec q ltac:(lia)) as [_ Hup].
        pose proof (bits_pos q ltac:(lia)).
        pose proof (pow2_le (bits q) (d1 + s - d2 - 1) ltac:(lia)). lia. }
    unfold s in *. lia.
Qed.

Lemma div_wf x y :
  wf x -> wf y -> is_zero y = false ->
  (forall s, y <> S754_infinity s) ->
  wf (B64.div x y)
  /\ (nonneg x -> nonneg y -> nonneg (B64.div x y)).
Proof.
  intros Hx Hy Hz Hinf.
  destruct y as [sy | sy | | sy my ey]; try discriminate Hz.
  - now destruct (Hinf sy).
  - now destruct Hy.
  - destruct x as [sx | sx | | sx mx ex].
    + split; [split; [reflexivity | discriminate] | ]. intros _ _. exact I.
    + split; [split; [reflexivity | discriminate] | ].
      cbn [nonneg]. intros -> ->. reflexivity.
    + now destruct Hx.
    + unfold B64.div, B64.prec, B64.emax, SFdiv.
      pose proof (div_core_is_fine mx ex my ey) as Hfine. cbv zeta in Hfine.
      destruct (SFdiv_core_binary 53 1024 (Zpos mx) ex (Zpos my) ey)
        as [[mz ez] lz].
      cbn [fst snd] in Hfine. destruct Hfine as [Hq He].
      destruct (binary_round_aux_wf (xorb sx sy) mz ez lz Hq He) as [Hw Hn].
      split; [exact Hw | ].
      cbn [nonneg]. intros -> ->. now apply Hn.
Qed.

Lemma positive_is_nonneg f : wf f -> 0 < sc f -> nonneg f.
Proof.
  intros Hwf Hpos. destruct f as [s | s | | s m e]; cbn [nonneg].
  - exact I.
  - destruct s; [ | reflexivity]. cbn in Hpos. discriminate Hpos.
  - now destruct Hwf.
  - destruct s; [ | reflexivity]. cbn [sc cond_Zopp] in Hpos.
    pose proof (pow2_pos (e + 1074)) as HP.
    destruct Hwf as [Hv _].
    unfold B64.valid, valid_binary, bounded, canonical_mantissa in Hv.
    apply andb_prop in Hv as [Hc _]. apply Z.eqb_eq in Hc.
    rewrite fexp_eq in Hc. specialize (HP ltac:(lia)). nia.
Qed.

Lemma nan_or_wf f : B64.valid f = true -> f = S754_nan \/ wf f.
Proof.
  intros Hv. destruct f; [right | right | left | right];
    try reflexivity; (split; [exact Hv | discriminate]).
Qed.

Lemma div_nan y : B64.div S754_nan y = S754_nan.
Proof. reflexivity. Qed.

Lemma py_compare_nan p : py_compare (PyFloat S754_nan) p = None.
Proof.
  destruct p as [z | f]; cbn [py_compare SFcompare].
  - destruct z; reflexivity.
  - reflexivity.
Qed.

(** The peak loop keeps its invariant: started from a peak that is the
    integer zero or a non-negative well-formed double, on samples whose
    sums are binary64 values, it returns such a peak.  A NaN quotient
    compares false with every peak and is never kept. *)
Lemma peak_loop_ok cfg datapoints p0 p :
  doubles datapoints ->
  peak_ok p0 ->
  peak_loop cfg datapoints p0 = ok p ->
  peak_ok p.
Proof.
  intros Hall. revert p0.
  induction Hall as [ | d rest Hd _ IH]; intros p0 H0; cbn [peak_loop].
  - intros H. injection H as <-. exact H0.
  - unfold py_div.
    destruct (as_double (PyFloat (Sum d))) as [ | x] eqn:Ex;
      [discriminate Ex | ].
    injection Ex as <-. cbn [rbind].
    destruct (as_double (PyInt (SECONDS_PER_DATA_POINT cfg))) as [ | y] eqn:Ey;
      cbn [rbind]; [discriminate | ].
    apply as_double_int in Ey as [-> Hfin].
    destruct (is_zero (B64.of_Z (SECONDS_PER_DATA_POINT cfg))) eqn:Ez;
      cbn [rbind]; [discriminate | ].
    apply IH.
    destruct (of_Z_spec (SECONDS_PER_DATA_POINT cfg)) as (Hwy & _).
    unfold py_max, py_gt.
    destruct (nan_or_wf (Sum d) Hd) as [-> | Hwd].
    { rewrite div_nan, py_compare_nan. exact H0. }
    destruct (div_wf _ _ Hwd Hwy Ez Hfin) as [Hw _].
    rewrite py_compare_nsc;
      [ | exact Hw | exact (proj1 (peak_nsc _ H0))].
    destruct (_ ?= _) eqn:Ec; try exact H0.
    apply Z.compare_gt_iff in Ec.
    pose proof (proj2 (peak_nsc _ H0)).
    split; [exact Hw | apply positive_is_nonneg; [exact Hw | ]].
    cbn [nsc] in Ec. lia.
Qed.

(** A peak computed by an evaluation is the integer zero or a
    non-negative well-formed double. *)
Lemma unit_evaluation_peak_ok cfg aws tp readPts writePts s d :
  unit_evaluation cfg aws tp readPts writePts s ->
  doubles (window d readPts writePts) ->
  peak_ok (peak d s).
Proof.
  intros Hu Hall.
  apply (peak_loop_ok cfg (window d readPts writePts) (PyInt 0));
    [exact Hall | reflexivity | ].
  now apply unit_evaluation_peak with (1 := Hu).
Qed.

(** * The evaluation returns

    With capacities and a bucket length far below the range of a double,
    every step of the evaluation of a unit returns. *)

Lemma round_scaled_half_top : round_scaled (2 ^ 1023 * 2 ^ 2148) = 2 ^ 2097.
Proof. vm_compute. reflexivity. Qed.

Lemma round_scaled_one : round_scaled (1 * 2 ^ 2148) = 2 ^ 1074.
Proof. vm_compute. reflexivity. Qed.

Lemma of_Z_finite z :
  Z.abs z < 2 ^ 1023 -> forall s, B64.of_Z z <> S754_infinity s.
Proof.
  intros Hz s E.
  destruct (of_Z_spec z) as (_ & Hsc & _).
  rewrite E in Hsc. cbn [sc] in Hsc.
  assert (Hv : 0 <= Z.abs z * 2 ^ 2148 <= 2 ^ 1023 * 2 ^ 2148)
    by (hide_powers; nia).
  pose proof (round_scaled_mono _ _ Hv) as Hm.
  rewrite round_scaled_half_top in Hm.
  pose proof (round_scaled_range (Z.abs z * 2 ^ 2148) (proj1 Hv)) as [H0 _].
  assert (Htop : 2 ^ 2097 < 2 ^ 2098) by (apply pow2_lt; lia).
  set (r := round_scaled (Z.abs z * 2 ^ 2148)) in *. clearbody r.
  clear Hv Hz. hide_powers.
  destruct s; cbn [cond_Zopp] in Hsc; nia.
Qed.

Lemma of_Z_not_zero z : z <> 0 -> is_zero (B64.of_Z z) = false.
Proof.
  intros Hz.
  destruct (of_Z_spec z) as (_ & Hsc & _).
  destruct (B64.of_Z z) as [s | s | | s m e] eqn:E; try reflexivity.
  exfalso. cbn [sc] in Hsc.
  assert (Hv : 0 <= 1 * 2 ^ 2148 <= Z.abs z * 2 ^ 2148)
    by (hide_powers; nia).
  pose proof (round_scaled_mono _ _ Hv) as Hm.
  rewrite round_scaled_one in Hm.
  set (r := round_scaled (Z.abs z * 2 ^ 2148)) in *. clearbody r.
  clear Hv. hide_powers. nia.
Qed.

Lemma as_double_int_returns z :
  Z.abs z < 2 ^ 1023 -> as_double (PyInt z) = ok (B64.of_Z z).
Proof.
  intros Hz. pose proof (of_Z_finite z Hz) as Hfin.
  unfold as_double. destruct (B64.of_Z z) as [s | s | | s m e];
    try reflexivity.
  now destruct (Hfin s).
Qed.

Lemma peak_loop_returns cfg datapoints p0 :
  SECONDS_PER_DATA_POINT cfg <> 0 ->
  Z.abs (SECONDS_PER_DATA_POINT cfg) < 2 ^ 1023 ->
  exists p, peak_loop cfg datapoints p0 = ok p.
Proof.
  intros Hnz Hsmall. revert p0.
  induction datapoints as [ | d rest IH]; intros p0; cbn [peak_loop].
  - now exists p0.
  - unfold py_div. rewrite (as_double_int_returns _ Hsmall).
    unfold as_double, ok. cbn [rbind].
    rewrite (of_Z_not_zero _ Hnz). cbn [rbind].
    apply IH.
Qed.

(** The decision with the source's constants, as arithmetic on scaled
    values: the integer sent to the service is the clamped integer part of
    [unclamped]. *)
Lemma decision_sem cfg dec cur p a :
  source_constants cfg -> peak_ok p ->
  decision cfg dec cur p = ok a ->
  exists limit,
    py_mul (PyInt cur) (PyFloat lit_0_90) = ok limit
    /\ wfn limit
    /\ py_int a
       = ok (clampZ cfg
               (unclamped (lower_pass_fires cfg dec) cur (nsc limit) (nsc p)
                / 2 ^ 1074)).
Proof.
  intros (HRT & HRM & HLM & Hmin & Hmax) Hp D.
  apply decision_outcome in D.
  destruct D as (limit & Hlimit & Hout).
  rewrite HRT in Hlimit.
  destruct wf_lit_0_90 as [W90 P90].
  destruct wf_lit_1_40 as [W140 P140].
  destruct wf_lit_1_15 as [W115 P115].
  destruct (limit_wf _ _ _ W90 P90 Hlimit) as (Hwl & Hcur & _ & _).
  destruct (peak_nsc p Hp) as [Hwp _].
  exists limit. split; [exact Hlimit | split; [exact Hwl | ]].
  unfold py_gt in Hout. rewrite (py_compare_nsc p limit Hwp Hwl) in Hout.
  unfold unclamped.
  destruct (nsc p ?= nsc limit) eqn:E; compare_facts.
  - replace (nsc limit <? nsc p) with false
      by (symmetry; apply Z.ltb_ge; lia).
    destruct Hout as (v & Hv & ->). unfold after_lower_pass in Hv.
    destruct (lower_pass_fires cfg dec).
    + unfold lower_value in Hv. rewrite HLM in Hv.
      destruct (pass_value_sc p lit_1_15 Hp W115 P115)
        as (v' & Hv' & Hwv & _ & Hsv).
      rewrite Hv' in Hv. injection Hv as <-.
      rewrite (clamp_value cfg (PyFloat v') Hmin Hmax Hwv). cbn [nsc].
      now rewrite Hsv.
    + injection Hv as <-.
      now rewrite (clamp_value cfg (PyInt cur) Hmin Hmax Hcur).
  - replace (nsc limit <? nsc p) with false
      by (symmetry; apply Z.ltb_ge; lia).
    destruct Hout as (v & Hv & ->). unfold after_lower_pass in Hv.
    destruct (lower_pass_fires cfg dec).
    + unfold lower_value in Hv. rewrite HLM in Hv.
      destruct (pass_value_sc p lit_1_15 Hp W115 P115)
        as (v' & Hv' & Hwv & _ & Hsv).
      rewrite Hv' in Hv. injection Hv as <-.
      rewrite (clamp_value cfg (PyFloat v') Hmin Hmax Hwv). cbn [nsc].
      now rewrite Hsv.
    + injection Hv as <-.
      now rewrite (clamp_value cfg (PyInt cur) Hmin Hmax Hcur).
  - replace (nsc limit <? nsc p) with true
      by (symmetry; apply Z.ltb_lt; lia).
    destruct Hout as (v & Hv & ->).
    unfold raise_value in Hv. rewrite HRM in Hv.
    destruct (pass_value_sc p lit_1_40 Hp W140 P140)
      as (v' & Hv' & Hwv & _ & Hsv).
    rewrite Hv' in Hv. injection Hv as <-.
    rewrite (clamp_value cfg (PyFloat v') Hmin Hmax Hwv). cbn [nsc].
    now rewrite Hsv.
Qed.

(** *** The decision returns *)

Lemma decision_returns cfg dec cur p :
  source_constants cfg -> peak_ok p -> Z.abs cur < 2 ^ 1023 ->
  exists a z, decision cfg dec cur p = ok a /\ py_int a = ok z.
Proof.
  intros Hc Hp Hcur.
  assert (exists a, decision cfg dec cur p = ok a) as [a Ha].
  { destruct Hc as (HRT & HRM & HLM & _ & _).
    destruct wf_lit_1_40 as [W140 P140].
    destruct wf_lit_1_15 as [W115 P115].
    destruct (pass_value_sc p lit_1_15 Hp W115 P115) as (vl & Hvl & _).
    destruct (pass_value_sc p lit_1_40 Hp W140 P140) as (vr & Hvr & _).
    unfold decision, lower_value, raise_value, raise_pass_fires.
    rewrite HRT, HRM, HLM, Hvl, Hvr.
    unfold py_mul at 1. rewrite (as_double_int_returns _ Hcur).
    unfold as_double, ok. cbn [rbind].
    destruct (lower_pass_fires cfg dec); cbn [rbind];
      destruct (py_gt p _); cbn [rbind]; eexists; reflexivity. }
  exists a.
  destruct (decision_sem cfg dec cur p a Hc Hp Ha) as (limit & _ & _ & Hint).
  eexists. split; [exact Ha | exact Hint].
Qed.

(** *** Units are processed to their end

    With the source's decision constants, a bucket length that is not zero,
    sample sums that are binary64 values and capacities far below the
    range of a double, the evaluation of every unit returns and the unit is
    processed to its last line. *)

Section Returns.

Variable cfg : Config.
Variable aws : AWS.
Variable float_str : spec_float -> string.

Hypothesis constants : source_constants cfg.
Hypothesis bucket_not_zero : SECONDS_PER_DATA_POINT cfg <> 0.
Hypothesis bucket_small : Z.abs (SECONDS_PER_DATA_POINT cfg) < 2 ^ 1023.
Hypothesis sums_are_doubles : service_doubles cfg aws.

Lemma peak_returns metric dimensions :
  exists p,
    peak_loop cfg (samples cfg aws metric dimensions) (PyInt 0) = ok p
    /\ peak_ok p.
Proof.
  destruct (peak_loop_returns cfg (samples cfg aws metric dimensions)
              (PyInt 0) bucket_not_zero bucket_small) as [p Hp].
  exists p. split; [exact Hp | ].
  apply (peak_loop_ok cfg _ (PyInt 0) p
           (sums_are_doubles metric dimensions));
    [reflexivity | exact Hp].
Qed.

Lemma table_evaluation_returns tableName :
  let tp := provisioned_throughput (Table aws tableName) in
  Z.abs (ReadCapacityUnits tp) < 2 ^ 1023 ->
  Z.abs (WriteCapacityUnits tp) < 2 ^ 1023 ->
  exists s r w,
    adjustTableCapacity_locals cfg aws tableName = ok s
    /\ py_int (adjustedReadCapacity s) = ok r
    /\ py_int (adjustedWriteCapacity s) = ok w.
Proof.
  cbv zeta. intros Hr Hw.
  destruct (peak_returns ConsumedReadCapacityUnits (table_dimensions tableName))
    as (pr & Lr & Pr).
  destruct (peak_returns ConsumedWriteCapacityUnits (table_dimensions tableName))
    as (pw & Lw & Pw).
  destruct (decision_returns cfg
              (NumberOfDecreasesToday (provisioned_throughput (Table aws tableName)))
              _ pr constants Pr Hr) as (ar & r & Dr & Ir).
  destruct (decision_returns cfg
              (NumberOfDecreasesToday (provisioned_throughput (Table aws tableName)))
              _ pw constants Pw Hw) as (aw & w & Dw & Iw).
  destruct (table_locals_returns cfg aws tableName pr pw ar aw Lr Lw Dr Dw)
    as (s & Hs & <- & <-).
  now exists s, r, w.
Qed.

Lemma index_evaluation_returns tableName secondaryIndex :
  let tp := ProvisionedThroughput secondaryIndex in
  Z.abs (ReadCapacityUnits tp) < 2 ^ 1023 ->
  Z.abs (WriteCapacityUnits tp) < 2 ^ 1023 ->
  exists s r w,
    adjustTableIndexCapacities_locals cfg aws tableName secondaryIndex = ok s
    /\ py_int (adjustedReadCapacity s) = ok r
    /\ py_int (adjustedWriteCapacity s) = ok w.
Proof.
  cbv zeta. intros Hr Hw.
  destruct (peak_returns ConsumedReadCapacityUnits
              (index_dimensions tableName (IndexName secondaryIndex)))
    as (pr & Lr & Pr).
  destruct (peak_returns ConsumedWriteCapacityUnits
              (index_dimensions tableName (IndexName secondaryIndex)))
    as (pw & Lw & Pw).
  destruct (decision_returns cfg
              (NumberOfDecreasesToday (ProvisionedThroughput secondaryIndex))
              _ pr constants Pr Hr) as (ar & r & Dr & Ir).
  destruct (decision_returns cfg
              (NumberOfDecreasesToday (ProvisionedThroughput secondaryIndex))
              _ pw constants Pw Hw) as (aw & w & Dw & Iw).
  destruct (index_locals_returns cfg aws tableName secondaryIndex
              pr pw ar aw Lr Lw Dr Dw) as (s & Hs & <- & <-).
  now exists s, r, w.
Qed.

Lemma table_run_completes tableName :
  let tp := provisioned_throughput (Table aws tableName) in
  Z.abs (ReadCapacityUnits tp) < 2 ^ 1023 ->
  Z.abs (WriteCapacityUnits tp) < 2 ^ 1023 ->
  exists evs, adjustTableCapacity cfg aws float_str tableName = (evs, ok tt).
Proof.
  cbv zeta. intros Hr Hw.
  destruct (table_evaluation_returns tableName Hr Hw)
    as (s & r & w & Hs & Ir & Iw).
  unfold adjustTableCapacity. rewrite Hs.
  unfold sendEmailNotification, when, emit, io_lift, io_ret, io_bind, ok
    in *.
  cbv beta iota. rewrite Ir, Iw.
  destruct (readWasUpdated s || writeWasUpdated s);
    destruct (notify_condition cfg s); eexists; reflexivity.
Qed.

Lemma index_run_completes tableName secondaryIndex :
  let tp := ProvisionedThroughput secondaryIndex in
  Z.abs (ReadCapacityUnits tp) < 2 ^ 1023 ->
  Z.abs (WriteCapacityUnits tp) < 2 ^ 1023 ->
  exists evs,
    adjustTableIndexCapacities_body cfg aws float_str tableName secondaryIndex
    = (evs, ok tt).
Proof.
  cbv zeta. intros Hr Hw.
  destruct (index_evaluation_returns tableName secondaryIndex Hr Hw)
    as (s & r & w & Hs & Ir & Iw).
  unfold adjustTableIndexCapacities_body. cbv zeta. rewrite Hs.
  unfold sendEmailNotification, when, emit, io_lift, io_ret, io_bind, ok
    in *.
  cbv beta iota. rewrite Ir, Iw.
  destruct (readWasUpdated s || writeWasUpdated s);
    destruct (notify_condition cfg s); eexists; reflexivity.
Qed.

Lemma for_each_completes {A} (xs : list A) (body : A -> io unit) :
  Forall (fun x => exists evs, body x = (evs, ok tt)) xs ->
  exists evs, for_each xs body = (evs, ok tt).
Proof.
  induction 1 as [ | x rest [evs Hx] _ [evs' IH]]; cbn [for_each].
  - now exists [].
  - rewrite Hx, IH. unfold io_bind, ok. eexists; reflexivity.
Qed.

(** The whole handler runs to its end when every table and every index
    has capacities in that range. *)
Lemma lambda_handler_completes :
  Forall (fun tableName =>
            let dynamodb := Table aws tableName in
            let tp := provisioned_throughput dynamodb in
            Z.abs (ReadCapacityUnits tp) < 2 ^ 1023
            /\ Z.abs (WriteCapacityUnits tp) < 2 ^ 1023
            /\ forall indexes,
                global_secondary_indexes dynamodb = Some indexes ->
                Forall (fun ix =>
                          Z.abs (ReadCapacityUnits (ProvisionedThroughput ix))
                          < 2 ^ 1023
                          /\ Z.abs (WriteCapacityUnits (ProvisionedThroughput ix))
                             < 2 ^ 1023) indexes)
         (list_tables aws) ->
  exists evs, lambda_handler cfg aws float_str = (evs, ok tt).
Proof.
  intros Hall. unfold lambda_handler. apply for_each_completes.
  apply Forall_impl with (2 := Hall). cbv zeta.
  intros tableName (Hr & Hw & Hix).
  destruct (table_run_completes tableName Hr Hw) as [evs ->].
  assert (exists evs', adjustTableIndexCapacities cfg aws float_str tableName
                       = (evs', ok tt)) as [evs' ->].
  { unfold adjustTableIndexCapacities. cbv zeta.
    destruct (global_secondary_indexes (Table aws tableName))
      as [indexes | ] eqn:E.
    - assert (exists evs', for_each indexes
                (adjustTableIndexCapacities_body cfg aws float_str tableName)
              = (evs', ok tt)) as [evs' ->].
      { apply for_each_completes.
        apply Forall_impl with (2 := Hix indexes eq_refl).
        intros ix [Hir Hiw]. now apply index_run_completes. }
      unfold emit, io_bind, ok. eexists; reflexivity.
    - unfold emit. eexists; reflexivity. }
  unfold io_bind, ok. eexists; reflexivity.
Qed.

(** The peaks of a processed unit satisfy [peak_ok]. *)
Lemma unit_run_peak_ok s evs d :
  unit_run cfg aws float_str s evs -> peak_ok (peak d s).
Proof.
  intros [tableName s' evs' Hs _ | tableName ix s' evs' Hs _].
  - apply (unit_evaluation_peak_ok cfg aws _ _ _ s' d
             (evaluation_of_table cfg aws tableName s' Hs)).
    destruct d; apply sums_are_doubles.
  - apply (unit_evaluation_peak_ok cfg aws _ _ _ s' d
             (evaluation_of_index cfg aws tableName ix s' Hs)).
    destruct d; apply sums_are_doubles.
Qed.

End Returns.

(** *** Monotonicity of the two passes *)

Lemma pass_value_mono c1 c2 a1 a2 :
  0 <= sc c1 <= sc c2 -> 0 <= a1 <= a2 ->
  pass_value c1 a1 <= pass_value c2 a2.
Proof.
  intros Hc Ha. unfold pass_value.
  apply ceil_scaled_mono. now apply mul_scaled_mono.
Qed.

Lemma multipliers_ordered : 0 <= sc lit_1_15 <= sc lit_1_40.
Proof. split; vm_compute; discriminate. Qed.

Lemma clampZ_mono cfg a b : a <= b -> clampZ cfg a <= clampZ cfg b.
Proof. unfold clampZ. lia. Qed.

Lemma scaled_div_mono a b : a <= b -> a / 2 ^ 1074 <= b / 2 ^ 1074.
Proof. intros. apply Z.div_le_mono; [reflexivity | assumption]. Qed.

(** *** The raise pass never lowers a capacity within range *)

Lemma raise_covers_all : forallb raise_covers (capacities_up_to 5000) = true.
Proof. vm_compute. reflexivity. Qed.

Lemma raise_covers_in_range cur :
  0 <= cur <= 5000 -> cur * 2 ^ 1074 <= sc (raise_floor cur).
Proof.
  intros Hc.
  pose proof raise_covers_all as H.
  rewrite forallb_forall in H.
  specialize (H cur).
  apply Z.leb_le. apply H.
  unfold capacities_up_to. apply in_map_iff.
  exists (Z.to_nat cur). split; [lia | ].
  apply in_seq. lia.
Qed.

(** The raise limit of a non-negative capacity, on the scale. *)
Lemma limit_scaled_mono c1 c2 :
  0 <= c1 <= c2 ->
  mul_scaled (round_scaled (c1 * 2 ^ 2148)) (sc lit_0_90)
  <= mul_scaled (round_scaled (c2 * 2 ^ 2148)) (sc lit_0_90).
Proof.
  intros Hc.
  assert (HP : 0 < 2 ^ 2148) by reflexivity.
  apply mul_scaled_mono.
  - split; [apply round_scaled_range; nia | apply round_scaled_mono; nia].
  - split; [vm_compute; discriminate | lia].
Qed.

Lemma raise_floor_sc cur :
  0 <= cur ->
  sc (raise_floor cur)
  = pass_value lit_1_40
      (mul_scaled (round_scaled (cur * 2 ^ 2148)) (sc lit_0_90)).
Proof.
  intros Hc. unfold raise_floor, pass_value.
  destruct wf_lit_0_90 as [W90 P90].
  destruct wf_lit_1_40 as [W140 P140].
  destruct (of_Z_spec cur) as (Hwf & Hsc & Hnn).
  destruct (mul_sc _ lit_0_90 Hwf (Hnn Hc) W90 P90) as (Hw1 & Hn1 & Hs1).
  destruct (mul_sc _ lit_1_40 Hw1 Hn1 W140 P140) as (Hw2 & Hn2 & Hs2).
  destruct (ceil_sc _ Hw2 Hn2) as (_ & _ & Hs3).
  rewrite Hs3, Hs2, Hs1, Hsc.
  do 3 f_equal.
  destruct (Z.eq_dec cur 0) as [-> | ]; [reflexivity | ].
  rewrite Z.sgn_pos, Z.abs_eq by lia. lia.
Qed.

(** A peak above the raise limit of [cur] is raised to at least the
    clamped [cur]. *)
Lemma raise_lifts cfg cur limit a :
  MINIMUM_CAPACITY cfg = 3 -> MAXIMUM_CAPACITY cfg = 5000 ->
  py_mul (PyInt cur) (PyFloat lit_0_90) = ok limit ->
  nsc limit < a -> 0 <= a ->
  clampZ cfg cur <= clampZ cfg (pass_value lit_1_40 a / 2 ^ 1074).
Proof.
  intros Hmin Hmax Hlimit Hfires Ha.
  destruct (Z.le_gt_cases cur 3) as [Hsmall | Hbig].
  - unfold clampZ. rewrite Hmin, Hmax. lia.
  - destruct wf_lit_0_90 as [W90 P90].
    destruct (limit_wf _ _ _ W90 P90 Hlimit) as (_ & _ & _ & Hn).
    specialize (Hn ltac:(lia)).
    set (c := Z.min cur 5000).
    assert (Hc : 0 <= c <= 5000) by lia.
    pose proof (limit_scaled_mono c cur ltac:(lia)) as Hlim.
    pose proof (raise_covers_in_range c Hc) as Hcov.
    rewrite (raise_floor_sc c ltac:(lia)) in Hcov.
    assert (HP : 0 < 2 ^ 2148) by reflexivity.
    pose proof (round_scaled_range (c * 2 ^ 2148) ltac:(nia)) as Hr.
    assert (Hl0 : 0 <= mul_scaled (round_scaled (c * 2 ^ 2148)) (sc lit_0_90)).
    { unfold mul_scaled.
      destruct (2 ^ 2098 <=? round_scaled (c * 2 ^ 2148));
        [vm_compute; discriminate | ].
      apply round_scaled_range.
      apply Z.mul_nonneg_nonneg; [lia | vm_compute; discriminate]. }
    pose proof (pass_value_mono lit_1_40 lit_1_40
                  (mul_scaled (round_scaled (c * 2 ^ 2148)) (sc lit_0_90)) a
                  ltac:(split; [vm_compute; discriminate | lia])
                  ltac:(lia)) as Hpv.
    assert (Hq : c <= pass_value lit_1_40 a / 2 ^ 1074).
    { apply Z.div_le_lower_bound; [reflexivity | lia]. }
    apply Z.le_trans with (clampZ cfg c).
    + unfold clampZ, c. rewrite Hmin, Hmax. lia.
    + now apply clampZ_mono.
Qed.

Lemma unclamped_mono cfg lower cur limit a1 a2 :
  MINIMUM_CAPACITY cfg = 3 -> MAXIMUM_CAPACITY cfg = 5000 ->
  py_mul (PyInt cur) (PyFloat lit_0_90) = ok limit ->
  0 <= a1 <= a2 ->
  clampZ cfg (unclamped lower cur (nsc limit) a1 / 2 ^ 1074)
  <= clampZ cfg (unclamped lower cur (nsc limit) a2 / 2 ^ 1074).
Proof.
  intros Hmin Hmax Hlimit Ha. unfold unclamped.
  pose proof multipliers_ordered as Hm.
  destruct (nsc limit <? a1) eqn:E1, (nsc limit <? a2) eqn:E2;
    try apply Z.ltb_lt in E1; try apply Z.ltb_lt in E2;
    try apply Z.ltb_ge in E1; try apply Z.ltb_ge in E2.
  - apply clampZ_mono, scaled_div_mono, pass_value_mono; lia.
  - lia.
  - destruct lower.
    + apply clampZ_mono, scaled_div_mono, pass_value_mono; lia.
    + rewrite Z.div_mul by (apply Z.neq_sym, Z.lt_neq; reflexivity).
      apply (raise_lifts cfg cur limit a2); assumption || lia.
  - destruct lower; [ | lia].
    apply clampZ_mono, scaled_div_mono, pass_value_mono; lia.
Qed.

(** ** Monotonicity in the peak *)

(** C8.  With the source's constants, for a fixed current capacity and
    decrease count the capacity sent to the service does not decrease when
    the peak grows: of two evaluations that differ only in the peak of a
    direction, the one with the larger peak yields the larger, or the same,
    new capacity.  Peaks range over the values the peak loop can produce:
    the integer zero and the non-negative doubles. *)
Theorem adjusted_capacity_monotone_in_peak
    cfg aws1 aws2 tp1 tp2 readPts1 writePts1 readPts2 writePts2 s1 s2 d :
  source_constants cfg ->
  unit_evaluation cfg aws1 tp1 readPts1 writePts1 s1 ->
  unit_evaluation cfg aws2 tp2 readPts2 writePts2 s2 ->
  NumberOfDecreasesToday tp1 = NumberOfDecreasesToday tp2 ->
  current d tp1 = current d tp2 ->
  peak_ok (peak d s1) -> peak_ok (peak d s2) ->
  py_le (peak d s1) (peak d s2) = true ->
  exists z1 z2,
    py_int (adjusted d s1) = ok z1
    /\ py_int (adjusted d s2) = ok z2
    /\ z1 <= z2.
Proof.
  intros Hsrc H1 H2 Hdec Hcur Hp1 Hp2 Hle.
  destruct (unit_evaluation_direction _ _ _ _ _ _ d H1) as [D1 _].
  destruct (unit_evaluation_direction _ _ _ _ _ _ d H2) as [D2 _].
  rewrite Hdec, Hcur in D1.
  destruct (decision_sem _ _ _ _ _ Hsrc Hp1 D1) as (limit & Hl & _ & I1).
  destruct (decision_sem _ _ _ _ _ Hsrc Hp2 D2) as (limit' & Hl' & _ & I2).
  rewrite Hl in Hl'. injection Hl' as <-.
  destruct (peak_nsc _ Hp1) as [W1 B1].
  destruct (peak_nsc _ Hp2) as [W2 B2].
  unfold py_le in Hle. rewrite (py_compare_nsc _ _ W1 W2) in Hle.
  assert (Ha : nsc (peak d s1) <= nsc (peak d s2)).
  { destruct (nsc (peak d s1) ?= nsc (peak d s2)) eqn:E;
      try discriminate Hle; compare_facts; lia. }
  destruct Hsrc as (_ & _ & _ & Hmin & Hmax).
  do 2 eexists. split; [exact I1 | split; [exact I2 | ]].
  apply (unclamped_mono cfg _ _ limit); assumption || lia.
Qed.

Ltac peak_is_ok :=
  cbn [peak peakReadThroughputLastDay peakWriteThroughputLastDay peak_ok];
  first [ reflexivity
        | split; [split; [vm_compute; reflexivity | discriminate]
                 | reflexivity] ].

Lemma source_constants_source_config : source_constants source_config.
Proof. repeat split. Qed.

Lemma adjusted_capacity_monotone_in_peak_witness :
  let aws1 := single_table 0 10 10 [2700] [0] in
  let aws2 := single_table 0 10 10 [2850] [900] in
  exists s1 s2,
    adjustTableCapacity_locals source_config aws1 "T" = ok s1
    /\ adjustTableCapacity_locals source_config aws2 "T" = ok s2
    /\ py_le (peak Read s1) (peak Read s2) = true
    /\ py_int (adjusted Read s1) = ok 11
    /\ py_int (adjusted Read s2) = ok 14
    /\ exists z1 z2,
        py_int (adjusted Read s1) = ok z1
        /\ py_int (adjusted Read s2) = ok z2
        /\ z1 <= z2.
Proof.
  cbv zeta. exists_evaluated. exists_evaluated.
  split; [evaluated | ].
  split; [evaluated | ].
  split; [evaluated | ].
  split; [evaluated | ].
  split; [evaluated | ].
  refine (adjusted_capacity_monotone_in_peak source_config
            (single_table 0 10 10 [2700] [0])
            (single_table 0 10 10 [2850] [900])
            _ _ _ _ _ _ _ _ Read
            source_constants_source_config
            (evaluation_of_table _ _ "T" _ _)
            (evaluation_of_table _ _ "T" _ _) _ _ _ _ _).
  - evaluated.
  - evaluated.
  - reflexivity.
  - reflexivity.
  - peak_is_ok.
  - peak_is_ok.
  - evaluated.
Defined.

(** ** The floor, when the lower pass fires *)

Lemma small_peak_stays_at_floor a :
  0 <= a ->
  pass_value lit_1_15 a < 3 * 2 ^ 1074 ->
  pass_value lit_1_40 a <= 3 * 2 ^ 1074.
Proof.
  intros Ha Hlow.
  assert (H115 : pass_value lit_1_15 (7 * 2 ^ 1072) = 3 * 2 ^ 1074)
    by (vm_compute; reflexivity).
  assert (H140 : pass_value lit_1_40 (7 * 2 ^ 1072) = 3 * 2 ^ 1074)
    by (vm_compute; reflexivity).
  assert (Hpos : 0 <= 7 * 2 ^ 1072) by (vm_compute; discriminate).
  assert (Hc115 : 0 <= sc lit_1_15 <= sc lit_1_15)
    by (split; [vm_compute; discriminate | lia]).
  assert (Hc140 : 0 <= sc lit_1_40 <= sc lit_1_40)
    by (split; [vm_compute; discriminate | lia]).
  destruct (Z.le_gt_cases a (7 * 2 ^ 1072)) as [Hsmall | Hbig].
  - rewrite <- H140. apply pass_value_mono; [assumption | lia].
  - exfalso.
    pose proof (pass_value_mono lit_1_15 lit_1_15 (7 * 2 ^ 1072) a Hc115
                  ltac:(lia)) as Hm.
    rewrite H115 in Hm. lia.
Qed.

(** C3, as the code has it.  With the source's constants, when the lower
    pass fires (the decrease count is below the daily ceiling) and
    [ceil(peak * LOWER_MULTIPLE)] is below [MINIMUM_CAPACITY], the new
    capacity is [MINIMUM_CAPACITY], whether or not the raise pass fires. *)
Theorem floor_when_lower_pass_fires
    cfg aws tp readPts writePts s d v :
  source_constants cfg ->
  unit_evaluation cfg aws tp readPts writePts s ->
  NumberOfDecreasesToday tp < MAXIMUM_TIMES_TO_LOWER_CAPACITY_PER_DAY cfg ->
  peak_ok (peak d s) ->
  lower_value cfg (peak d s) = ok v ->
  py_lt v (PyInt (MINIMUM_CAPACITY cfg)) = true ->
  py_int (adjusted d s) = ok (MINIMUM_CAPACITY cfg).
Proof.
  intros Hsrc Hu Hdec Hp Hv Hlt.
  destruct (unit_evaluation_direction _ _ _ _ _ _ d Hu) as [D _].
  destruct (decision_sem _ _ _ _ _ Hsrc Hp D) as (limit & _ & _ & I).
  rewrite I. f_equal.
  destruct Hsrc as (_ & _ & HLM & Hmin & Hmax).
  destruct wf_lit_1_15 as [W115 P115].
  unfold lower_value in Hv. rewrite HLM in Hv.
  destruct (pass_value_sc _ lit_1_15 Hp W115 P115)
    as (v' & Hv' & Hwv & _ & Hsv).
  rewrite Hv' in Hv. injection Hv as <-.
  rewrite Hmin in Hlt. unfold py_lt in Hlt.
  rewrite (py_compare_nsc (PyFloat v') (PyInt 3) Hwv ltac:(reflexivity))
    in Hlt.
  cbn [nsc] in Hlt. rewrite Hsv in Hlt.
  assert (Hlow : pass_value lit_1_15 (nsc (peak d s)) < 3 * 2 ^ 1074).
  { destruct (pass_value lit_1_15 (nsc (peak d s)) ?= 3 * 2 ^ 1074) eqn:E;
      try discriminate Hlt; compare_facts; lia. }
  destruct (peak_nsc _ Hp) as [_ Ha].
  pose proof (small_peak_stays_at_floor _ (proj1 Ha) Hlow) as Hhigh.
  replace (lower_pass_fires cfg (NumberOfDecreasesToday tp)) with true
    by (symmetry; unfold lower_pass_fires; apply Z.ltb_lt; assumption).
  unfold unclamped, clampZ. rewrite Hmin, Hmax.
  assert (HP : 0 < 2 ^ 1074) by reflexivity.
  destruct (nsc limit <? nsc (peak d s)).
  - assert (pass_value lit_1_40 (nsc (peak d s)) / 2 ^ 1074 <= 3).
    { apply Z.lt_succ_r. apply Z.div_lt_upper_bound; lia. }
    lia.
  - assert (pass_value lit_1_15 (nsc (peak d s)) / 2 ^ 1074 < 3)
      by (apply Z.div_lt_upper_bound; lia).
    lia.
Qed.

Lemma floor_when_lower_pass_fires_witness :
  let aws := single_table 0 1 1 [300] [300] in
  exists s v,
    adjustTableCapacity_locals source_config aws "T" = ok s
    /\ peak Read s = PyFloat (B64.of_Z 1)
    /\ py_gt (peak Read s) (PyFloat (B64.mul (B64.of_Z 1) lit_0_90)) = true
    /\ lower_value source_config (peak Read s) = ok v
    /\ py_lt v (PyInt 3) = true
    /\ py_int (adjusted Read s) = ok 3.
Proof.
  cbv zeta. exists_evaluated.
  exists (PyFloat (B64.of_Z 2)).
  split; [evaluated | ].
  split; [evaluated | ].
  split; [evaluated | ].
  split; [evaluated | ].
  split; [evaluated | ].
  refine (floor_when_lower_pass_fires source_config
            (single_table 0 1 1 [300] [300]) _ _ _ _ Read
            (PyFloat (B64.of_Z 2))
            source_constants_source_config
            (evaluation_of_table _ _ "T" _ _) _ _ _ _).
  - evaluated.
  - cbn. lia.
  - peak_is_ok.
  - evaluated.
  - evaluated.
Defined.

(** ** The decrease budget, for capacities within range *)

Lemma unit_run_update cfg aws float_str s evs e rw d :
  unit_run cfg aws float_str s evs ->
  In e evs -> update_of e = Some rw ->
  py_int (adjusted d s) = ok (carried d rw).
Proof.
  intros Hrun Hin Hup.
  destruct (unit_run_events _ _ _ _ _ Hrun) as [_ Hu].
  assert (Hf : In e (updates evs)).
  { unfold updates. apply filter_In. split; [assumption | ].
    unfold is_update. now rewrite Hup. }
  destruct (changed s).
  - destruct Hu as (e' & r & w & He & Hrw & Hr & Hw).
    rewrite He in Hf. destruct Hf as [<- | []].
    rewrite Hup in Hrw. injection Hrw as ->.
    destruct d; assumption.
  - rewrite Hu in Hf. destruct Hf.
Qed.

(** X13.  With the source's constants, once the decrease count has reached
    the daily ceiling, an update never carries less than the current
    capacity for a direction whose current capacity does not exceed
    [MAXIMUM_CAPACITY]: within the configured range the guard of the lower
    pass keeps its promise. *)
Theorem no_decrease_when_budget_spent
    cfg aws float_str s evs d e rw :
  source_constants cfg ->
  unit_run cfg aws float_str s evs ->
  MAXIMUM_TIMES_TO_LOWER_CAPACITY_PER_DAY cfg <= decreasesSoFarToday s ->
  current_of d s <= MAXIMUM_CAPACITY cfg ->
  peak_ok (peak d s) ->
  In e evs -> update_of e = Some rw ->
  current_of d s <= carried d rw.
Proof.
  intros Hsrc Hrun Hdec Hcur Hp Hin Hup.
  pose proof (unit_run_update _ _ _ _ _ _ _ d Hrun Hin Hup) as Hi.
  destruct (unit_run_direction _ _ _ _ _ d Hrun) as [D _].
  destruct (decision_sem _ _ _ _ _ Hsrc Hp D) as (limit & Hl & _ & I).
  rewrite I in Hi. injection Hi as <-.
  destruct Hsrc as (_ & _ & _ & Hmin & Hmax).
  replace (lower_pass_fires cfg (decreasesSoFarToday s)) with false
    by (symmetry; unfold lower_pass_fires; apply Z.ltb_ge; assumption).
  assert (Hc : current_of d s <= clampZ cfg (current_of d s))
    by (unfold clampZ; lia).
  destruct (peak_nsc _ Hp) as [_ Ha].
  unfold unclamped.
  destruct (nsc limit <? nsc (peak d s)) eqn:E.
  - apply Z.ltb_lt in E.
    exact (Z.le_trans _ _ _ Hc
             (raise_lifts cfg _ limit _ Hmin Hmax Hl E (proj1 Ha))).
  - change (Z.pow_pos 2 1074) with (2 ^ 1074).
    now rewrite Z.div_mul by (apply Z.neq_sym, Z.lt_neq; reflexivity).
Qed.

Lemma no_decrease_when_budget_spent_witness :
  let aws := single_table 1 10 10 [2850] [0] in
  exists s evs,
    unit_run source_config aws float_str_stub s evs
    /\ decreasesSoFarToday s = 1
    /\ In (UpdateTable "T" 14 10) evs
    /\ current_of Read s <= carried Read (14, 10).
Proof.
  cbv zeta. exists_evaluated. eexists.
  assert (U : forall A B : Prop, A -> (A -> B) -> A /\ B) by tauto.
  apply U; clear U.
  - apply (run_of_table _ _ _ "T"); evaluated.
  - intros Hrun.
    split; [evaluated | ].
    match goal with
    | |- In _ ?l /\ _ =>
        assert (Hin : In (UpdateTable "T" 14 10) l) by (left; reflexivity)
    end.
    split; [exact Hin | ].
    refine (no_decrease_when_budget_spent source_config _ _ _ _ Read
              (UpdateTable "T" 14 10) (14, 10)
              source_constants_source_config Hrun _ _ _ Hin _).
    + cbn. lia.
    + cbn. lia.
    + peak_is_ok.
    + reflexivity.
Defined.

(** * The events of an invocation *)

Lemma io_bind_events {A B} (P : event -> Prop) (c : io A) (k : A -> io B) :
  Forall P (fst c) ->
  (forall a, snd c = inr a -> Forall P (fst (k a))) ->
  Forall P (fst (io_bind c k)).
Proof.
  destruct c as [evs [e | a]]; cbn [fst snd io_bind]; intros Hc Hk.
  - exact Hc.
  - specialize (Hk a eq_refl). destruct (k a) as [evs' r]. cbn [fst] in *.
    apply Forall_app. now split.
Qed.

Lemma for_each_events {A} (P : event -> Prop) (xs : list A)
    (body : A -> io unit) :
  (forall x, In x xs -> Forall P (fst (body x))) ->
  Forall P (fst (for_each xs body)).
Proof.
  induction xs as [ | x rest IH]; intros Hb; cbn [for_each].
  - constructor.
  - apply io_bind_events.
    + apply Hb. now left.
    + intros _ _. apply IH. intros y Hy. apply Hb. now right.
Qed.

(** The capacity an evaluation hands to the update call lies within the
    bounds. *)
Lemma decided_in_range cfg dec cur p a z :
  MINIMUM_CAPACITY cfg <= MAXIMUM_CAPACITY cfg ->
  decision cfg dec cur p = ok a ->
  py_int a = ok z ->
  MINIMUM_CAPACITY cfg <= z <= MAXIMUM_CAPACITY cfg.
Proof.
  intros Hb D Hz. destruct (decision_clamped _ _ _ _ _ D) as [v ->].
  now apply (clamp_range cfg v).
Qed.

Ltac run_cases :=
  unfold sendEmailNotification, when, emit, io_lift, io_ret, io_bind, ok;
  cbv beta iota.

Lemma table_events_safe cfg aws float_str tableName :
  MINIMUM_CAPACITY cfg <= MAXIMUM_CAPACITY cfg ->
  Forall (fun e => update_in_range cfg e
                   /\ match e with
                      | UpdateTable t _ _ => t = tableName
                      | UpdateIndex _ _ _ _ => False
                      | _ => True
                      end)
         (fst (adjustTableCapacity cfg aws float_str tableName)).
Proof.
  intros Hb. unfold adjustTableCapacity.
  destruct (adjustTableCapacity_locals cfg aws tableName) as [e | s] eqn:Hs.
  - constructor.
  - apply table_locals_decided in Hs.
    destruct Hs as (_ & _ & _ & _ & _ & Dr & Dw & _ & _).
    run_cases.
    destruct (readWasUpdated s || writeWasUpdated s);
      destruct (notify_condition cfg s);
      destruct (py_int (adjustedReadCapacity s)) as [x | r] eqn:Ir;
      destruct (py_int (adjustedWriteCapacity s)) as [y | w] eqn:Iw;
      cbn [fst app];
      repeat first [apply Forall_nil | apply Forall_cons];
      (split;
       [unfold update_in_range; cbn [update_of];
        first [ exact I
              | split; [exact (decided_in_range _ _ _ _ _ _ Hb Dr Ir)
                       | exact (decided_in_range _ _ _ _ _ _ Hb Dw Iw)] ]
       | first [exact I | reflexivity]]).
Qed.

Lemma index_events_safe cfg aws float_str tableName secondaryIndex :
  MINIMUM_CAPACITY cfg <= MAXIMUM_CAPACITY cfg ->
  Forall (fun e => update_in_range cfg e
                   /\ match e with
                      | UpdateTable _ _ _ => False
                      | UpdateIndex t i _ _ =>
                          t = tableName /\ i = IndexName secondaryIndex
                      | _ => True
                      end)
         (fst (adjustTableIndexCapacities_body cfg aws float_str tableName
                 secondaryIndex)).
Proof.
  intros Hb. unfold adjustTableIndexCapacities_body. cbv zeta.
  destruct (adjustTableIndexCapacities_locals cfg aws tableName secondaryIndex)
    as [e | s] eqn:Hs.
  - constructor.
  - apply index_locals_decided in Hs.
    destruct Hs as (_ & _ & _ & _ & _ & Dr & Dw & _ & _).
    run_cases.
    destruct (readWasUpdated s || writeWasUpdated s);
      destruct (notify_condition cfg s);
      destruct (py_int (adjustedReadCapacity s)) as [x | r] eqn:Ir;
      destruct (py_int (adjustedWriteCapacity s)) as [y | w] eqn:Iw;
      cbn [fst app];
      repeat first [apply Forall_nil | apply Forall_cons];
      (split;
       [unfold update_in_range; cbn [update_of];
        first [ exact I
              | split; [exact (decided_in_range _ _ _ _ _ _ Hb Dr Ir)
                       | exact (decided_in_range _ _ _ _ _ _ Hb Dw Iw)] ]
       | first [exact I | split; reflexivity]]).
Qed.

Lemma index_pass_events_safe cfg aws float_str tableName :
  MINIMUM_CAPACITY cfg <= MAXIMUM_CAPACITY cfg ->
  Forall (fun e => update_in_range cfg e
                   /\ match e with
                      | UpdateTable _ _ _ => False
                      | UpdateIndex t i _ _ =>
                          t = tableName
                          /\ exists indexes ix,
                              global_secondary_indexes (Table aws t)
                              = Some indexes
                              /\ In ix indexes /\ IndexName ix = i
                      | _ => True
                      end)
         (fst (adjustTableIndexCapacities cfg aws float_str tableName)).
Proof.
  intros Hb. unfold adjustTableIndexCapacities. cbv zeta.
  destruct (global_secondary_indexes (Table aws tableName))
    as [indexes | ] eqn:E.
  - apply io_bind_events.
    + apply for_each_events. intros ix Hix.
      apply Forall_impl
        with (2 := index_events_safe cfg aws float_str tableName ix Hb).
      intros [t r w | t i r w | | ]; intros [Hr Ht]; split;
        try assumption.
      destruct Ht as [-> ->]. split; [reflexivity | ].
      exists indexes, ix. now rewrite E.
    + intros _ _. repeat constructor.
  - repeat constructor.
Qed.

(** X1.  Whatever an invocation does, and whether it runs to its end or is
    stopped by an exception, every update it issues addresses a table of
    the listing, or an index that such a table reports, and carries a read
    and a write capacity within [MINIMUM_CAPACITY, MAXIMUM_CAPACITY]. *)
Theorem handler_updates_are_safe cfg aws float_str evs r :
  MINIMUM_CAPACITY cfg <= MAXIMUM_CAPACITY cfg ->
  lambda_handler cfg aws float_str = (evs, r) ->
  Forall (fun e => update_in_range cfg e /\ targets_listed aws e) evs.
Proof.
  intros Hb Hrun.
  change evs with (fst (evs, r)). rewrite <- Hrun.
  unfold lambda_handler. apply for_each_events. intros table Hin.
  apply io_bind_events.
  - apply Forall_impl
      with (2 := table_events_safe cfg aws float_str table Hb).
    intros [t rd wr | t i rd wr | | ]; intros [Hr Ht]; split;
      try assumption; try exact I.
    + cbn [targets_listed]. now subst t.
    + contradiction.
  - intros _ _.
    apply Forall_impl
      with (2 := index_pass_events_safe cfg aws float_str table Hb).
    intros [t rd wr | t i rd wr | | ]; intros [Hr Ht]; split;
      try assumption; try exact I.
    + contradiction.
    + cbn [targets_listed]. destruct Ht as [-> Hix]. now split.
Qed.

Lemma handler_updates_are_safe_witness :
  exists evs,
    lambda_handler source_config (single_index 1 10 6000 [2700] [900])
      float_str_stub = (evs, ok tt)
    /\ In (UpdateTable "T" 5000 10) evs
    /\ In (UpdateIndex "T" "I" 5000 10) evs
    /\ Forall (fun e => update_in_range source_config e
                        /\ targets_listed
                             (single_index 1 10 6000 [2700] [900]) e) evs.
Proof.
  eexists.
  assert (U : forall A B : Prop, A -> (A -> B) -> A /\ B) by tauto.
  apply U; clear U.
  - vm_compute. reflexivity.
  - intros Hrun.
    split; [left; reflexivity | ].
    split; [right; right; left; reflexivity | ].
    refine (handler_updates_are_safe source_config
              (single_index 1 10 6000 [2700] [900]) float_str_stub _ _ _ Hrun).
    cbn. lia.
Defined.

(** ** Lines printed by a complete invocation *)

Lemma io_bind_completed {A} (c : io A) (k : A -> io unit) evs :
  io_bind c k = (evs, ok tt) ->
  exists evs1 a evs2,
    c = (evs1, ok a) /\ k a = (evs2, ok tt) /\ evs = (evs1 ++ evs2)%list.
Proof.
  destruct c as [evs1 [e | a]]; cbn [io_bind]; intros H.
  - discriminate H.
  - destruct (k a) as [evs2 r] eqn:Ek. injection H as <- ->.
    now exists evs1, a, evs2.
Qed.

Lemma prints_app evs1 evs2 :
  prints (evs1 ++ evs2) = (prints evs1 ++ prints evs2)%list.
Proof. apply filter_app. Qed.

Lemma for_each_completed_prints {A} (xs : list A) (body : A -> io unit)
    (lines : A -> list event) (Q : A -> Prop) evs :
  (forall x evs', In x xs -> body x = (evs', ok tt) ->
                  prints evs' = lines x /\ Q x) ->
  for_each xs body = (evs, ok tt) ->
  prints evs = flat_map lines xs /\ Forall Q xs.
Proof.
  revert evs. induction xs as [ | x rest IH]; intros evs Hb;
    cbn [for_each flat_map].
  - intros H. injection H as <-. split; [reflexivity | constructor].
  - intros H. apply io_bind_completed in H.
    destruct H as (evs1 & [] & evs2 & Hx & Hrest & ->).
    destruct (Hb x evs1 (or_introl eq_refl) Hx) as [Hl Hq].
    destruct (IH evs2) as [Hl' Hq'];
      [intros y evs' Hy; apply Hb; now right | exact Hrest | ].
    rewrite prints_app, Hl, Hl'. split; [reflexivity | now constructor].
Qed.

Lemma table_run_prints cfg aws float_str tableName evs :
  adjustTableCapacity cfg aws float_str tableName = (evs, ok tt) ->
  prints evs = table_summary_line cfg aws float_str tableName
  /\ List.length (table_summary_line cfg aws float_str tableName) = 1%nat.
Proof.
  unfold adjustTableCapacity, table_summary_line.
  destruct (adjustTableCapacity_locals cfg aws tableName) as [e | s];
    [discriminate | ].
  run_cases.
  destruct (readWasUpdated s || writeWasUpdated s);
    destruct (notify_condition cfg s);
    destruct (py_int (adjustedReadCapacity s)) as [x | r];
    destruct (py_int (adjustedWriteCapacity s)) as [y | w];
    cbn [app]; intros H; try discriminate H; injection H as <-;
    split; reflexivity.
Qed.

Lemma index_run_prints cfg aws float_str tableName secondaryIndex evs :
  adjustTableIndexCapacities_body cfg aws float_str tableName secondaryIndex
  = (evs, ok tt) ->
  prints evs = index_summary_line cfg aws float_str tableName secondaryIndex
  /\ List.length
       (index_summary_line cfg aws float_str tableName secondaryIndex)
     = 1%nat.
Proof.
  unfold adjustTableIndexCapacities_body, index_summary_line. cbv zeta.
  destruct (adjustTableIndexCapacities_locals cfg aws tableName secondaryIndex)
    as [e | s]; [discriminate | ].
  run_cases.
  destruct (readWasUpdated s || writeWasUpdated s);
    destruct (notify_condition cfg s);
    destruct (py_int (adjustedReadCapacity s)) as [x | r];
    destruct (py_int (adjustedWriteCapacity s)) as [y | w];
    cbn [app]; intros H; try discriminate H; injection H as <-;
    split; reflexivity.
Qed.

Lemma flat_map_singletons {A B} (f : A -> list B) (xs : list A) :
  Forall (fun x => List.length (f x) = 1%nat) xs ->
  List.length (flat_map f xs) = List.length xs.
Proof.
  induction 1 as [ | x rest Hx _ IH]; [reflexivity | ].
  cbn [flat_map List.length]. rewrite length_app, Hx, IH. reflexivity.
Qed.

Lemma handle_table_prints cfg aws float_str table evs :
  handle_table cfg aws float_str table = (evs, ok tt) ->
  prints evs = printed_for_table cfg aws float_str table
  /\ List.length (printed_for_table cfg aws float_str table)
     = lines_of aws table.
Proof.
  unfold handle_table. intros H. apply io_bind_completed in H.
  destruct H as (evs1 & [] & evs2 & Ht & Hi & ->).
  destruct (table_run_prints _ _ _ _ _ Ht) as [Pt Lt].
  unfold printed_for_table, lines_of.
  rewrite prints_app, Pt, !length_app, Lt.
  unfold adjustTableIndexCapacities in Hi. cbv zeta in Hi.
  destruct (global_secondary_indexes (Table aws table)) as [indexes | ].
  - apply io_bind_completed in Hi.
    destruct Hi as (evs3 & [] & evs4 & Hloop & Hfin & ->).
    destruct (for_each_completed_prints indexes
                (adjustTableIndexCapacities_body cfg aws float_str table)
                (index_summary_line cfg aws float_str table)
                (fun ix => List.length
                             (index_summary_line cfg aws float_str table ix)
                           = 1%nat) evs3) as [Pl Ll];
      [intros ix evs' _; apply index_run_prints | exact Hloop | ].
    injection Hfin as <-.
    rewrite prints_app, Pl, length_app, (flat_map_singletons _ _ Ll).
    split; [reflexivity | cbn [List.length]; lia].
  - injection Hi as <-. split; reflexivity.
Qed.

(** X2.  An invocation that runs to its end prints exactly these lines, in
    this order: for every table of the listing, in listing order, the
    summary line of the table (["Dynamo Table: "], the name and the fields
    of its evaluation), then either ["No secondary indexes in table: "] and
    the name, or the summary line of every secondary index in the order
    reported, followed by ["Finished Secondary Indexes on Table: "] and the
    name.  Every table so accounts for 2 lines plus one per index: the
    summary line is produced for every unit, changed or not. *)
Theorem completed_invocation_lines cfg aws float_str evs :
  lambda_handler cfg aws float_str = (evs, ok tt) ->
  prints evs
  = flat_map (printed_for_table cfg aws float_str) (list_tables aws)
  /\ Forall (fun table =>
               List.length (printed_for_table cfg aws float_str table)
               = lines_of aws table)
            (list_tables aws).
Proof.
  unfold lambda_handler. fold (handle_table cfg aws float_str).
  apply for_each_completed_prints.
  intros table evs' _. apply handle_table_prints.
Qed.

Lemma completed_invocation_lines_witness :
  let aws := single_index 1 10 6000 [2700] [900] in
  exists evs,
    lambda_handler source_config aws float_str_stub = (evs, ok tt)
    /\ prints evs
       = [Print "Dynamo Table: T | Write Capacity: 10 | Read Capacity: 6000 | Decreases So Far Today: 1/1 | Peak Read Capacity (24hrs): <float> | Peak Write Capacity (24hrs): <float> | Updated Read: True | New Read Capacity: 5000 | Updated Write: False | New Write Capacity: 10";
          Print "Dynamo Table (T) Index: I | Write Capacity: 10 | Read Capacity: 6000 | Decreases So Far Today: 1/1 | Peak Read Capacity (24hrs): <float> | Peak Write Capacity (24hrs): <float> | Updated Read: True | New Read Capacity: 5000 | Updated Write: False | New Write Capacity: 10";
          Print "Finished Secondary Indexes on Table: T"]
    /\ prints evs
       = flat_map (printed_for_table source_config aws float_str_stub)
           (list_tables aws)
    /\ Forall (fun table =>
                 List.length
                   (printed_for_table source_config aws float_str_stub table)
                 = lines_of aws table)
              (list_tables aws).
Proof.
  cbv zeta. eexists.
  assert (U : forall A B C : Prop, A -> B -> (A -> C) -> A /\ B /\ C)
    by tauto.
  apply U; clear U.
  - vm_compute. reflexivity.
  - vm_compute. reflexivity.
  - intros Hrun.
    exact (completed_invocation_lines source_config
             (single_index 1 10 6000 [2700] [900]) float_str_stub _ Hrun).
Defined.

(** ** An exception stops the invocation *)

Lemma for_each_app {A} (xs ys : list A) (body : A -> io unit) :
  for_each (xs ++ ys) body = for_each xs body ;;; for_each ys body.
Proof.
  induction xs as [ | x rest IH]; cbn [app for_each].
  - unfold io_ret, io_bind, ok. now destruct (for_each ys body).
  - rewrite IH. unfold io_bind.
    destruct (body x) as [evs1 [e | []]]; [reflexivity | ].
    destruct (for_each rest body) as [evs2 [e | []]]; [reflexivity | ].
    destruct (for_each ys body) as [evs3 r3].
    now rewrite app_assoc.
Qed.

(** X3.  The invocation is stopped by the first exception: when the tables
    before [table] in the listing are processed to their end and the
    processing of [table] raises, the invocation ends with that exception
    and has performed exactly the events up to it; no table after [table]
    is read, updated or reported on. *)
Theorem handler_stops_at_first_failure
    cfg aws float_str before table after evs1 evs2 e :
  list_tables aws = (before ++ table :: after)%list ->
  for_each before (handle_table cfg aws float_str) = (evs1, ok tt) ->
  handle_table cfg aws float_str table = (evs2, raise e) ->
  lambda_handler cfg aws float_str = ((evs1 ++ evs2)%list, raise e).
Proof.
  intros Hl Hb Ht. unfold lambda_handler. rewrite Hl, for_each_app.
  fold (handle_table cfg aws float_str). rewrite Hb. cbn [for_each].
  rewrite Ht. reflexivity.
Qed.

Lemma handler_stops_at_first_failure_witness :
  let cfg := with_bucket source_config 0 in
  exists evs1 evs2,
    for_each ["A"] (handle_table cfg three_tables float_str_stub)
    = (UpdateTable "A" 3 3 :: evs1, ok tt)
    /\ handle_table cfg three_tables float_str_stub "B"
       = (evs2, raise ZeroDivisionError)
    /\ lambda_handler cfg three_tables float_str_stub
       = ((UpdateTable "A" 3 3 :: evs1) ++ evs2, raise ZeroDivisionError)%list.
Proof.
  cbv zeta. do 2 eexists.
  assert (U : forall A B C : Prop, A -> B -> (A -> B -> C) -> A /\ B /\ C)
    by tauto.
  apply U; clear U.
  - vm_compute. reflexivity.
  - vm_compute. reflexivity.
  - intros H1 H2.
    exact (handler_stops_at_first_failure (with_bucket source_config 0)
             three_tables float_str_stub ["A"] "B" ["C"] _ _ _
             eq_refl H1 H2).
Defined.

(** ** The events of one unit *)

(** X4.  A unit processed to its end performs, in this order, the update
    call if there is one, the e-mail if there is one, and the print of its
    summary line; there is at most one update, and the e-mail goes from
    the configured sender to the configured recipients with a body that is
    ["Details: "] followed by the very line that is printed. *)
Theorem unit_events_in_order cfg aws float_str s evs :
  unit_run cfg aws float_str s evs ->
  exists line,
    evs = (updates evs ++ emails evs ++ [Print line])%list
    /\ (List.length (updates evs) <= 1)%nat
    /\ forall source toAddresses subject body,
         In (SendEmail source toAddresses subject body) evs ->
         source = EMAIL_ADDRESS_OF_SENDER cfg
         /\ toAddresses = EMAIL_ADDRESSES_OF_RECIPIENTS cfg
         /\ body = ("Details: " ++ line)%string.
Proof.
  intros [tableName s' evs' Hs Hrun | tableName ix s' evs' Hs Hrun].
  - unfold adjustTableCapacity in Hrun. rewrite Hs in Hrun.
    revert Hrun. run_cases.
    destruct (readWasUpdated s' || writeWasUpdated s');
      destruct (notify_condition cfg s');
      destruct (py_int (adjustedReadCapacity s')) as [x | r];
      destruct (py_int (adjustedWriteCapacity s')) as [y | w];
      cbn [app]; intros Hrun; try discriminate Hrun;
      injection Hrun as <-; eexists;
      cbn [emails updates filter is_email is_update update_of app
           List.length];
      (split; [reflexivity | split; [lia | ]]);
      intros source toAddresses subject body Hin;
      cbn [In] in Hin;
      repeat (destruct Hin as [Hin | Hin]; [try discriminate Hin | ]);
      try contradiction;
      injection Hin as <- <- _ <-; repeat split.
  - unfold adjustTableIndexCapacities_body in Hrun. cbv zeta in Hrun.
    rewrite Hs in Hrun.
    revert Hrun. run_cases.
    destruct (readWasUpdated s' || writeWasUpdated s');
      destruct (notify_condition cfg s');
      destruct (py_int (adjustedReadCapacity s')) as [x | r];
      destruct (py_int (adjustedWriteCapacity s')) as [y | w];
      cbn [app]; intros Hrun; try discriminate Hrun;
      injection Hrun as <-; eexists;
      cbn [emails updates filter is_email is_update update_of app
           List.length];
      (split; [reflexivity | split; [lia | ]]);
      intros source toAddresses subject body Hin;
      cbn [In] in Hin;
      repeat (destruct Hin as [Hin | Hin]; [try discriminate Hin | ]);
      try contradiction;
      injection Hin as <- <- _ <-; repeat split.
Qed.

Lemma unit_events_in_order_witness :
  let cfg := with_email source_config "ops@example.org" ["dba@example.org"] in
  let aws := single_table 0 10 10 [2700] [900] in
  exists s evs line,
    unit_run cfg aws float_str_stub s evs
    /\ updates evs = [UpdateTable "T" 11 4]
    /\ List.length (emails evs) = 1%nat
    /\ evs = (updates evs ++ emails evs ++ [Print line])%list
    /\ (List.length (updates evs) <= 1)%nat
    /\ forall source toAddresses subject body,
         In (SendEmail source toAddresses subject body) evs ->
         source = "ops@example.org"
         /\ toAddresses = ["dba@example.org"]
         /\ body = ("Details: " ++ line)%string.
Proof.
  cbv zeta. exists_evaluated. eexists.
  assert (U : forall (A : Prop) (B : string -> Prop),
             A -> (A -> exists l, B l) -> exists l, A /\ B l).
  { intros A B a f. destruct (f a) as [l b]. now exists l. }
  apply U; clear U.
  - apply (run_of_table _ _ _ "T"); evaluated.
  - intros Hrun.
    destruct (unit_events_in_order _ _ _ _ _ Hrun) as (line & H1 & H2 & H3).
    exists line.
    split; [evaluated | ].
    split; [evaluated | ].
    split; [exact H1 | split; [exact H2 | exact H3]].
Defined.

(** ** One algorithm for tables and for indexes *)

Lemma decided_functional cfg tp readPts writePts s1 s2 :
  decided cfg tp readPts writePts s1 ->
  decided cfg tp readPts writePts s2 ->
  s1 = s2.
Proof.
  intros (Hr1 & Hw1 & Hd1 & Pr1 & Pw1 & Dr1 & Dw1 & Ur1 & Uw1)
         (Hr2 & Hw2 & Hd2 & Pr2 & Pw2 & Dr2 & Dw2 & Ur2 & Uw2).
  destruct s1, s2. cbn in *. subst.
  rewrite Pr1 in Pr2. injection Pr2 as <-.
  rewrite Pw1 in Pw2. injection Pw2 as <-.
  rewrite Dr1 in Dr2. injection Dr2 as <-.
  rewrite Dw1 in Dw2. injection Dw2 as <-.
  reflexivity.
Qed.

(** X5.  The two copies of the algorithm agree: a table and a secondary
    index, of the same or of different invocations, that report the same
    throughput record and the same sample windows are evaluated to the
    same peaks, the same new capacities and the same update flags. *)
Theorem table_and_index_agree
    cfg aws1 aws2 tableName1 tableName2 secondaryIndex s1 s2 :
  provisioned_throughput (Table aws1 tableName1)
  = ProvisionedThroughput secondaryIndex ->
  samples cfg aws1 ConsumedReadCapacityUnits (table_dimensions tableName1)
  = samples cfg aws2 ConsumedReadCapacityUnits
      (index_dimensions tableName2 (IndexName secondaryIndex)) ->
  samples cfg aws1 ConsumedWriteCapacityUnits (table_dimensions tableName1)
  = samples cfg aws2 ConsumedWriteCapacityUnits
      (index_dimensions tableName2 (IndexName secondaryIndex)) ->
  adjustTableCapacity_locals cfg aws1 tableName1 = ok s1 ->
  adjustTableIndexCapacities_locals cfg aws2 tableName2 secondaryIndex
  = ok s2 ->
  s1 = s2.
Proof.
  intros Htp Hr Hw H1 H2.
  apply table_locals_decided in H1. apply index_locals_decided in H2.
  rewrite Htp, Hr, Hw in H1.
  exact (decided_functional _ _ _ _ _ _ H1 H2).
Qed.

Lemma table_and_index_agree_witness :
  let aws := single_index 0 10 10 [2700] [3300] in
  let ix := {| IndexName := "I";
               ProvisionedThroughput :=
                 {| NumberOfDecreasesToday := 0;
                    WriteCapacityUnits := 10;
                    ReadCapacityUnits := 10 |} |} in
  exists s1 s2,
    adjustTableCapacity_locals source_config aws "T" = ok s1
    /\ adjustTableIndexCapacities_locals source_config aws "T" ix = ok s2
    /\ py_int (adjustedWriteCapacity s1) = ok 16
    /\ s1 = s2.
Proof.
  cbv zeta. exists_evaluated. exists_evaluated.
  assert (U : forall A B C D : Prop,
             A -> B -> C -> (A -> B -> D) -> A /\ B /\ C /\ D) by tauto.
  apply U; clear U.
  - evaluated.
  - evaluated.
  - evaluated.
  - intros H1 H2.
    refine (table_and_index_agree source_config
              (single_index 0 10 10 [2700] [3300])
              (single_index 0 10 10 [2700] [3300]) "T" "T" _ _ _ _ _ _ H1 H2);
      reflexivity.
Defined.

(** ** A bucket length of zero *)

Lemma peak_loop_zero_bucket cfg datapoints p0 :
  SECONDS_PER_DATA_POINT cfg = 0 ->
  datapoints <> [] ->
  peak_loop cfg datapoints p0 = raise ZeroDivisionError.
Proof.
  intros Hz Hne. destruct datapoints as [ | d rest]; [contradiction | ].
  cbn [peak_loop]. rewrite Hz. reflexivity.
Qed.

Lemma peak_loop_empty cfg p0 : peak_loop cfg [] p0 = ok p0.
Proof. reflexivity. Qed.

(** X6.  With [SECONDS_PER_DATA_POINT] set to zero, a table for which the
    metrics service returns at least one datapoint, for reads or for
    writes, stops the invocation with [ZeroDivisionError] before anything
    is updated, mailed or printed for it. *)
Theorem zero_bucket_raises cfg aws float_str tableName :
  SECONDS_PER_DATA_POINT cfg = 0 ->
  samples cfg aws ConsumedReadCapacityUnits (table_dimensions tableName) <> []
  \/ samples cfg aws ConsumedWriteCapacityUnits (table_dimensions tableName)
     <> [] ->
  adjustTableCapacity cfg aws float_str tableName
  = ([], raise ZeroDivisionError).
Proof.
  intros Hz Hne.
  assert (Hs : adjustTableCapacity_locals cfg aws tableName
               = raise ZeroDivisionError).
  { unfold adjustTableCapacity_locals. cbv zeta.
    unfold samples, table_dimensions in Hne.
    destruct (get_metric_statistics aws (SECONDS_PER_DATA_POINT cfg)
                ConsumedReadCapacityUnits [("TableName", tableName)])
      as [ | d rest] eqn:Er.
    - rewrite peak_loop_empty. unfold ok at 1. cbn [rbind].
      rewrite peak_loop_zero_bucket; [reflexivity | exact Hz | ].
      destruct Hne as [Hne | Hne]; [now elim Hne | exact Hne].
    - rewrite peak_loop_zero_bucket; [reflexivity | exact Hz | discriminate]. }
  unfold adjustTableCapacity. rewrite Hs. reflexivity.
Qed.

Lemma zero_bucket_raises_witness :
  samples (with_bucket source_config 0) three_tables
    ConsumedReadCapacityUnits (table_dimensions "B") <> []
  /\ adjustTableCapacity (with_bucket source_config 0) three_tables
       float_str_stub "B"
     = ([], raise ZeroDivisionError).
Proof.
  assert (H : samples (with_bucket source_config 0) three_tables
                ConsumedReadCapacityUnits (table_dimensions "B") <> [])
    by (vm_compute; discriminate).
  split; [exact H | ].
  exact (zero_bucket_raises (with_bucket source_config 0) three_tables
           float_str_stub "B" eq_refl (or_introl H)).
Defined.

(** * The new capacity is a whole number *)

Lemma datapoints_of_doubles sums : doubles (datapoints_of sums).
Proof.
  unfold doubles, datapoints_of. apply Forall_map, Forall_forall.
  intros z _. cbn [Sum]. apply (of_Z_spec z).
Qed.

Lemma single_table_doubles cfg decreases write read readSums writeSums :
  service_doubles cfg (single_table decreases write read readSums writeSums).
Proof. intros metric dimensions. apply datapoints_of_doubles. Qed.

Lemma single_index_doubles cfg decreases write read readSums writeSums :
  service_doubles cfg (single_index decreases write read readSums writeSums).
Proof. intros metric dimensions. apply datapoints_of_doubles. Qed.

Lemma ceil_scaled_integral a : exists k, ceil_scaled a = k * 2 ^ 1074.
Proof.
  unfold ceil_scaled. destruct (2 ^ 2098 <=? a).
  - exists (2 ^ 1024). reflexivity.
  - now exists (- (- a / 2 ^ 1074)).
Qed.

Lemma unclamped_integral lower cur t a :
  exists k, unclamped lower cur t a = k * 2 ^ 1074.
Proof.
  unfold unclamped, pass_value.
  destruct (t <? a); [apply ceil_scaled_integral | ].
  destruct lower; [apply ceil_scaled_integral | now exists cur].
Qed.

(** The value the decision clamps, on the scale. *)
Lemma decision_value cfg dec cur p a :
  source_constants cfg -> peak_ok p ->
  decision cfg dec cur p = ok a ->
  exists v limit,
    a = clamp cfg v
    /\ wfn v
    /\ py_mul (PyInt cur) (PyFloat lit_0_90) = ok limit
    /\ wfn limit
    /\ Z.abs cur < 2 ^ 1024
    /\ nsc v = unclamped (lower_pass_fires cfg dec) cur (nsc limit) (nsc p).
Proof.
  intros (HRT & HRM & HLM & Hmin & Hmax) Hp D.
  apply decision_outcome in D.
  destruct D as (limit & Hlimit & Hout).
  rewrite HRT in Hlimit.
  destruct wf_lit_0_90 as [W90 P90].
  destruct wf_lit_1_40 as [W140 P140].
  destruct wf_lit_1_15 as [W115 P115].
  destruct (limit_wf _ _ _ W90 P90 Hlimit) as (Hwl & Hcur & _ & _).
  destruct (peak_nsc p Hp) as [Hwp _].
  unfold py_gt in Hout. rewrite (py_compare_nsc p limit Hwp Hwl) in Hout.
  assert (Hlow : forall v,
             after_lower_pass cfg dec cur p = ok v ->
             wfn v
             /\ nsc v = if lower_pass_fires cfg dec
                        then pass_value lit_1_15 (nsc p)
                        else cur * 2 ^ 1074).
  { intros v Hv. unfold after_lower_pass in Hv.
    destruct (lower_pass_fires cfg dec).
    - unfold lower_value in Hv. rewrite HLM in Hv.
      destruct (pass_value_sc p lit_1_15 Hp W115 P115)
        as (v' & Hv' & Hwv & _ & Hsv).
      rewrite Hv' in Hv. injection Hv as <-. now split.
    - injection Hv as <-. now split. }
  destruct (nsc p ?= nsc limit) eqn:E; compare_facts.
  - destruct Hout as (v & Hv & ->). destruct (Hlow v Hv) as [Hwv Hsv].
    exists v, limit. unfold unclamped.
    replace (nsc limit <? nsc p) with false
      by (symmetry; apply Z.ltb_ge; lia).
    repeat split; assumption.
  - destruct Hout as (v & Hv & ->). destruct (Hlow v Hv) as [Hwv Hsv].
    exists v, limit. unfold unclamped.
    replace (nsc limit <? nsc p) with false
      by (symmetry; apply Z.ltb_ge; lia).
    repeat split; assumption.
  - destruct Hout as (v & Hv & ->).
    unfold raise_value in Hv. rewrite HRM in Hv.
    destruct (pass_value_sc p lit_1_40 Hp W140 P140)
      as (v' & Hv' & Hwv & _ & Hsv).
    rewrite Hv' in Hv. injection Hv as <-.
    exists (PyFloat v'), limit. unfold unclamped.
    replace (nsc limit <? nsc p) with true
      by (symmetry; apply Z.ltb_lt; lia).
    split; [reflexivity | split; [exact Hwv | ]].
    repeat split; assumption.
Qed.

(** Clamping a whole number of units: the integer sent, and the test that
    sets the update flag. *)
Lemma clamp_integral cfg v k c :
  MINIMUM_CAPACITY cfg = 3 -> MAXIMUM_CAPACITY cfg = 5000 ->
  wfn v -> nsc v = k * 2 ^ 1074 -> Z.abs c < 2 ^ 1024 ->
  py_int (clamp cfg v) = ok (clampZ cfg k)
  /\ py_ne (clamp cfg v) (PyInt c) = negb (clampZ cfg k =? c).
Proof.
  intros Hmin Hmax Hv Hk Hc.
  assert (HP : 0 < 2 ^ 1074) by reflexivity.
  pose proof (clamp_value cfg v Hmin Hmax Hv) as Hint.
  rewrite Hk, Z.div_mul in Hint by lia.
  split; [exact Hint | ].
  assert (Hn : wfn (clamp cfg v)
               /\ nsc (clamp cfg v) = clampZ cfg k * 2 ^ 1074).
  { destruct (clamp_cases cfg v) as [E | [(E & _) | (E & Hlo & Hhi)]];
      rewrite E in Hint |- *.
    - injection Hint as <-. rewrite Hmax. split; reflexivity.
    - injection Hint as <-. rewrite Hmin. split; reflexivity.
    - split; [exact Hv | ]. rewrite Hk. f_equal.
      rewrite Hmin in Hlo. rewrite Hmax in Hhi.
      unfold py_gt in Hlo. unfold py_lt in Hhi.
      rewrite (py_compare_nsc (PyInt 3) v ltac:(reflexivity) Hv) in Hlo.
      rewrite (py_compare_nsc (PyInt 5000) v ltac:(reflexivity) Hv) in Hhi.
      cbn [nsc] in Hlo, Hhi. rewrite Hk in Hlo, Hhi.
      rewrite compare_scaled in Hlo, Hhi by exact HP.
      unfold clampZ. rewrite Hmin, Hmax.
      destruct (3 ?= k) eqn:E3; try discriminate Hlo;
        destruct (5000 ?= k) eqn:E5; try discriminate Hhi;
        compare_facts; lia. }
  destruct Hn as [Hw Hn].
  unfold py_ne. rewrite (py_compare_nsc _ (PyInt c) Hw Hc).
  cbn [nsc]. rewrite Hn, compare_scaled by exact HP.
  destruct (clampZ cfg k ?= c) eqn:E; compare_facts.
  - subst c. now rewrite Z.eqb_refl.
  - symmetry. apply negb_true_iff, Z.eqb_neq. lia.
  - symmetry. apply negb_true_iff, Z.eqb_neq. lia.
Qed.

Lemma flag_exact cfg dec cur p a :
  source_constants cfg -> peak_ok p ->
  decision cfg dec cur p = ok a ->
  exists z, py_int a = ok z /\ py_ne a (PyInt cur) = negb (z =? cur).
Proof.
  intros Hsrc Hp D.
  destruct (decision_value _ _ _ _ _ Hsrc Hp D)
    as (v & limit & -> & Hwv & _ & _ & Hcur & Hsv).
  destruct Hsrc as (_ & _ & _ & Hmin & Hmax).
  destruct (unclamped_integral (lower_pass_fires cfg dec) cur (nsc limit)
              (nsc p)) as [k Hk].
  rewrite Hk in Hsv.
  exists (clampZ cfg k). now apply clamp_integral.
Qed.

(** X7.  With the source's constants, a unit processed to its end issues an
    update exactly when the whole number of units it would send differs
    from the current capacity, for reads or for writes; the update carries
    these two numbers.  No update repeats the capacities the unit already
    has. *)
Theorem update_only_when_capacity_differs cfg aws float_str s evs :
  source_constants cfg ->
  service_doubles cfg aws ->
  unit_run cfg aws float_str s evs ->
  exists r w,
    py_int (adjustedReadCapacity s) = ok r
    /\ py_int (adjustedWriteCapacity s) = ok w
    /\ (updates evs = [] <-> r = readCapacity s /\ w = writeCapacity s)
    /\ forall e, In e (updates evs) -> update_of e = Some (r, w).
Proof.
  intros Hsrc Hd Hrun.
  destruct (unit_run_direction _ _ _ _ _ Read Hrun) as [Dr Fr].
  destruct (unit_run_direction _ _ _ _ _ Write Hrun) as [Dw Fw].
  pose proof (unit_run_peak_ok _ _ _ Hd _ _ Read Hrun) as Pr.
  pose proof (unit_run_peak_ok _ _ _ Hd _ _ Write Hrun) as Pw.
  cbn [current_of peak adjusted wasUpdated] in *.
  destruct (flag_exact _ _ _ _ _ Hsrc Pr Dr) as (r & Ir & Er).
  destruct (flag_exact _ _ _ _ _ Hsrc Pw Dw) as (w & Iw & Ew).
  exists r, w. split; [exact Ir | split; [exact Iw | ]].
  destruct (unit_run_events _ _ _ _ _ Hrun) as [_ Hu].
  unfold changed in Hu. rewrite Fr, Fw, Er, Ew in Hu.
  destruct (Z.eqb_spec r (readCapacity s)) as [Eqr | Eqr];
    destruct (Z.eqb_spec w (writeCapacity s)) as [Eqw | Eqw];
    cbn [negb orb] in Hu.
  1: { rewrite Hu. split; [tauto | intros e []]. }
  all: destruct Hu as (e & r' & w' & -> & Hup & Ir' & Iw');
    rewrite Ir in Ir'; injection Ir' as <-;
    rewrite Iw in Iw'; injection Iw' as <-;
    (split; [split; [discriminate | tauto] | ]);
    intros e' [<- | []]; exact Hup.
Qed.

Lemma update_only_when_capacity_differs_witness :
  let aws := single_table 1 10 10 [2700] [2700] in
  exists s evs r w,
    unit_run source_config aws float_str_stub s evs
    /\ updates evs = []
    /\ py_int (adjustedReadCapacity s) = ok r
    /\ py_int (adjustedWriteCapacity s) = ok w
    /\ (updates evs = [] <-> r = readCapacity s /\ w = writeCapacity s)
    /\ forall e, In e (updates evs) -> update_of e = Some (r, w).
Proof.
  cbv zeta. exists_evaluated. eexists.
  assert (U : forall (A B : Prop) (C : Z -> Z -> Prop),
             A -> B -> (A -> exists r w, C r w) ->
             exists r w, A /\ B /\ C r w).
  { intros A B C a b f. destruct (f a) as (r & w & c). now exists r, w. }
  apply U; clear U.
  - apply (run_of_table _ _ _ "T"); evaluated.
  - evaluated.
  - intros Hrun.
    exact (update_only_when_capacity_differs source_config _ _ _ _
             source_constants_source_config
             (single_table_doubles _ 1 10 10 [2700] [2700]) Hrun).
Defined.

(** * The new capacity and the peak *)

(** Rounding leaves a double where it is. *)
Lemma round_scaled_representable s m e :
  wf (S754_finite s m e) ->
  round_scaled (Zpos m * 2 ^ (e + 1074) * 2 ^ 1074) = Zpos m * 2 ^ (e + 1074).
Proof.
  intros Hwf.
  destruct (wf_finite _ _ _ Hwf) as (He & _ & _ & Hcan).
  rewrite fexp_eq in Hcan.
  pose proof (bits_pos (Zpos m) (Pos2Z.is_pos m)) as Hb.
  replace (Zpos m * 2 ^ (e + 1074) * 2 ^ 1074)
    with (Zpos m * 2 ^ (e + 2148)).
  2: { rewrite <- Z.mul_assoc, <- Z.pow_add_r by lia. do 2 f_equal. lia. }
  unfold round_scaled, round_shift.
  rewrite bits_shift by lia.
  replace (Z.max (bits (Zpos m) + (e + 2148) - 53) 1074) with (e + 2148)
    by lia.
  rewrite rne_exact by lia.
  replace (e + 2148 - 1074) with (e + 1074) by lia.
  apply Z.min_l, Z.lt_le_incl, (finite_below_top _ _ _ Hwf).
Qed.

Lemma ceil_scaled_above x : x <= 2 ^ 2098 -> x <= ceil_scaled x.
Proof.
  intros Hx. unfold ceil_scaled.
  destruct (2 ^ 2098 <=? x) eqn:E; [exact Hx | ].
  pose proof (Z.mul_div_le (- x) (2 ^ 1074)
                (pow2_pos 1074 (Pos2Z.is_nonneg _))) as Hd.
  clear E Hx. set (q := - x / 2 ^ 1074) in *. clearbody q.
  hide_powers. lia.
Qed.

Lemma mul_scaled_range a c : 0 <= a -> 0 <= c -> 0 <= mul_scaled a c <= 2 ^ 2098.
Proof.
  intros Ha Hc. unfold mul_scaled.
  destruct (2 ^ 2098 <=? a).
  - split; [apply Z.lt_le_incl, pow2_pos, Pos2Z.is_nonneg | apply Z.le_refl].
  - apply round_scaled_range. now apply Z.mul_nonneg_nonneg.
Qed.

(** A pass with a multiple of at least one never yields less than the
    peak. *)
Lemma pass_value_covers p c :
  peak_ok p -> 2 ^ 1074 <= sc c -> nsc p <= pass_value c (nsc p).
Proof.
  intros Hp Hc.
  destruct (peak_nsc p Hp) as [_ Ha].
  assert (Hc0 : 0 <= sc c) by (hide_powers; lia).
  unfold pass_value.
  apply Z.le_trans with (mul_scaled (nsc p) (sc c));
    [ | apply ceil_scaled_above, mul_scaled_range; [apply Ha | exact Hc0]].
  unfold mul_scaled.
  destruct (2 ^ 2098 <=? nsc p) eqn:E; [apply Ha | ].
  apply Z.leb_gt in E.
  destruct p as [z | f]; cbn [peak_ok nsc] in *.
  - subst z. apply round_scaled_range. rewrite Z.mul_0_l. apply Z.le_refl.
  - destruct Hp as [Hwf Hn].
    destruct f as [s | s | | s m e]; cbn [sc nonneg] in *.
    + apply round_scaled_range. rewrite Z.mul_0_l. apply Z.le_refl.
    + subst s. cbn [cond_Zopp] in E. now apply Z.lt_irrefl in E.
    + contradiction.
    + subst s. cbn [cond_Zopp] in *.
      rewrite <- (round_scaled_representable false m e Hwf) at 1.
      apply round_scaled_mono.
      set (a := Zpos m * 2 ^ (e + 1074)) in *. clearbody a.
      clear E. hide_powers. nia.
Qed.

Lemma multiples_cover : 2 ^ 1074 <= sc lit_1_15 /\ 2 ^ 1074 <= sc lit_1_40.
Proof. split; vm_compute; discriminate. Qed.

Lemma threshold_bounds : 0 <= sc lit_0_90 <= 2 ^ 1074.
Proof. split; vm_compute; discriminate. Qed.

(** The raise limit of a capacity is not above the capacity itself. *)
Lemma limit_below_capacity cur limit :
  py_mul (PyInt cur) (PyFloat lit_0_90) = ok limit ->
  cur < 2 ^ 53 ->
  nsc limit <= Z.max cur 0 * 2 ^ 1074.
Proof.
  intros Hlimit Hsmall.
  destruct wf_lit_0_90 as [W90 P90].
  destruct (limit_wf _ _ _ W90 P90 Hlimit) as (_ & _ & El & Hn).
  pose proof (pow2_pos 1074 (Pos2Z.is_nonneg _)) as HU.
  destruct (Z.le_gt_cases 0 cur) as [Hpos | Hneg].
  - rewrite (Hn Hpos), Z.max_l by exact Hpos.
    rewrite round_scaled_exact by (split; assumption).
    apply Z.le_trans with (mul_scaled (cur * 2 ^ 1074) (2 ^ 1074)).
    + apply mul_scaled_mono; [ | exact threshold_bounds].
      split; [ | apply Z.le_refl].
      apply Z.mul_nonneg_nonneg; [exact Hpos | apply Z.lt_le_incl, HU].
    + unfold mul_scaled.
      assert (Hlt : cur * 2 ^ 1074 < 2 ^ 2098).
      { replace (2 ^ 2098) with (2 ^ 1024 * 2 ^ 1074)
          by (rewrite <- Z.pow_add_r by discriminate; reflexivity).
        apply Z.mul_lt_mono_pos_r; [exact HU | ].
        apply Z.lt_trans with (2 ^ 53); [exact Hsmall | ].
        apply pow2_lt. split; [discriminate | reflexivity]. }
      replace (2 ^ 2098 <=? cur * 2 ^ 1074) with false
        by (symmetry; apply Z.leb_gt; exact Hlt).
      rewrite <- Z.mul_assoc, <- Z.pow_add_r by discriminate.
      change (1074 + 1074) with 2148.
      rewrite round_scaled_exact by (split; assumption).
      apply Z.le_refl.
  - rewrite Z.max_r by (apply Z.lt_le_incl, Hneg). rewrite Z.mul_0_l.
    subst limit. cbn [nsc].
    unfold py_mul in Hlimit.
    destruct (as_double (PyInt cur)) as [e | f] eqn:Ef; [discriminate | ].
    apply as_double_int in Ef. destruct Ef as [-> Hfin].
    destruct (of_Z_spec cur) as (Hwf & Hsc & _).
    assert (Hv : 0 <= Z.abs cur * 2 ^ 2148) by (hide_powers; nia).
    pose proof (round_scaled_range _ Hv) as [Hr _].
    rewrite Z.sgn_neg in Hsc by exact Hneg.
    clear Hn Hv HU Hsmall.
    revert W90 P90.
    destruct lit_0_90 as [s9 | s9 | | s9 m9 e9]; intros W90 P90;
      try contradiction.
    destruct s9; [contradiction | ].
    destruct (B64.of_Z cur) as [s | s | | s m e] eqn:Eo.
    + destruct s; exact (Z.le_refl 0).
    + now destruct (Hfin s).
    + now destruct Hwf.
    + pose proof (finite_below_top _ _ _ Hwf) as [Hpos _].
      pose proof (finite_below_top _ _ _ W90) as [H9 _].
      cbn [sc] in Hsc.
      set (x := Zpos m * 2 ^ (e + 1074)) in *.
      set (y := Zpos m9 * 2 ^ (e9 + 1074)) in *.
      destruct s; cbn [cond_Zopp] in Hsc; [ | exfalso; lia].
      destruct (mul_finite true m e false m9 e9 Hwf W90) as (_ & Hs & _).
      rewrite Hs. cbn [xorb cond_Zopp]. fold x y.
      assert (Hxy : 0 <= x * y) by nia.
      pose proof (round_scaled_range _ Hxy) as [Hr' _].
      lia.
Qed.

(** X8.  With the source's constants the new capacity never falls short of
    the peak it was computed from, unless it is capped at
    [MAXIMUM_CAPACITY]: whichever pass fires, and also when none does. *)
Theorem new_capacity_covers_peak cfg aws tp readPts writePts s d :
  source_constants cfg ->
  unit_evaluation cfg aws tp readPts writePts s ->
  doubles (window d readPts writePts) ->
  exists z,
    py_int (adjusted d s) = ok z
    /\ (z = MAXIMUM_CAPACITY cfg \/ py_le (peak d s) (PyInt z) = true).
Proof.
  intros Hsrc Hu Hd.
  pose proof (unit_evaluation_peak_ok _ _ _ _ _ _ d Hu Hd) as Hp.
  destruct (unit_evaluation_direction _ _ _ _ _ _ d Hu) as [D _].
  destruct (decision_sem _ _ _ _ _ Hsrc Hp D) as (limit & Hl & Hwl & I).
  destruct Hsrc as (_ & _ & _ & Hmin & Hmax).
  eexists. split; [exact I | ].
  pose proof (pow2_pos 1074 (Pos2Z.is_nonneg _)) as HU.
  destruct (peak_nsc _ Hp) as [Hwp _].
  destruct multiples_cover as [C115 C140].
  set (cur := current d tp) in *.
  set (a := nsc (peak d s)) in *.
  set (X := unclamped (lower_pass_fires cfg (NumberOfDecreasesToday tp)) cur
              (nsc limit) a).
  destruct (unclamped_integral
              (lower_pass_fires cfg (NumberOfDecreasesToday tp)) cur
              (nsc limit) a) as [k Hk].
  fold X in Hk.
  assert (Hq : X / 2 ^ 1074 = k)
    by (rewrite Hk; apply Z.div_mul, Z.neq_sym, Z.lt_neq, HU).
  rewrite Hq.
  assert (HaX : a <= X \/ (X = cur * 2 ^ 1074 /\ a <= nsc limit)).
  { unfold X, unclamped.
    destruct (nsc limit <? a) eqn:E.
    - left. now apply pass_value_covers.
    - destruct (lower_pass_fires cfg (NumberOfDecreasesToday tp)).
      + left. now apply pass_value_covers.
      + right. apply Z.ltb_ge in E. now split. }
  assert (Hz : 3 <= clampZ cfg k <= 5000
               /\ (k < 5000 -> k <= clampZ cfg k)
               /\ (5000 <= k -> clampZ cfg k = 5000)
               /\ (cur = k -> k < 5000 -> Z.max cur 0 <= clampZ cfg k))
    by (unfold clampZ; rewrite Hmin, Hmax; clear; lia).
  destruct Hz as (Hz & Hck & Htop & Hcur).
  destruct (Z.le_gt_cases 5000 k) as [Hbig | Hsmall].
  { left. rewrite Hmax. exact (Htop Hbig). }
  right. specialize (Hck Hsmall).
  assert (Hcov : a <= clampZ cfg k * 2 ^ 1074).
  { destruct HaX as [HaX | [HX Hal]].
    - rewrite Hk in HaX. clear - HaX Hck HU. hide_powers. nia.
    - assert (Ek : cur = k) by (clear - Hk HX HU; hide_powers; nia).
      specialize (Hcur Ek Hsmall).
      assert (H53 : cur < 2 ^ 53)
        by (apply Z.lt_trans with 5000;
            [rewrite Ek; exact Hsmall | reflexivity]).
      pose proof (limit_below_capacity cur limit Hl H53) as Hlim.
      clear - Hlim Hal Hcur HU. hide_powers. nia. }
  unfold py_le.
  rewrite (py_compare_nsc (peak d s) (PyInt (clampZ cfg k)) Hwp).
  2: { cbn [wfn]. apply Z.lt_trans with 5001; [ | reflexivity].
       clear - Hz. lia. }
  cbn [nsc]. fold a.
  destruct (a ?= clampZ cfg k * 2 ^ 1074) eqn:E;
    compare_facts; try reflexivity.
  exfalso. clear - E Hcov. hide_powers. lia.
Qed.

Lemma new_capacity_covers_peak_witness :
  let aws := single_table 0 10 40 [2700] [900] in
  exists s,
    adjustTableCapacity_locals source_config aws "T" = ok s
    /\ py_int (adjusted Read s) = ok 11
    /\ exists z,
        py_int (adjusted Read s) = ok z
        /\ (z = 5000 \/ py_le (peak Read s) (PyInt z) = true).
Proof.
  cbv zeta. exists_evaluated.
  split; [evaluated | ].
  split; [evaluated | ].
  refine (new_capacity_covers_peak source_config
            (single_table 0 10 40 [2700] [900]) _ _ _ _ Read
            source_constants_source_config
            (evaluation_of_table _ _ "T" _ _) _).
  - evaluated.
  - apply datapoints_of_doubles.
Defined.

(** ** A raise is an increase *)

Lemma raise_floor_mono c1 c2 :
  0 <= c1 <= c2 -> sc (raise_floor c1) <= sc (raise_floor c2).
Proof.
  intros [H1 H12].
  rewrite !raise_floor_sc by (try exact H1; exact (Z.le_trans _ _ _ H1 H12)).
  apply pass_value_mono.
  - destruct multipliers_ordered as [Ha Hb].
    split; [exact (Z.le_trans _ _ _ Ha Hb) | apply Z.le_refl].
  - split; [ | apply limit_scaled_mono; now split].
    apply mul_scaled_range; [ | exact (proj1 threshold_bounds)].
    apply round_scaled_range, Z.mul_nonneg_nonneg; [exact H1 | ].
    apply Z.lt_le_incl, pow2_pos, Pos2Z.is_nonneg.
Qed.

Lemma raise_checked_exceeds fuel from cur :
  0 <= from <= cur -> cur < raise_checked fuel from ->
  (cur + 1) * 2 ^ 1074 <= sc (raise_floor cur).
Proof.
  revert from. induction fuel as [ | fuel IH]; intros from Hf Hc;
    cbn [raise_checked] in Hc.
  - exfalso. clear - Hf Hc. lia.
  - cbv zeta in Hc.
    destruct (from <? sc (raise_floor from) / 2 ^ 1074) eqn:E.
    2: { exfalso. clear - Hf Hc. lia. }
    apply Z.ltb_lt in E.
    destruct (Z.lt_ge_cases cur (sc (raise_floor from) / 2 ^ 1074))
      as [Hin | Hout].
    + pose proof (raise_floor_mono from cur Hf) as Hm.
      pose proof (pow2_pos 1074 (Pos2Z.is_nonneg _)) as HU.
      pose proof (Z.mul_div_le (sc (raise_floor from)) (2 ^ 1074) HU) as Hd.
      set (q := sc (raise_floor from) / 2 ^ 1074) in *. clearbody q.
      set (x := sc (raise_floor from)) in *. clearbody x.
      set (y := sc (raise_floor cur)) in *. clearbody y.
      clear - Hin Hm Hd HU. hide_powers. nia.
    + apply (IH (sc (raise_floor from) / 2 ^ 1074)); [ | exact Hc].
      clear - Hf E Hout. lia.
Qed.

Lemma raise_checked_all : (5000 <=? raise_checked 40 1) = true.
Proof. vm_compute. reflexivity. Qed.

Lemma raise_exceeds_in_range cur :
  1 <= cur < 5000 -> (cur + 1) * 2 ^ 1074 <= sc (raise_floor cur).
Proof.
  intros [H1 H2].
  apply (raise_checked_exceeds 40 1); [split; [discriminate | exact H1] | ].
  pose proof raise_checked_all as H. apply Z.leb_le in H.
  exact (Z.lt_le_trans _ _ _ H2 H).
Qed.

(** X9.  With the source's constants, when the raise pass fires for a
    direction whose current capacity is below [MAXIMUM_CAPACITY], the new
    capacity is strictly larger than the current one and the update flag of
    the direction is set: a raise is never a decrease and never lost. *)
Theorem raise_increases_capacity cfg aws tp readPts writePts s d :
  source_constants cfg ->
  unit_evaluation cfg aws tp readPts writePts s ->
  doubles (window d readPts writePts) ->
  current d tp < MAXIMUM_CAPACITY cfg ->
  raise_pass_fires cfg (current d tp) (peak d s) = ok true ->
  exists z,
    py_int (adjusted d s) = ok z
    /\ current d tp < z
    /\ wasUpdated d s = true.
Proof.
  intros Hsrc Hu Hd Hcur Hfires.
  pose proof (unit_evaluation_peak_ok _ _ _ _ _ _ d Hu Hd) as Hp.
  destruct (unit_evaluation_direction _ _ _ _ _ _ d Hu) as [D F].
  destruct (flag_exact _ _ _ _ _ Hsrc Hp D) as (z & I & E).
  exists z. split; [exact I | ].
  assert (Hlt : current d tp < z); [ | split; [exact Hlt | ]].
  2: { rewrite F, E. apply negb_true_iff, Z.eqb_neq. clear - Hlt. lia. }
  destruct (decision_sem _ _ _ _ _ Hsrc Hp D) as (limit & Hl & Hwl & I').
  rewrite I in I'. injection I' as ->.
  destruct Hsrc as (HRT & _ & _ & Hmin & Hmax).
  unfold raise_pass_fires in Hfires. rewrite HRT, Hl in Hfires.
  cbn [rbind] in Hfires. injection Hfires as Hgt.
  destruct (peak_nsc _ Hp) as [Hwp _].
  unfold py_gt in Hgt. rewrite (py_compare_nsc _ _ Hwp Hwl) in Hgt.
  assert (Hta : nsc limit < nsc (peak d s)).
  { destruct (nsc (peak d s) ?= nsc limit) eqn:Ec; try discriminate Hgt.
    now apply Z.compare_gt_iff in Ec. }
  set (cur := current d tp) in *. set (a := nsc (peak d s)) in *.
  unfold unclamped.
  replace (nsc limit <? a) with true by (symmetry; apply Z.ltb_lt; exact Hta).
  rewrite Hmax in Hcur.
  assert (Hc : forall q, cur < 3 \/ cur + 1 <= q -> cur < clampZ cfg q)
    by (unfold clampZ; rewrite Hmin, Hmax; clear - Hcur; intros q; lia).
  apply Hc.
  destruct (Z.lt_ge_cases cur 3) as [Hsmall | Hbig]; [now left | right].
  destruct wf_lit_0_90 as [W90 P90].
  destruct (limit_wf _ _ _ W90 P90 Hl) as (_ & _ & _ & Hn).
  assert (H0 : 0 <= cur) by (clear - Hbig; lia).
  assert (H1 : 1 <= cur < 5000) by (clear - Hbig Hcur; lia).
  specialize (Hn H0).
  pose proof (raise_exceeds_in_range cur H1) as Hex.
  rewrite (raise_floor_sc cur H0), <- Hn in Hex.
  assert (Hl0 : 0 <= nsc limit).
  { rewrite Hn. apply mul_scaled_range; [ | exact (proj1 threshold_bounds)].
    apply round_scaled_range, Z.mul_nonneg_nonneg; [exact H0 | ].
    apply Z.lt_le_incl, pow2_pos, Pos2Z.is_nonneg. }
  destruct multipliers_ordered as [Hm1 Hm2].
  pose proof (pass_value_mono lit_1_40 lit_1_40 (nsc limit) a
                (conj (Z.le_trans _ _ _ Hm1 Hm2) (Z.le_refl _))
                (conj Hl0 (Z.lt_le_incl _ _ Hta))) as Hpv.
  apply Z.div_le_lower_bound;
    [exact (pow2_pos 1074 (Pos2Z.is_nonneg _)) | ].
  change (Z.pow_pos 2 1074) with (2 ^ 1074).
  rewrite Z.mul_comm. exact (Z.le_trans _ _ _ Hex Hpv).
Qed.

Lemma raise_increases_capacity_witness :
  let aws := single_table 1 10 10 [2850] [0] in
  exists s,
    adjustTableCapacity_locals source_config aws "T" = ok s
    /\ py_int (adjusted Read s) = ok 14
    /\ exists z,
        py_int (adjusted Read s) = ok z
        /\ current Read (provisioned_throughput (Table aws "T")) < z
        /\ wasUpdated Read s = true.
Proof.
  cbv zeta. exists_evaluated.
  split; [evaluated | ].
  split; [evaluated | ].
  refine (raise_increases_capacity source_config
            (single_table 1 10 10 [2850] [0]) _ _ _ _ Read
            source_constants_source_config
            (evaluation_of_table _ _ "T" _ _) _ _ _).
  - evaluated.
  - apply datapoints_of_doubles.
  - cbn. lia.
  - evaluated.
Defined.

(** * The peak is the largest sample rate *)

Lemma py_gt_nan p : py_gt (PyFloat S754_nan) p = false.
Proof. unfold py_gt. now rewrite py_compare_nan. Qed.

Lemma peak_loop_max cfg datapoints p0 p :
  doubles datapoints ->
  peak_ok p0 ->
  peak_loop cfg datapoints p0 = ok p ->
  peak_ok p
  /\ nsc p0 <= nsc p
  /\ Forall (fun d => py_gt (rate cfg d) p = false) datapoints
  /\ (p = p0 \/ Exists (fun d => p = rate cfg d) datapoints).
Proof.
  intros Hall. revert p0.
  induction Hall as [ | d rest Hd _ IH]; intros p0 H0; cbn [peak_loop].
  - intros H. injection H as <-.
    split; [exact H0 | split; [lia | split; [constructor | now left]]].
  - unfold py_div.
    destruct (as_double (PyFloat (Sum d))) as [ | x] eqn:Ex;
      [discriminate Ex | ].
    injection Ex as <-. cbn [rbind].
    destruct (as_double (PyInt (SECONDS_PER_DATA_POINT cfg))) as [ | y] eqn:Ey;
      cbn [rbind]; [discriminate | ].
    apply as_double_int in Ey as [-> Hfin].
    destruct (is_zero (B64.of_Z (SECONDS_PER_DATA_POINT cfg))) eqn:Ez;
      cbn [rbind]; [discriminate | ].
    fold (rate cfg d).
    destruct (of_Z_spec (SECONDS_PER_DATA_POINT cfg)) as (Hwy & _).
    destruct (peak_nsc _ H0) as [Hw0 _].
    intros Hloop.
    change (peak_loop cfg rest (py_max p0 (rate cfg d)) = ok p) in Hloop.
    destruct (nan_or_wf (Sum d) Hd) as [En | Hwd].
    + assert (Er : rate cfg d = PyFloat S754_nan)
        by (unfold rate; now rewrite En).
      unfold py_max in Hloop. rewrite Er, py_gt_nan in Hloop.
      destruct (IH p0 H0 Hloop) as (Hp & Hle & Hall' & Hex).
      split; [exact Hp | split; [exact Hle | split]].
      * constructor; [rewrite Er; apply py_gt_nan | exact Hall'].
      * destruct Hex as [-> | Hex]; [now left | right; now constructor 2].
    + destruct (div_wf _ _ Hwd Hwy Ez Hfin) as [Hw _].
      fold (rate cfg d) in Hw.
      assert (Hwr : wfn (rate cfg d)) by exact Hw.
      unfold py_max, py_gt in Hloop.
      rewrite (py_compare_nsc _ _ Hwr Hw0) in Hloop.
      destruct (nsc (rate cfg d) ?= nsc p0) eqn:Ec; compare_facts.
      * destruct (IH p0 H0 Hloop) as (Hp & Hle & Hall' & Hex).
        destruct (peak_nsc _ Hp) as [Hwp _].
        split; [exact Hp | split; [exact Hle | split]].
        -- constructor; [ | exact Hall'].
           unfold py_gt. rewrite (py_compare_nsc _ _ Hwr Hwp).
           destruct (nsc (rate cfg d) ?= nsc p) eqn:Ec'; compare_facts;
             try reflexivity. lia.
        -- destruct Hex as [-> | Hex]; [now left | right; now constructor 2].
      * destruct (IH p0 H0 Hloop) as (Hp & Hle & Hall' & Hex).
        destruct (peak_nsc _ Hp) as [Hwp _].
        split; [exact Hp | split; [exact Hle | split]].
        -- constructor; [ | exact Hall'].
           unfold py_gt. rewrite (py_compare_nsc _ _ Hwr Hwp).
           destruct (nsc (rate cfg d) ?= nsc p) eqn:Ec'; compare_facts;
             try reflexivity. lia.
        -- destruct Hex as [-> | Hex]; [now left | right; now constructor 2].
      * assert (H1 : peak_ok (rate cfg d)).
        { split; [exact Hw | apply positive_is_nonneg; [exact Hw | ]].
          pose proof (proj2 (peak_nsc _ H0)).
          change (sc (B64.div (Sum d)
                        (B64.of_Z (SECONDS_PER_DATA_POINT cfg))))
            with (nsc (rate cfg d)). lia. }
        destruct (IH (rate cfg d) H1 Hloop) as (Hp & Hle & Hall' & Hex).
        destruct (peak_nsc _ Hp) as [Hwp _].
        split; [exact Hp | split; [lia | split]].
        -- constructor; [ | exact Hall'].
           unfold py_gt. rewrite (py_compare_nsc _ _ Hwr Hwp).
           destruct (nsc (rate cfg d) ?= nsc p) eqn:Ec'; compare_facts;
             try reflexivity. lia.
        -- right. destruct Hex as [-> | Hex];
             [now constructor 1 | now constructor 2].
Qed.

(** X10.  The peak of a direction is the largest sample rate of its
    window: it is zero or one of the rates [Sum/SECONDS_PER_DATA_POINT],
    no rate of the window is greater, and it is never negative; rates that
    are negative or NaN are ignored. *)
Theorem peak_is_largest_rate cfg aws tp readPts writePts s d :
  unit_evaluation cfg aws tp readPts writePts s ->
  doubles (window d readPts writePts) ->
  py_le (PyInt 0) (peak d s) = true
  /\ Forall (fun pt => py_gt (rate cfg pt) (peak d s) = false)
       (window d readPts writePts)
  /\ (peak d s = PyInt 0
      \/ Exists (fun pt => peak d s = rate cfg pt)
           (window d readPts writePts)).
Proof.
  intros Hu Hd.
  pose proof (unit_evaluation_peak _ _ _ _ _ _ d Hu) as Hloop.
  destruct (peak_loop_max cfg _ (PyInt 0) _ Hd eq_refl Hloop)
    as (Hp & Hle & Hall & Hex).
  split; [ | split; [exact Hall | exact Hex]].
  destruct (peak_nsc _ Hp) as [Hwp _].
  unfold py_le.
  rewrite (py_compare_nsc (PyInt 0) _ ltac:(reflexivity) Hwp).
  cbn [nsc] in *.
  destruct (0 * 2 ^ 1074 ?= nsc (peak d s)) eqn:E; compare_facts;
    try reflexivity. lia.
Qed.

Lemma peak_is_largest_rate_witness :
  let aws := single_table 0 10 10 [600; -300; 2700; 900] [] in
  exists s,
    adjustTableCapacity_locals source_config aws "T" = ok s
    /\ peak Read s = PyFloat (B64.of_Z 9)
    /\ py_le (PyInt 0) (peak Read s) = true
    /\ Forall (fun pt => py_gt (rate source_config pt) (peak Read s) = false)
         (datapoints_of [600; -300; 2700; 900])
    /\ (peak Read s = PyInt 0
        \/ Exists (fun pt => peak Read s = rate source_config pt)
             (datapoints_of [600; -300; 2700; 900])).
Proof.
  cbv zeta. exists_evaluated.
  split; [evaluated | ].
  split; [evaluated | ].
  refine (peak_is_largest_rate source_config
            (single_table 0 10 10 [600; -300; 2700; 900] []) _ _ _ _ Read
            (evaluation_of_table _ _ "T" _ _) _).
  - evaluated.
  - apply datapoints_of_doubles.
Defined.

(** * Invocations that run to their end *)

(** X11.  With the source's decision constants, a bucket length that is not
    zero, sample sums that are binary64 values, and table and index
    capacities below [2^1023] in absolute value, no step of an invocation
    raises: neither the divisions of the peak loops, nor the conversions of
    capacities to floats, nor the conversions of the new capacities to
    integers.  The invocation runs to its end. *)
Theorem invocation_runs_to_its_end cfg aws float_str :
  source_constants cfg ->
  SECONDS_PER_DATA_POINT cfg <> 0 ->
  Z.abs (SECONDS_PER_DATA_POINT cfg) < 2 ^ 1023 ->
  service_doubles cfg aws ->
  Forall (fun tableName =>
            let dynamodb := Table aws tableName in
            let tp := provisioned_throughput dynamodb in
            Z.abs (ReadCapacityUnits tp) < 2 ^ 1023
            /\ Z.abs (WriteCapacityUnits tp) < 2 ^ 1023
            /\ forall indexes,
                global_secondary_indexes dynamodb = Some indexes ->
                Forall (fun ix =>
                          Z.abs (ReadCapacityUnits (ProvisionedThroughput ix))
                          < 2 ^ 1023
                          /\ Z.abs (WriteCapacityUnits (ProvisionedThroughput ix))
                             < 2 ^ 1023) indexes)
         (list_tables aws) ->
  exists evs, lambda_handler cfg aws float_str = (evs, ok tt).
Proof.
  intros Hsrc Hnz Hsmall Hd Hall.
  exact (lambda_handler_completes cfg aws float_str Hsrc Hnz Hsmall Hd Hall).
Qed.

Lemma invocation_runs_to_its_end_witness :
  exists evs,
    lambda_handler source_config (single_index 0 10 10 [2700] [3300])
      float_str_stub = (evs, ok tt).
Proof.
  refine (invocation_runs_to_its_end source_config
            (single_index 0 10 10 [2700] [3300]) float_str_stub
            source_constants_source_config _ _
            (single_index_doubles _ 0 10 10 [2700] [3300]) _).
  - discriminate.
  - reflexivity.
  - constructor; [ | constructor]. cbv zeta.
    split; [reflexivity | split; [reflexivity | ]].
    intros indexes H. injection H as <-.
    constructor; [ | constructor]. split; reflexivity.
Defined.

(** ** No e-mail without configuration *)

Lemma notify_condition_unconfigured cfg s :
  notifications_configured cfg = false -> notify_condition cfg s = false.
Proof.
  intros H. rewrite notify_condition_eq, H. apply andb_false_r.
Qed.

Lemma table_events_no_email cfg aws float_str tableName :
  notifications_configured cfg = false ->
  Forall (fun e => is_email e = false)
         (fst (adjustTableCapacity cfg aws float_str tableName)).
Proof.
  intros Hn. unfold adjustTableCapacity.
  destruct (adjustTableCapacity_locals cfg aws tableName) as [e | s].
  - constructor.
  - run_cases. rewrite (notify_condition_unconfigured cfg s Hn).
    destruct (readWasUpdated s || writeWasUpdated s);
      destruct (py_int (adjustedReadCapacity s)) as [x | r];
      destruct (py_int (adjustedWriteCapacity s)) as [y | w];
      cbn [fst app]; repeat constructor.
Qed.

Lemma index_events_no_email cfg aws float_str tableName secondaryIndex :
  notifications_configured cfg = false ->
  Forall (fun e => is_email e = false)
         (fst (adjustTableIndexCapacities_body cfg aws float_str tableName
                 secondaryIndex)).
Proof.
  intros Hn. unfold adjustTableIndexCapacities_body. cbv zeta.
  destruct (adjustTableIndexCapacities_locals cfg aws tableName secondaryIndex)
    as [e | s].
  - constructor.
  - run_cases. rewrite (notify_condition_unconfigured cfg s Hn).
    destruct (readWasUpdated s || writeWasUpdated s);
      destruct (py_int (adjustedReadCapacity s)) as [x | r];
      destruct (py_int (adjustedWriteCapacity s)) as [y | w];
      cbn [fst app]; repeat constructor.
Qed.

(** X12.  When the sender address is empty or no recipient is listed, as
    in the file as published, an invocation never sends an e-mail:
    whatever the tables, their indexes and their metrics, and whether the
    invocation runs to its end or is stopped by an exception. *)
Theorem unconfigured_invocation_sends_no_email cfg aws float_str evs r :
  notifications_configured cfg = false ->
  lambda_handler cfg aws float_str = (evs, r) ->
  emails evs = [].
Proof.
  intros Hn Hrun.
  assert (H : Forall (fun e => is_email e = false) evs).
  { change evs with (fst (evs, r)). rewrite <- Hrun.
    unfold lambda_handler. apply for_each_events. intros table _.
    apply io_bind_events; [now apply table_events_no_email | ].
    intros _ _. unfold adjustTableIndexCapacities. cbv zeta.
    destruct (global_secondary_indexes (Table aws table)) as [indexes | ].
    - apply io_bind_events.
      + apply for_each_events. intros ix _.
        now apply index_events_no_email.
      + intros _ _. repeat constructor.
    - repeat constructor. }
  unfold emails. clear Hrun.
  induction H as [ | e rest He _ IH]; [reflexivity | ].
  cbn [filter]. now rewrite He.
Qed.

Lemma unconfigured_invocation_sends_no_email_witness :
  exists evs,
    lambda_handler source_config (single_index 0 10 10 [2700] [3300])
      float_str_stub = (evs, ok tt)
    /\ In (UpdateTable "T" 11 16) evs
    /\ emails evs = [].
Proof.
  eexists.
  assert (U : forall A B C : Prop, A -> B -> (A -> C) -> A /\ B /\ C)
    by tauto.
  apply U; clear U.
  - vm_compute. reflexivity.
  - left. reflexivity.
  - intros Hrun.
    exact (unconfigured_invocation_sends_no_email source_config _ _ _ _
             eq_refl Hrun).
Defined.
